(** * A verified model of the generic in-memory DataStore

    Shallow embedding of [src/src/types.ts] (the [DataStore] and
    [TransactionalProxy] classes) together with the part of the JavaScript
    run time the store relies on: primitive values, numbers as doubles,
    strict equality, relational comparison, [Map], [Array.prototype.slice],
    and [Array.prototype.sort] as far as the standard fixes it. *)

From Stdlib Require Import ZArith Zpow_facts String Ascii List Lia Permutation Sorted.
From stdpp Require Import base option gmap strings list fin_maps.


Local Open Scope Z_scope.

(** ** JavaScript values *)

(** Numbers.  A double is [NaN], an infinity, or [m * 2 ^ e] for integers
    [m] and [e].  An integer is written [Num z].  A number that is no integer
    is written [Frac floor digits]: the integer below it, and its binary
    digits after the point, which [digits] holds from its lowest bit (the
    first digit after the point) to its leading one (the last digit, a 1).
    So [Frac 0 1] is 0.5, [Frac 1 1] is 1.5 and [Frac (-1) 3] is -0.25.
    Every number is written in one way, so that two numbers are the same
    when the terms are; [+0] and [-0] are one number, as they are for every
    operation the store performs on them. *)
Inductive number : Type :=
  | NaN
  | Infinity (negative : bool)
  | Num (z : Z)
  | Frac (floor : Z) (digits : positive).

(** The digits after the point as a fraction: [(n, k)] for [n / 2 ^ k]. *)
Fixpoint fraction (digits : positive) : Z * Z :=
  match digits with
  | xH => (1, 1)
  | xO rest => let (n, k) := fraction rest in (n, k + 1)
  | xI rest => let (n, k) := fraction rest in (n + 2 ^ k, k + 1)
  end.

(** A finite number as [(m, k)] for [m / 2 ^ k]. *)
Definition dyadic (x : number) : option (Z * Z) :=
  match x with
  | Num z => Some (z, 0)
  | Frac floor digits =>
      let (n, k) := fraction digits in Some (floor * 2 ^ k + n, k)
  | _ => None
  end.

(** The order of two numbers; [NaN] compares with nothing. *)
Definition number_compare (a b : number) : option comparison :=
  match a, b with
  | NaN, _ | _, NaN => None
  | Infinity s, Infinity s' =>
      Some (if s then if s' then Eq else Lt else if s' then Gt else Eq)
  | Infinity s, _ => Some (if s then Lt else Gt)
  | _, Infinity s => Some (if s then Gt else Lt)
  | _, _ =>
      match dyadic a, dyadic b with
      | Some (m, k), Some (m', k') => Some (m * 2 ^ k' ?= m' * 2 ^ k)
      | _, _ => None
      end
  end.

Definition number_eqb (a b : number) : bool :=
  match number_compare a b with
  | Some Eq => true
  | _ => false
  end.

Definition number_ltb (a b : number) : bool :=
  match number_compare a b with
  | Some Lt => true
  | _ => false
  end.

Definition number_leb (a b : number) : bool :=
  match number_compare a b with
  | Some Lt | Some Eq => true
  | _ => false
  end.

(** The digits after the point of [n / 2 ^ k], for [0 < n < 2 ^ k]. *)
Fixpoint fraction_digits (k : nat) (n : Z) : positive :=
  match k with
  | O => xH
  | S k' =>
      let half := 2 ^ Z.of_nat k' in
      if n =? half then xH
      else if n <? half then xO (fraction_digits k' n)
      else xI (fraction_digits k' (n - half))
  end.

(** The number [m * 2 ^ e]. *)
Definition of_dyadic (m e : Z) : number :=
  if 0 <=? e then Num (m * 2 ^ e)
  else
    let k := - e in
    let r := m mod 2 ^ k in
    if r =? 0 then Num (m / 2 ^ k)
    else Frac (m / 2 ^ k) (fraction_digits (Z.to_nat k) r).

(** The double nearest to [m * 2 ^ e], as every operation on doubles rounds
    its exact result: 53 binary digits are kept, and none below [2 ^ -1074];
    a tie goes to the neighbour whose last digit is even; from [2 ^ 1024] on
    the result is an infinity. *)
Definition round (m e : Z) : number :=
  let n := Z.abs m in
  let e' := Z.max e (Z.max (e + Z.log2 n - 52) (-1074)) in
  let shift := e' - e in
  let q := n / 2 ^ shift in
  let r := n mod 2 ^ shift in
  let q' := if (2 ^ shift <? 2 * r) || ((2 * r =? 2 ^ shift) && Z.odd q)
            then q + 1 else q in
  if 2 ^ 1024 <=? q' * 2 ^ e' then Infinity (m <? 0)
  else of_dyadic (Z.sgn m * q') e'.

(** [a + b]: the double nearest to the exact sum.  The sum of two integers
    is written exactly: rounding moves it only once it takes more than 53
    binary digits, and then to a number that [slice], the one reader of a sum
    here, clamps to the same index in any array of at most [2 ^ 53] elements
    (see [slice_rounded_sum]). *)
Definition number_add (a b : number) : number :=
  match a, b with
  | NaN, _ | _, NaN => NaN
  | Infinity s, Infinity s' => if Bool.eqb s s' then Infinity s else NaN
  | Infinity s, _ | _, Infinity s => Infinity s
  | Num x, Num y => Num (x + y)
  | _, _ =>
      match dyadic a, dyadic b with
      | Some (m, k), Some (m', k') =>
          let k'' := Z.max k k' in
          round (m * 2 ^ (k'' - k) + m' * 2 ^ (k'' - k')) (- k'')
      | _, _ => NaN
      end
  end.

(** An integer or an infinity. *)
Inductive integer_or_infinity : Type :=
  | MinusInfinity
  | Finite (z : Z)
  | PlusInfinity.

(** [ToIntegerOrInfinity]: [NaN] becomes [0], and the digits after the point
    are dropped. *)
Definition ToIntegerOrInfinity (n : number) : integer_or_infinity :=
  match n with
  | NaN => Finite 0
  | Infinity negative => if negative then MinusInfinity else PlusInfinity
  | Num z => Finite z
  | Frac floor _ => Finite (if floor <? 0 then floor + 1 else floor)
  end.

(** The value kinds a record field can hold: the primitives and [Date].
    A symbol is known by its identity only; a [Date] object by its identity
    together with the time value it holds. *)
Inductive value : Type :=
  | VUndefined
  | VNull
  | VBoolean (b : bool)
  | VNumber (n : number)
  | VString (s : string)
  | VSymbol (id : positive)
  | VDate (ref : positive) (time : number).

#[global] Instance number_eq_dec : EqDecision number.
Proof. solve_decision. Defined.

#[global] Instance value_eq_dec : EqDecision value.
Proof. solve_decision. Defined.

(** A record is a plain object: a finite map from property names to values. *)
Abbreviation record := (gmap string value).

(** [obj[name]]: reading a property that is not there gives [undefined]. *)
Definition get_field (obj : record) (name : string) : value :=
  default VUndefined (obj !! name).

(** [x === y]. *)
Definition strict_eq (x y : value) : bool :=
  match x, y with
  | VUndefined, VUndefined => true
  | VNull, VNull => true
  | VBoolean a, VBoolean b => bool_decide (a = b)
  | VNumber a, VNumber b => number_eqb a b
  | VString a, VString b => bool_decide (a = b)
  | VSymbol a, VSymbol b => bool_decide (a = b)
  | VDate r1 t1, VDate r2 t2 => bool_decide (r1 = r2 /\ t1 = t2)
  | _, _ => false
  end.

(** [SameValueZero], the equality of [Map] keys: like [===] except that [NaN]
    is the same as [NaN].  On the values above it is plain equality. *)
Definition SameValueZero (x y : value) : bool := bool_decide (x = y).

(** ** Errors and completions *)

(** What can be thrown: the two errors of the store, the run time's
    [TypeError], and whatever the caller's own code throws. *)
Inductive error : Type :=
  | DuplicateKey (key : value)   (* new Error(`Duplicate key: ${String(key)}`) *)
  | NotFound                     (* new Error('NotFound') *)
  | TypeError
  | UserError (payload : value).

(** A call either returns or throws. *)
Inductive outcome (A : Type) : Type :=
  | Returned (a : A)
  | Thrown (e : error).
Arguments Returned {A} a.
Arguments Thrown {A} e.

#[global] Instance outcome_ret : MRet outcome := fun A a => Returned a.
#[global] Instance outcome_bind : MBind outcome := fun A B f c =>
  match c with
  | Returned a => f a
  | Thrown e => Thrown e
  end.

(** ** Arrays *)

(** [arr.slice(start, end)]: a negative index counts from the end, and both
    indices are clamped to the array. *)
Definition clamp (len : Z) (relative : integer_or_infinity) : Z :=
  match relative with
  | MinusInfinity => 0
  | Finite r => if r <? 0 then Z.max (len + r) 0 else Z.min r len
  | PlusInfinity => len
  end.

Definition slice {A : Type} (arr : list A) (start end_ : number) : list A :=
  let len := Z.of_nat (length arr) in
  let k := clamp len (ToIntegerOrInfinity start) in
  let final := clamp len (ToIntegerOrInfinity end_) in
  take (Z.to_nat (Z.max (final - k) 0)) (drop (Z.to_nat k) arr).

(** The stable insertion sort.  [comparefn a b > 0] puts [a] after [b]; an
    error thrown by [comparefn] ends the sort. *)
Fixpoint sort_insert {A : Type} (comparefn : A -> A -> outcome Z)
    (x : A) (sorted : list A) : outcome (list A) :=
  match sorted with
  | [] => Returned [x]
  | y :: rest =>
      c ← comparefn x y;
      if c <=? 0 then Returned (x :: y :: rest)
      else (rest' ← sort_insert comparefn x rest; Returned (y :: rest'))
  end.

Fixpoint stable_sort {A : Type} (comparefn : A -> A -> outcome Z)
    (arr : list A) : outcome (list A) :=
  match arr with
  | [] => Returned []
  | x :: rest => sorted ← stable_sort comparefn rest; sort_insert comparefn x sorted
  end.

(** A consistent comparison function for the elements of [arr], as the
    standard defines it for [Array.prototype.sort]: it returns a number for
    every two of them; [a = a]; [a = b] gives [b = a]; and [=], [<] and [>]
    are transitive, where [a = b], [a < b] and [a > b] stand for
    [comparefn a b] being zero, negative and positive. *)
Definition consistent {A : Type} (comparefn : A -> A -> outcome Z)
    (arr : list A) : Prop :=
  ∃ c : A -> A -> Z,
    (∀ a b, In a arr → In b arr → comparefn a b = Returned (c a b)) ∧
    (∀ a, In a arr → c a a = 0) ∧
    (∀ a b, In a arr → In b arr → c a b = 0 → c b a = 0) ∧
    (∀ a b d, In a arr → In b arr → In d arr →
              c a b = 0 → c b d = 0 → c a d = 0) ∧
    (∀ a b d, In a arr → In b arr → In d arr →
              c a b < 0 → c b d < 0 → c a d < 0) ∧
    (∀ a b d, In a arr → In b arr → In d arr →
              0 < c a b → 0 < c b d → 0 < c a d).

(** ** The engine *)

(** What the model takes from the engine it runs on.  [StringToNumber] is
    the numeric-literal parser behind [ToNumber] on strings.  [Array_sort] is
    [arr.sort(comparefn)], of which the standard says: the result holds the
    elements of the array; an error thrown by a call of [comparefn] ends the
    sort and is thrown on; and when [comparefn] is consistent for the elements
    the result is sorted by it with the elements that compare equal in their
    first order, which is what [stable_sort] gives.  When [comparefn] is not
    consistent the order is the implementation's own. *)
Class Engine : Type := {
  StringToNumber : string -> number;
  Array_sort : ∀ {A : Type}, (A -> A -> outcome Z) -> list A -> outcome (list A);
  Array_sort_permutes :
    ∀ (A : Type) (comparefn : A -> A -> outcome Z) (arr result : list A),
      Array_sort comparefn arr = Returned result → Permutation arr result;
  Array_sort_propagates :
    ∀ (A : Type) (comparefn : A -> A -> outcome Z) (arr : list A) (err : error),
      Array_sort comparefn arr = Thrown err →
      ∃ a b, In a arr ∧ In b arr ∧ comparefn a b = Thrown err;
  Array_sort_consistent :
    ∀ (A : Type) (comparefn : A -> A -> outcome Z) (arr : list A),
      consistent comparefn arr →
      Array_sort comparefn arr = stable_sort comparefn arr
}.

(** [ToNumber], after [ToPrimitive] with hint number: a [Date] gives its time
    value, a symbol throws. *)
Definition ToNumber {engine : Engine} (v : value) : outcome number :=
  match v with
  | VUndefined => Returned NaN
  | VNull => Returned (Num 0)
  | VBoolean b => Returned (Num (if b then 1 else 0))
  | VNumber n => Returned n
  | VString s => Returned (StringToNumber s)
  | VSymbol _ => Thrown TypeError
  | VDate _ t => Returned t
  end.

(** [x < y]: two strings compare by code units, anything else as numbers. *)
Definition js_lt {engine : Engine} (x y : value) : outcome bool :=
  match x, y with
  | VString a, VString b => Returned (String.ltb a b)
  | _, _ => nx ← ToNumber x; ny ← ToNumber y; Returned (number_ltb nx ny)
  end.

(** [x > y]. *)
Definition js_gt {engine : Engine} (x y : value) : outcome bool := js_lt y x.

(** [v.getTime()]: of the values of the model only a [Date] has the
    method; calling it on anything else throws. *)
Definition getTime (v : value) : outcome number :=
  match v with
  | VDate _ time => Returned time
  | _ => Thrown TypeError
  end.

(** [String.prototype.startsWith], [includes] and [endsWith]. *)
Definition startsWith (s sub : string) : bool := String.prefix sub s.

Fixpoint includes (s sub : string) : bool :=
  String.prefix sub s ||
  match s with
  | EmptyString => false
  | String _ rest => includes rest sub
  end.

Definition endsWith (s sub : string) : bool :=
  let n := String.length s in
  let m := String.length sub in
  (m <=? n)%nat && bool_decide (String.substring (n - m) m s = sub).

(** [Number.prototype.toString(radix)] on an integer: digits [0-9a-z], most
    significant first, after a minus sign when negative. *)
Definition digit (d : N) : ascii :=
  ascii_of_N (if (d <? 10)%N then 48 + d else 87 + d).

Fixpoint digits (fuel : nat) (radix n : N) (acc : string) : string :=
  match fuel with
  | O => acc
  | S fuel' =>
      let acc' := String (digit (n mod radix)) acc in
      if (n / radix =? 0)%N then acc' else digits fuel' radix (n / radix) acc'
  end.

Definition Number_toString (radix : N) (z : Z) : string :=
  let n := Z.abs_N z in
  let body := digits (S (N.size_nat n)) radix n "" in
  if z <? 0 then String "-" body else body.

(** ** [Map] *)

(** [Map<T[K], T>]: the entries in insertion order, one per key, keys
    compared by [SameValueZero]. *)
Module JsMap.

Definition t : Type := list (value * record).

Fixpoint get (key : value) (m : t) : option record :=
  match m with
  | [] => None
  | (k, v) :: rest => if SameValueZero k key then Some v else get key rest
  end.

Definition has (key : value) (m : t) : bool :=
  match get key m with
  | Some _ => true
  | None => false
  end.

(** [set] keeps the place of a key that is there and appends a new one. *)
Fixpoint set (key : value) (v : record) (m : t) : t :=
  match m with
  | [] => [(key, v)]
  | (k, v') :: rest =>
      if SameValueZero k key then (k, v) :: rest else (k, v') :: set key v rest
  end.

(** [delete] returns whether the key was there, and the remaining map. *)
Definition delete (key : value) (m : t) : bool * t :=
  (has key m, List.filter (fun e => negb (SameValueZero (fst e) key)) m).

Definition values (m : t) : list record := List.map snd m.

Definition keys (m : t) : list value := List.map fst m.

Definition clear (m : t) : t := [].

(** [new Map(m)]: a copy with the same entries. *)
Definition copy (m : t) : t := m.

End JsMap.

(** ** The types of [types.ts] *)

Inductive SortDirection : Type := asc | desc.

Record QueryOptions : Type := {
  limit : option number;
  offset : option number;
  sortBy : option string;
  sortDir : option SortDirection
}.

(** The two bounds of [between]: numbers, or dates (by their time values). *)
Inductive Between : Type :=
  | NumberBounds (low high : number)
  | DateBounds (low high : number).

(** [FieldFilter<V>] at run time: an object that may carry any of the
    operators.  [eq], [before] and [after] hold a value of any kind,
    [VUndefined] when the operator is not given; the text operators hold
    strings and the numeric ones numbers, as their types say. *)
Module FieldFilter.
Record t : Type := {
  eq : value;
  contains : option string;
  startsWith : option string;
  endsWith : option string;
  lt : option number;
  lte : option number;
  gt : option number;
  gte : option number;
  between : option Between;
  before : value;
  after : value
}.

Definition empty : t :=
  {| eq := VUndefined; contains := None; startsWith := None; endsWith := None;
     lt := None; lte := None; gt := None; gte := None; between := None;
     before := VUndefined; after := VUndefined |}.
End FieldFilter.

(** [Filter<T>]: the [$and] and [$or] groups when given, and the field entries
    in [Object.keys] order ([None] for an entry that is [null] or
    [undefined]). *)
#[warnings="-register-all"]
Inductive Filter : Type :=
  | mkFilter (and_ : option (list Filter)) (or_ : option (list Filter))
             (fields : list (string * option FieldFilter.t)).

(** ** The logger *)

Inductive Level : Type := Debug | Info | Warn | Error.

(** What the logger was told: the level and the event name. *)
Definition LogEvent : Type := Level * string.

(** ** Array helpers that take a callback which may throw *)

Section Callbacks.
Context {A : Type} (callback : A -> outcome bool).

(** [arr.every(callback)]: stops at the first element that fails. *)
Fixpoint Array_every (arr : list A) : outcome bool :=
  match arr with
  | [] => Returned true
  | x :: rest =>
      callback x ≫= λ b : bool, if b then Array_every rest else Returned false
  end.

(** [arr.some(callback)]: stops at the first element that passes. *)
Fixpoint Array_some (arr : list A) : outcome bool :=
  match arr with
  | [] => Returned false
  | x :: rest =>
      callback x ≫= λ b : bool, if b then Returned true else Array_some rest
  end.

(** [arr.filter(callback)]. *)
Fixpoint Array_filter (arr : list A) : outcome (list A) :=
  match arr with
  | [] => Returned []
  | x :: rest =>
      callback x ≫= λ b : bool,
      kept ← Array_filter rest;
      Returned (if b then x :: kept else kept)
  end.
End Callbacks.

(** ** The function passed to [transaction] *)

(** A call on the transaction view, indexed by what it returns.  [Create]
    carries the reading of [Date.now()] at the moment of the call. *)
Inductive call : Type -> Type :=
  | Create (now : Z) (item : record) : call record
  | Get (key : value) : call (option record)
  | Update (key : value) (patch : record) : call record
  | Delete (key : value) : call bool
  | List (options : option QueryOptions) : call (list record)
  | Query (filter : option Filter) (options : option QueryOptions) : call (list record).

(** The function [fn] given to [transaction], as the tree of the calls it
    makes on the view: it returns, throws, or makes a call and goes on with
    the call's completion (so it may catch what the call throws). *)
Inductive txn (R : Type) : Type :=
  | Return (res : R)
  | Throw (err : error)
  | Call {A : Type} (c : call A) (k : outcome A -> txn R).
Arguments Return {R} res.
Arguments Throw {R} err.
Arguments Call {R A} c k.

(** ** [class DataStore] *)

Module DataStore.

(** The fields of a store.  [logger] is what the store has sent to its
    logger so far, oldest first; [autoIdSeed] is an integer, 1 in a new
    store. *)
Record t : Type := {
  map : JsMap.t;
  logger : list LogEvent;
  autoIdSeed : Z;
  keyName : string
}.

(** [new DataStore(keyName)]. *)
Definition new (keyName : string) : t :=
  {| map := []; logger := []; autoIdSeed := 1; keyName := keyName |}.

(** A method of the store: from the store before the call to the completion
    and the store after it. *)
Definition M (A : Type) : Type := t -> outcome A * t.

#[global] Instance M_ret : MRet M := fun A a this => (Returned a, this).
#[global] Instance M_bind : MBind M := fun A B f c this =>
  match c this with
  | (Returned a, this') => f a this'
  | (Thrown e, this') => (Thrown e, this')
  end.

Definition throw {A : Type} (e : error) : M A := fun this => (Thrown e, this).

Definition lift {A : Type} (c : outcome A) : M A := fun this => (c, this).

Definition this_ : M t := fun this => (Returned this, this).

(** [this.map = m], and a [Map] method that changes [this.map] in place. *)
Definition set_map (m : JsMap.t) : M unit := fun this =>
  (Returned (),
   {| map := m; logger := logger this; autoIdSeed := autoIdSeed this;
      keyName := keyName this |}).

(** [this.logger.debug/info/warn(event, ...)]. *)
Definition log (level : Level) (event : string) : M unit := fun this =>
  (Returned (),
   {| map := map this; logger := logger this ++ [(level, event)];
      autoIdSeed := autoIdSeed this; keyName := keyName this |}).

(** [n++] on the seed leaves the double nearest to [n + 1]: an integer (or
    an infinity, from [2 ^ 1024] on). *)
Definition increment (n : Z) : Z :=
  match round (n + 1) 0 with
  | Num n' => n'
  | _ => n
  end.
Arguments increment : simpl never.

(** [generateId], with [now] the reading of [Date.now()]. *)
Definition generateId (now : Z) : M string := fun this =>
  (Returned ("id_" +:+ Number_toString 36 now +:+ "_"
             +:+ Number_toString 10 (autoIdSeed this)),
   {| map := map this; logger := logger this;
      autoIdSeed := increment (autoIdSeed this); keyName := keyName this |}).

Definition create (now : Z) (item : record) : M record :=
  this ← this_;
  let key := get_field item (keyName this) in
  finalKey ← match key with
             | VUndefined | VNull =>
                 generated ← generateId now; mret (VString generated)
             | _ => mret key
             end;
  let record := <[keyName this := finalKey]> item in
  this ← this_;
  if JsMap.has finalKey (map this) then throw (DuplicateKey finalKey)
  else
    set_map (JsMap.set finalKey record (map this));;
    log Info "create";;
    mret record.

Definition get (key : value) : M (option record) :=
  log Debug "get";;
  this ← this_;
  mret (JsMap.get key (map this)).

(** [{ ...existing, ...patch }] is [patch ∪ existing]: the patch wins. *)
Definition update (key : value) (patch : record) : M record :=
  this ← this_;
  match JsMap.get key (map this) with
  | None => throw NotFound
  | Some existing =>
      let updated : record := patch ∪ existing in
      set_map (JsMap.set key updated (map this));;
      log Info "update";;
      mret updated
  end.

Definition delete (key : value) : M bool :=
  this ← this_;
  let (existed, m) := JsMap.delete key (map this) in
  set_map m;;
  log Info "delete";;
  mret existed.

Section Queries.
Context {engine : Engine}.

(** The comparison function given to [sort]. *)
Definition compareBy (sortBy : string) (dir : Z) (a b : record) : outcome Z :=
  let va := get_field a sortBy in
  let vb := get_field b sortBy in
  if strict_eq va vb then Returned 0
  else js_gt va vb ≫= λ g : bool, Returned ((if g then 1 else -1) * dir).

(** [if (options?.sortBy) arr = arr.sort(...)]: an empty name is falsy. *)
Definition applySort (options : option QueryOptions) (arr : list record)
    : outcome (list record) :=
  match options ≫= sortBy with
  | Some field =>
      if bool_decide (field = "") then Returned arr
      else
        let dir := match options ≫= sortDir with
                   | Some desc => -1
                   | _ => 1
                   end in
        Array_sort (compareBy field dir) arr
  | None => Returned arr
  end.

(** [arr.slice(offset, offset + limit)] with the two defaults. *)
Definition applySlice (options : option QueryOptions) (arr : list record)
    : list record :=
  let offset := default (Num 0) (options ≫= offset) in
  let limit := default (Num (Z.of_nat (length arr))) (options ≫= limit) in
  slice arr offset (number_add offset limit).

Definition list (options : option QueryOptions) : M (Datatypes.list record) :=
  this ← this_;
  arr ← lift (applySort options (JsMap.values (map this)));
  mret (applySlice options arr).

(** The checks of one field entry; [Returned false] is [return false]. *)
Definition checkField (val : value) (ff : FieldFilter.t) : outcome bool :=
  match val with
  | VString s =>
      if negb (bool_decide (FieldFilter.eq ff = VUndefined))
         && negb (strict_eq val (FieldFilter.eq ff)) then Returned false
      else if match FieldFilter.contains ff with
              | Some sub => negb (includes s sub)
              | None => false
              end then Returned false
      else if match FieldFilter.startsWith ff with
              | Some sub => negb (startsWith s sub)
              | None => false
              end then Returned false
      else if match FieldFilter.endsWith ff with
              | Some sub => negb (endsWith s sub)
              | None => false
              end then Returned false
      else Returned true
  | VNumber n =>
      if negb (bool_decide (FieldFilter.eq ff = VUndefined))
         && negb (strict_eq val (FieldFilter.eq ff)) then Returned false
      else if match FieldFilter.lt ff with
              | Some x => negb (number_ltb n x)
              | None => false
              end then Returned false
      else if match FieldFilter.lte ff with
              | Some x => negb (number_leb n x)
              | None => false
              end then Returned false
      else if match FieldFilter.gt ff with
              | Some x => negb (number_ltb x n)
              | None => false
              end then Returned false
      else if match FieldFilter.gte ff with
              | Some x => negb (number_leb x n)
              | None => false
              end then Returned false
      else
        match FieldFilter.between ff with
        | Some (NumberBounds a b) | Some (DateBounds a b) =>
            Returned (number_leb a n && number_leb n b)
        | None => Returned true
        end
  | VDate _ vtime =>
      (* ff.eq !== undefined && vtime !== ff.eq.getTime() *)
      (if bool_decide (FieldFilter.eq ff = VUndefined) then Returned false
       else t ← getTime (FieldFilter.eq ff); Returned (negb (number_eqb vtime t)))
      ≫= λ differs : bool,
      if differs then Returned false
      else
        (* ff.before !== undefined && !(vtime < ff.before.getTime()) *)
        (if bool_decide (FieldFilter.before ff = VUndefined) then Returned false
         else t ← getTime (FieldFilter.before ff);
              Returned (negb (number_ltb vtime t)))
        ≫= λ late : bool,
        if late then Returned false
        else
          (* ff.after !== undefined && !(vtime > ff.after.getTime()) *)
          (if bool_decide (FieldFilter.after ff = VUndefined) then Returned false
           else t ← getTime (FieldFilter.after ff);
                Returned (negb (number_ltb t vtime)))
          ≫= λ early : bool,
          if early then Returned false
          else
            match FieldFilter.between ff with
            | Some (DateBounds a b) =>
                Returned (number_leb a vtime && number_leb vtime b)
            | Some (NumberBounds _ _) => Thrown TypeError   (* a.getTime *)
            | None => Returned true
            end
  | _ =>
      if negb (bool_decide (FieldFilter.eq ff = VUndefined))
         && negb (strict_eq val (FieldFilter.eq ff)) then Returned false
      else Returned true
  end.

(** [for (const k of Object.keys(filter))], without [$and] and [$or]. *)
Fixpoint checkFields (item : record)
    (fields : Datatypes.list (string * option FieldFilter.t)) : outcome bool :=
  match fields with
  | [] => Returned true
  | (k, None) :: rest => checkFields item rest
  | (k, Some ff) :: rest =>
      checkField (get_field item k) ff ≫= λ ok : bool,
      if ok then checkFields item rest else Returned false
  end.

(** [matchesFilter] on a filter that is an object. *)
Fixpoint matchesObject (item : record) (filter : Filter) : outcome bool :=
  match filter with
  | mkFilter None None [] => Returned true
  | mkFilter and_ or_ fields =>
      (match and_ with
       | Some fs => Array_every (matchesObject item) fs
       | None => Returned true
       end) ≫= λ all : bool,
      if negb all then Returned false
      else
        (match or_ with
         | Some fs => Array_some (matchesObject item) fs
         | None => Returned true
         end) ≫= λ any : bool,
        if negb any then Returned false
        else checkFields item fields
  end.

Definition matchesFilter (item : record) (filter : option Filter) : outcome bool :=
  match filter with
  | None => Returned true
  | Some f => matchesObject item f
  end.

Definition query (filter : option Filter) (options : option QueryOptions)
    : M (Datatypes.list record) :=
  this ← this_;
  matches ← lift (Array_filter (fun item => matchesFilter item filter)
                               (JsMap.values (map this)));
  result ← lift (applySort options matches);
  mret (applySlice options result).
End Queries.

Definition _getInternalMap : M JsMap.t :=
  this ← this_; mret (map this).

Definition clear : M unit :=
  this ← this_;
  set_map (JsMap.clear (map this));;
  log Info "clear".

(** [class TransactionalProxy]: every method hands the call to the store. *)
Module TransactionalProxy.
Section Proxy.
Context {engine : Engine}.

Definition create (now : Z) (item : record) : M record := DataStore.create now item.
Definition get (key : value) : M (option record) := DataStore.get key.
Definition update (key : value) (patch : record) : M record :=
  DataStore.update key patch.
Definition delete (key : value) : M bool := DataStore.delete key.
Definition list (options : option QueryOptions) : M (Datatypes.list record) :=
  DataStore.list options.
Definition query (filter : option Filter) (options : option QueryOptions)
    : M (Datatypes.list record) :=
  DataStore.query filter options.

(** A call of the function on the view. *)
Definition invoke {A : Type} (c : call A) : M A :=
  match c in call A return M A with
  | Create now item => create now item
  | Get key => get key
  | Update key patch => update key patch
  | Delete key => delete key
  | List options => list options
  | Query filter options => query filter options
  end.
End Proxy.
End TransactionalProxy.

Section Transactions.
Context {engine : Engine}.

(** [fn(proxy)]: the calls of [fn] run against the store one after the
    other. *)
Fixpoint run {R : Type} (fn : txn R) : M R :=
  match fn with
  | Return res => mret res
  | Throw err => throw err
  | Call c k => fun this =>
      let (completion, this') := TransactionalProxy.invoke c this in
      run (k completion) this'
  end.

Definition transaction {R : Type} (fn : txn R) : M R := fun this =>
  let snapshot := JsMap.copy (map this) in
  match run fn this with
  | (Returned res, this') =>
      let (_, this'') := log Info "transaction.commit" this' in
      (Returned res, this'')
  | (Thrown err, this') =>
      let (_, this'') := (set_map snapshot;; log Warn "transaction.rollback") this' in
      (Thrown err, this'')
  end.
End Transactions.

End DataStore.

(** ** What the claims speak about *)

(** The identifier [generateId] produces in store [this] at time [now]. *)
Definition generatedId (now : Z) (this : DataStore.t) : string :=
  "id_" +:+ Number_toString 36 now +:+ "_"
  +:+ Number_toString 10 (DataStore.autoIdSeed this).

(** The key [create] settles on: the candidate's own, or a generated one when
    the candidate's key is [undefined] or [null]. *)
Definition resolvedKey (now : Z) (item : record) (this : DataStore.t) : value :=
  match get_field item (DataStore.keyName this) with
  | VUndefined | VNull => VString (generatedId now this)
  | key => key
  end.

(** The store invariant: every record is stored under its own key-field
    value, and no two stored records have the same key-field value. *)
Definition stored_under_own_key (this : DataStore.t) : Prop :=
  ∀ key r, In (key, r) (DataStore.map this) →
           get_field r (DataStore.keyName this) = key.

Definition no_shared_key (this : DataStore.t) : Prop :=
  List.NoDup (List.map (λ r, get_field r (DataStore.keyName this))
                       (JsMap.values (DataStore.map this))).

Definition invariant (this : DataStore.t) : Prop :=
  stored_under_own_key this ∧ no_shared_key this.

(** A call that respects [Update<T, K>]: the patch of an [update] has no
    property named by the key field. *)
Definition typed_call (keyName : string) {A : Type} (c : call A) : Prop :=
  match c with
  | Update _ patch => patch !! keyName = None
  | _ => True
  end.

(** A function whose every call on the view respects it, whatever the calls
    complete with. *)
Fixpoint typed (keyName : string) {R : Type} (fn : txn R) : Prop :=
  match fn with
  | Return _ | Throw _ => True
  | Call c k => typed_call keyName c ∧ ∀ completion, typed keyName (k completion)
  end.

Section OnStore.
Context {engine : Engine}.

(** The method of the store itself that a call on the view names. *)
Definition method {A : Type} (c : call A) : DataStore.M A :=
  match c in call A return DataStore.M A with
  | Create now item => DataStore.create now item
  | Get key => DataStore.get key
  | Update key patch => DataStore.update key patch
  | Delete key => DataStore.delete key
  | List options => DataStore.list options
  | Query filter options => DataStore.query filter options
  end.

(** The calls of a function made on the store itself, one after the other,
    with no view and no transaction around them. *)
Fixpoint on_store {R : Type} (fn : txn R) : DataStore.M R :=
  match fn with
  | Return res => mret res
  | Throw err => DataStore.throw err
  | Call c k => fun this =>
      let (completion, this') := method c this in
      on_store (k completion) this'
  end.
End OnStore.

(** The function that makes one call on the view and hands on what it
    returns or throws: [(view) => view.update(key, patch)], say. *)
Definition once {A : Type} (c : call A) : txn A :=
  Call c (λ completion,
            match completion with
            | Returned r => Return r
            | Thrown err => Throw err
            end).

Section Reachable.
Context {engine : Engine}.

(** One public operation, taking the store from [this] to the store it
    leaves behind. *)
Inductive step (this : DataStore.t) : DataStore.t → Prop :=
  | step_create now item :
      step this (snd (DataStore.create now item this))
  | step_get key :
      step this (snd (DataStore.get key this))
  | step_update key patch :
      patch !! DataStore.keyName this = None →
      step this (snd (DataStore.update key patch this))
  | step_delete key :
      step this (snd (DataStore.delete key this))
  | step_list options :
      step this (snd (DataStore.list options this))
  | step_query filter options :
      step this (snd (DataStore.query filter options this))
  | step_transaction (R : Type) (fn : txn R) :
      typed (DataStore.keyName this) fn →
      step this (snd (DataStore.transaction fn this))
  | step_clear :
      step this (snd (DataStore.clear this)).

(** The stores a client can get to from a new store. *)
Inductive reachable : DataStore.t → Prop :=
  | reachable_new keyName : reachable (DataStore.new keyName)
  | reachable_step this this' :
      reachable this → step this this' → reachable this'.
End Reachable.

(** The values [sort] has to compare are no symbols (comparing a symbol
    throws). *)
Definition sortable (options : option QueryOptions) (arr : list record) : Prop :=
  ∀ field, options ≫= sortBy = Some field →
  ∀ r, In r arr → ∀ id, get_field r field ≠ VSymbol id.

(** The integer in the sort field of a record, and the order [list] and
    [query] are asked for on such numbers: ascending, or descending for
    [sortDir: 'desc']. *)
Definition numeric_key (field : string) (r : record) : Z :=
  match get_field r field with
  | VNumber (Num z) => z
  | _ => 0
  end.

Definition in_order (options : option QueryOptions) (field : string)
    (a b : record) : Prop :=
  match options ≫= sortDir with
  | Some desc => numeric_key field b ≤ numeric_key field a
  | _ => numeric_key field a ≤ numeric_key field b
  end.

(** The operators of [ff] that the date branch reads ([eq], [before],
    [after] and [between]) hold dates, where they are given. *)
Definition date_or_absent (operand : value) : bool :=
  match operand with
  | VUndefined | VDate _ _ => true
  | _ => false
  end.

Definition date_ready (ff : FieldFilter.t) : bool :=
  date_or_absent (FieldFilter.eq ff) &&
  date_or_absent (FieldFilter.before ff) &&
  date_or_absent (FieldFilter.after ff) &&
  match FieldFilter.between ff with
  | Some (NumberBounds _ _) => false
  | _ => true
  end.

Definition entry_fits (item : record) (entry : string * option FieldFilter.t) : bool :=
  match entry with
  | (k, Some ff) =>
      match get_field item k with
      | VDate _ _ => date_ready ff
      | _ => true
      end
  | (_, None) => true
  end.

(** [filter] never meets a date field of [item] with an operand that is not
    a date, at any depth. *)
Fixpoint fits (item : record) (filter : Filter) : bool :=
  match filter with
  | mkFilter and_ or_ fields =>
      match and_ with Some fs => forallb (fits item) fs | None => true end
      && match or_ with Some fs => forallb (fits item) fs | None => true end
      && forallb (entry_fits item) fields
  end.

Definition fits_all (filter : option Filter) (arr : list record) : Prop :=
  ∀ f, filter = Some f → ∀ r, In r arr → fits r f = true.

(** [sortable] and [fits_all] as checks that compute. *)
Definition sortableb (options : option QueryOptions) (arr : list record) : bool :=
  match options ≫= sortBy with
  | Some field =>
      forallb (λ r, match get_field r field with
                    | VSymbol _ => false
                    | _ => true
                    end) arr
  | None => true
  end.

Definition fits_allb (filter : option Filter) (arr : list record) : bool :=
  match filter with
  | Some f => forallb (λ r, fits r f) arr
  | None => true
  end.

(** The invariant as it is proved: the keys of the map are all different,
    and every record is stored under its own key-field value. *)
Definition well_formed (this : DataStore.t) : Prop :=
  stored_under_own_key this ∧ List.NoDup (JsMap.keys (DataStore.map this)).

(** ** Sample data, from the repository's tests *)

(** An engine for the runs below.  It reads the unsigned decimal integers
    and takes any other string for [NaN] (the runs convert no string at all),
    and it sorts by [stable_sort] (the runs that return sort with a
    consistent comparison function, for which every engine gives the same
    result). *)
Fixpoint parse_digits (s : string) (acc : Z) : number :=
  match s with
  | EmptyString => Num acc
  | String c rest =>
      let code := Z.of_N (N_of_ascii c) in
      if (48 <=? code) && (code <=? 57)
      then parse_digits rest (10 * acc + (code - 48))
      else NaN
  end.

Definition decimal_engine : Engine.
Proof.
  assert (∀ (A : Type) (comparefn : A → A → outcome Z) arr result,
            stable_sort comparefn arr = Returned result →
            Permutation arr result) as Hpermutes.
  { intros A comparefn.
    assert (∀ x sorted result,
              sort_insert comparefn x sorted = Returned result →
              Permutation (x :: sorted) result) as Hinsert.
    { intros x sorted. induction sorted as [|y rest IH]; simpl; intros result.
      - by intros [= <-].
      - destruct (comparefn x y) as [c|]; cbn; [|done].
        destruct (c <=? 0); [by intros [= <-]|].
        destruct (sort_insert comparefn x rest) as [rest'|]; cbn; [|done].
        intros [= <-]. rewrite Permutation_swap. by rewrite (IH rest'). }
    intros arr. induction arr as [|x rest IH]; simpl; intros result.
    - by intros [= <-].
    - destruct (stable_sort comparefn rest) as [sorted|]; cbn; [|done].
      intros Hi%Hinsert. by rewrite (IH sorted). }
  refine {| StringToNumber := λ s, parse_digits s 0;
            Array_sort := @stable_sort;
            Array_sort_permutes := Hpermutes |}.
  - intros A comparefn arr err.
    assert (∀ x sorted,
              sort_insert comparefn x sorted = Thrown err →
              ∃ b, In b sorted ∧ comparefn x b = Thrown err) as Hinsert.
    { intros x sorted. induction sorted as [|y rest IH]; simpl; [done|].
      destruct (comparefn x y) as [c|err'] eqn:Hc; cbn.
      - destruct (c <=? 0); [done|].
        destruct (sort_insert comparefn x rest) as [rest'|err'']; cbn; [done|].
        intros [= ->]. destruct IH as (b & Hb & Hthrown); [done|]. eauto.
      - intros [= ->]. eauto. }
    induction arr as [|x rest IH]; simpl; [done|].
    destruct (stable_sort comparefn rest) as [sorted|err'] eqn:Hs; cbn.
    + intros (b & Hb & Hthrown)%Hinsert. exists x, b.
      split; [by left|]. split; [|done]. right.
      apply Hpermutes in Hs. by apply (Permutation_in _ (Permutation_sym Hs)).
    + intros [= ->]. destruct IH as (a & b & Ha & Hb & Hthrown); [done|].
      exists a, b. auto.
  - done.
Defined.

(** The moment every sample call is made at, and the [Date] the tests share. *)
Definition t0 : Z := 1700000000000.
Definition now_date : value := VDate 1 (Num t0).

(** [tests/filtering.test.ts]: Alice, Bob and Charlie. *)
Definition person (name : string) (age : Z) (city : string) : record :=
  {[ "name" := VString name; "age" := VNumber (Num age);
     "city" := VString city; "createdAt" := now_date ]}.

Definition alice : record := person "Alice" 25 "Paris".
Definition bob : record := person "Bob" 35 "London".
Definition charlie : record := person "Charlie" 45 "Paris".

Definition people : DataStore.t :=
  snd (DataStore.create t0 charlie
    (snd (DataStore.create t0 bob
      (snd (DataStore.create t0 alice (DataStore.new "id")))))).

(** The records as the store of the tests keeps them, with generated keys. *)
Definition stored_alice : record := <["id" := VString "id_loyw3v28_1"]> alice.
Definition stored_bob : record := <["id" := VString "id_loyw3v28_2"]> bob.
Definition stored_charlie : record := <["id" := VString "id_loyw3v28_3"]> charlie.

(** [{ between: [low, high] }], [{ eq: v }], [{ contains: sub }] and
    [{ gt: n }]. *)
Definition between_only (low high : number) : FieldFilter.t :=
  {| FieldFilter.eq := VUndefined; FieldFilter.contains := None;
     FieldFilter.startsWith := None; FieldFilter.endsWith := None;
     FieldFilter.lt := None; FieldFilter.lte := None;
     FieldFilter.gt := None; FieldFilter.gte := None;
     FieldFilter.between := Some (NumberBounds low high);
     FieldFilter.before := VUndefined; FieldFilter.after := VUndefined |}.

Definition eq_only (v : value) : FieldFilter.t :=
  {| FieldFilter.eq := v; FieldFilter.contains := None;
     FieldFilter.startsWith := None; FieldFilter.endsWith := None;
     FieldFilter.lt := None; FieldFilter.lte := None;
     FieldFilter.gt := None; FieldFilter.gte := None;
     FieldFilter.between := None;
     FieldFilter.before := VUndefined; FieldFilter.after := VUndefined |}.

Definition contains_only (sub : string) : FieldFilter.t :=
  {| FieldFilter.eq := VUndefined; FieldFilter.contains := Some sub;
     FieldFilter.startsWith := None; FieldFilter.endsWith := None;
     FieldFilter.lt := None; FieldFilter.lte := None;
     FieldFilter.gt := None; FieldFilter.gte := None;
     FieldFilter.between := None;
     FieldFilter.before := VUndefined; FieldFilter.after := VUndefined |}.

Definition gt_only (n : number) : FieldFilter.t :=
  {| FieldFilter.eq := VUndefined; FieldFilter.contains := None;
     FieldFilter.startsWith := None; FieldFilter.endsWith := None;
     FieldFilter.lt := None; FieldFilter.lte := None;
     FieldFilter.gt := Some n; FieldFilter.gte := None;
     FieldFilter.between := None;
     FieldFilter.before := VUndefined; FieldFilter.after := VUndefined |}.

(** [{ before: v }]. *)
Definition before_only (v : value) : FieldFilter.t :=
  {| FieldFilter.eq := VUndefined; FieldFilter.contains := None;
     FieldFilter.startsWith := None; FieldFilter.endsWith := None;
     FieldFilter.lt := None; FieldFilter.lte := None;
     FieldFilter.gt := None; FieldFilter.gte := None;
     FieldFilter.between := None;
     FieldFilter.before := v; FieldFilter.after := VUndefined |}.

(** [{ [field]: ff }]. *)
Definition on_field (field : string) (ff : FieldFilter.t) : Filter :=
  mkFilter None None [(field, Some ff)].

(** [{ [field]: { between: [low, high] } }]. *)
Definition between_filter (field : string) (low high : number) : Filter :=
  on_field field (between_only low high).

(** [{ [field]: { eq: v } }]. *)
Definition eq_filter (field : string) (v : value) : Filter :=
  on_field field (eq_only v).

(** [{ $or: [{ city: { eq: 'London' } }, { age: { gt: 40 } }] }]. *)
Definition london_or_over_40 : Filter :=
  mkFilter None
    (Some [on_field "city" (eq_only (VString "London"));
           on_field "age" (gt_only (Num 40))])
    [].

(** [tests/datastore.test.ts]: a store holding [t1], and a transaction that
    creates [t2] and then throws. *)
Definition product (name : string) (price : Z) : record :=
  {[ "name" := VString name; "price" := VNumber (Num price);
     "createdAt" := now_date ]}.

Definition products : DataStore.t :=
  snd (DataStore.create t0 (product "t1" 10) (DataStore.new "id")).

Definition boom : error := UserError (VString "boom").

Definition create_t2_then_throw : txn unit :=
  Call (Create t0 (<["id" := VString "t2"]> (product "t2" 20)))
       (λ _, Throw boom).

(** The same with a record that has no key. *)
Definition create_t3_then_throw : txn unit :=
  Call (Create t0 (product "t3" 30)) (λ _, Throw boom).

(** [tests/datastore.test.ts]: the calls of the lifecycle test, and the three
    priced products of the number-range test. *)
Definition book : record :=
  {[ "name" := VString "book"; "price" := VNumber (Num 20);
     "createdAt" := now_date ]}.

Definition book_key : value := VString "id_loyw3v28_1".

(** A function that creates [t2] and a record without a key, raises the
    price of [t1], deletes [t2] again and returns what [delete] returns. *)
Definition restock : txn bool :=
  Call (Create t0 (<["id" := VString "t2"]> (product "t2" 20))) (λ _,
  Call (Create t0 (product "t3" 30)) (λ _,
  Call (Update book_key {[ "price" := VNumber (Num 25) ]}) (λ _,
  Call (Delete (VString "t2")) (λ completion,
    match completion with
    | Returned existed => Return existed
    | Thrown err => Throw err
    end)))).

Definition lifecycle : DataStore.M (list (option record) * bool) :=
  p ← DataStore.create t0 book;
  fetched ← DataStore.get (get_field p "id");
  updated ← DataStore.update (get_field p "id") {[ "price" := VNumber (Num 25) ]};
  deleted ← DataStore.delete (get_field p "id");
  gone ← DataStore.get (get_field p "id");
  mret ([Some p; fetched; Some updated; gone], deleted).

Definition priced (name : string) (price : Z) : record :=
  {[ "name" := VString name; "price" := VNumber (Num price) ]}.

Definition price_list : DataStore.t :=
  snd (DataStore.create t0 (priced "exp" 999)
    (snd (DataStore.create t0 (priced "mid" 50)
      (snd (DataStore.create t0 (priced "cheap" 5) (DataStore.new "id")))))).

(** A store whose keys are symbols. *)
Definition symbols : DataStore.t :=
  snd (DataStore.create t0 {[ "id" := VSymbol 2 ]}
    (snd (DataStore.create t0 {[ "id" := VSymbol 1 ]} (DataStore.new "id")))).

(** Query options with one page of the same ordering as [options]. *)
Definition page (options : option QueryOptions) (start size : Z)
    : option QueryOptions :=
  Some {| limit := Some (Num size); offset := Some (Num start);
          sortBy := options ≫= sortBy; sortDir := options ≫= sortDir |}.

Definition options_limit (n : Z) : option QueryOptions :=
  Some {| limit := Some (Num n); offset := None; sortBy := None; sortDir := None |}.

Definition options_sortBy (field : string) : option QueryOptions :=
  Some {| limit := None; offset := None; sortBy := Some field; sortDir := None |}.

(** ** What the further properties speak about *)

(** The seeds a store gets to: from 1, by [n++], which stops at [2 ^ 53]. *)
Definition seed_in_range (this : DataStore.t) : Prop :=
  0 < DataStore.autoIdSeed this ≤ 2 ^ 53.

(** From [this] to [this'] the store keeps the name of its key field, does
    not lower [autoIdSeed] (nor take it beyond [2 ^ 53]), and only adds to
    what the logger has received. *)
Definition grows (this this' : DataStore.t) : Prop :=
  DataStore.keyName this' = DataStore.keyName this ∧
  DataStore.autoIdSeed this ≤ DataStore.autoIdSeed this' ≤ 2 ^ 53 ∧
  ∃ events, DataStore.logger this' = (DataStore.logger this ++ events)%list.

(** Whether [create] has to generate the key of a candidate. *)
Definition keyless (keyName : string) (item : record) : bool :=
  match get_field item keyName with
  | VUndefined | VNull => true
  | _ => false
  end.


(** Reading back what [Number_toString] writes: the value of a digit, and
    of a string of digits after the value [acc] of the digits before it. *)
Definition digit_value (c : ascii) : N :=
  let code := N_of_ascii c in
  if (code <? 58)%N then code - 48 else code - 87.

Fixpoint read_digits (radix : N) (s : string) (acc : N) : N :=
  match s with
  | EmptyString => acc
  | String c rest => read_digits radix rest (acc * radix + digit_value c)
  end.

(** No character of [s] is an underscore. *)
Fixpoint no_underscore (s : string) : Prop :=
  match s with
  | EmptyString => True
  | String c rest => c ≠ "_"%char ∧ no_underscore rest
  end.


(** The identifier [generateId] makes of a reading of the clock and a seed. *)
Definition formatId (now seed : Z) : string :=
  "id_" +:+ Number_toString 36 now +:+ "_" +:+ Number_toString 10 seed.

(** Every key of the store was generated by it, from a seed it has used
    up; once the seed has come to [2 ^ 53], where it stays, from any seed. *)
Definition generated_keys (this : DataStore.t) : Prop :=
  seed_in_range this ∧
  ∀ key, In key (JsMap.keys (DataStore.map this)) →
         ∃ now seed, 0 < seed ∧
                     (seed < DataStore.autoIdSeed this ∨
                      DataStore.autoIdSeed this = 2 ^ 53) ∧
                     key = VString (formatId now seed).

(** A call, and a function given to [transaction], that leave the key of
    every record they create to the store. *)
Definition keyless_call (keyName : string) {A : Type} (c : call A) : Prop :=
  match c with
  | Create _ item => keyless keyName item = true
  | _ => True
  end.

Fixpoint keyless_txn (keyName : string) {R : Type} (fn : txn R) : Prop :=
  match fn with
  | Return _ | Throw _ => True
  | Call c k => keyless_call keyName c ∧ ∀ completion, keyless_txn keyName (k completion)
  end.

Section KeylessReachable.
Context {engine : Engine}.

(** The public operations, with any patch and any filter, where every
    [create] leaves the key to the store. *)
Inductive keyless_step (this : DataStore.t) : DataStore.t → Prop :=
  | keyless_create now item :
      keyless (DataStore.keyName this) item = true →
      keyless_step this (snd (DataStore.create now item this))
  | keyless_get key :
      keyless_step this (snd (DataStore.get key this))
  | keyless_update key patch :
      keyless_step this (snd (DataStore.update key patch this))
  | keyless_delete key :
      keyless_step this (snd (DataStore.delete key this))
  | keyless_list options :
      keyless_step this (snd (DataStore.list options this))
  | keyless_query filter options :
      keyless_step this (snd (DataStore.query filter options this))
  | keyless_transaction (R : Type) (fn : txn R) :
      keyless_txn (DataStore.keyName this) fn →
      keyless_step this (snd (DataStore.transaction fn this))
  | keyless_clear :
      keyless_step this (snd (DataStore.clear this)).

Inductive keyless_reachable : DataStore.t → Prop :=
  | keyless_new keyName : keyless_reachable (DataStore.new keyName)
  | keyless_next this this' :
      keyless_reachable this → keyless_step this this' → keyless_reachable this'.
End KeylessReachable.


(** The plain reading of a filter: every member of [$and], some member of
    [$or], and every field entry, where an entry holds when its checks
    return [true]. *)
Definition entry_holds (item : record)
    (entry : string * option FieldFilter.t) : bool :=
  match entry with
  | (k, Some ff) =>
      match DataStore.checkField (get_field item k) ff with
      | Returned b => b
      | Thrown _ => false
      end
  | (_, None) => true
  end.

Fixpoint holds (item : record) (filter : Filter) : bool :=
  match filter with
  | mkFilter and_ or_ fields =>
      match and_ with Some fs => forallb (holds item) fs | None => true end
      && match or_ with Some fs => existsb (holds item) fs | None => true end
      && forallb (entry_holds item) fields
  end.

Definition holds_for (filter : option Filter) (item : record) : bool :=
  match filter with
  | Some f => holds item f
  | None => true
  end.

(** The store with the records that [keep] keeps, in their order. *)
Definition restrict (keep : record → bool) (this : DataStore.t) : DataStore.t :=
  {| DataStore.map := List.filter (λ e, keep (snd e)) (DataStore.map this);
     DataStore.logger := DataStore.logger this;
     DataStore.autoIdSeed := DataStore.autoIdSeed this;
     DataStore.keyName := DataStore.keyName this |}.


(** The kinds of value on which a field entry checks [eq] only. *)
Definition only_eq_applies (v : value) : bool :=
  match v with
  | VString _ | VNumber _ | VDate _ _ => false
  | _ => true
  end.

(** Two values that are the same but for which [Date] object holds the
    time, and two records whose properties are. *)
Definition same_instant (v v' : value) : Prop :=
  match v, v' with
  | VDate _ t, VDate _ t' => t = t'
  | _, _ => v = v'
  end.

Definition same_instants (a b : record) : Prop :=
  ∀ name, same_instant (get_field a name) (get_field b name).

(** [{ gte: low, lte: high }] and [{ gte: n }]. *)
Definition range_only (low high : number) : FieldFilter.t :=
  {| FieldFilter.eq := VUndefined; FieldFilter.contains := None;
     FieldFilter.startsWith := None; FieldFilter.endsWith := None;
     FieldFilter.lt := None; FieldFilter.lte := Some high;
     FieldFilter.gt := None; FieldFilter.gte := Some low;
     FieldFilter.between := None;
     FieldFilter.before := VUndefined; FieldFilter.after := VUndefined |}.

Definition gte_only (n : number) : FieldFilter.t :=
  {| FieldFilter.eq := VUndefined; FieldFilter.contains := None;
     FieldFilter.startsWith := None; FieldFilter.endsWith := None;
     FieldFilter.lt := None; FieldFilter.lte := None;
     FieldFilter.gt := None; FieldFilter.gte := Some n;
     FieldFilter.between := None;
     FieldFilter.before := VUndefined; FieldFilter.after := VUndefined |}.

(** [{ startsWith: sub }] and [{ endsWith: sub }]. *)
Definition startsWith_only (sub : string) : FieldFilter.t :=
  {| FieldFilter.eq := VUndefined; FieldFilter.contains := None;
     FieldFilter.startsWith := Some sub; FieldFilter.endsWith := None;
     FieldFilter.lt := None; FieldFilter.lte := None;
     FieldFilter.gt := None; FieldFilter.gte := None;
     FieldFilter.between := None;
     FieldFilter.before := VUndefined; FieldFilter.after := VUndefined |}.

Definition endsWith_only (sub : string) : FieldFilter.t :=
  {| FieldFilter.eq := VUndefined; FieldFilter.contains := None;
     FieldFilter.startsWith := None; FieldFilter.endsWith := Some sub;
     FieldFilter.lt := None; FieldFilter.lte := None;
     FieldFilter.gt := None; FieldFilter.gte := None;
     FieldFilter.between := None;
     FieldFilter.before := VUndefined; FieldFilter.after := VUndefined |}.

(** [examples/demo.ts]: Alice and Bob, neither with an age. *)
Definition user (name email : string) (createdAt : value) : record :=
  {[ "name" := VString name; "email" := VString email; "createdAt" := createdAt ]}.

Definition users : DataStore.t :=
  snd (DataStore.create t0
         (<["id" := VString "bob-id"]> (user "Bob" "b@x.com" (VDate 2 (Num t0))))
    (snd (DataStore.create t0 (user "Alice" "a@x.com" (VDate 1 (Num t0)))
            (DataStore.new "id")))).


(** [tests/datastore.test.ts]: the record [t2] with its key, a fourth
    person, and Alice read from another [Date] object of the same time. *)
Definition t2 : record := <["id" := VString "t2"]> (product "t2" 20).

Definition dora : record := person "Dora" 30 "Rome".

(** A store whose seed has come to [2 ^ 53]. *)
Definition worn : DataStore.t :=
  {| DataStore.map := []; DataStore.logger := [];
     DataStore.autoIdSeed := 2 ^ 53; DataStore.keyName := "id" |}.

Definition alice_again : record := <["createdAt" := VDate 2 (Num t0)]> alice.

(** * Proofs *)

(** ** Numbers *)

Lemma number_compare_Num x y : number_compare (Num x) (Num y) = Some (x ?= y).
Proof. unfold number_compare. cbn. by rewrite !Z.mul_1_r. Qed.

Lemma number_eqb_Num x y : number_eqb (Num x) (Num y) = (x =? y).
Proof.
  unfold number_eqb. rewrite number_compare_Num.
  destruct (Z.compare_spec x y), (Z.eqb_spec x y); done || lia.
Qed.

Lemma number_ltb_Num x y : number_ltb (Num x) (Num y) = (x <? y).
Proof.
  unfold number_ltb. rewrite number_compare_Num.
  destruct (Z.compare_spec x y), (Z.ltb_spec x y); done || lia.
Qed.

Lemma number_leb_Num x y : number_leb (Num x) (Num y) = (x <=? y).
Proof.
  unfold number_leb. rewrite number_compare_Num.
  destruct (Z.compare_spec x y), (Z.leb_spec x y); done || lia.
Qed.

(** An integer of at most 53 binary digits is a double. *)
Lemma round_integer z : Z.abs z ≤ 2 ^ 53 → round z 0 = Num z.
Proof.
  intros Hz. destruct (decide (Z.abs z = 2 ^ 53)) as [Hmax|Hless].
  { assert (z = 2 ^ 53 ∨ z = - 2 ^ 53) as [-> | ->] by lia; reflexivity. }
  assert (Z.log2 (Z.abs z) ≤ 52) as Hlog.
  { destruct (decide (Z.abs z = 0)) as [->|Hpos]; [done|].
    assert (Z.log2 (Z.abs z) < 53); [|lia]. apply Z.log2_lt_pow2; lia. }
  unfold round. cbv zeta.
  replace (Z.max 0 (Z.max (0 + Z.log2 (Z.abs z) - 52) (-1074))) with 0 by lia.
  change (0 - 0) with 0. change (2 ^ 0) with 1.
  rewrite Z.div_1_r, Z.mod_1_r, Z.mul_1_r.
  change ((1 <? 2 * 0) || (2 * 0 =? 1) && Z.odd (Z.abs z)) with false.
  cbv iota.
  destruct (Z.leb_spec (2 ^ 1024) (Z.abs z)) as [Hbig|_].
  { assert (2 ^ 53 < 2 ^ 1024) by (apply Z.pow_lt_mono_r; lia). lia. }
  unfold of_dyadic. cbn [Z.leb Z.compare]. change (2 ^ 0) with 1.
  f_equal. destruct z; cbn [Z.sgn Z.abs]; lia.
Qed.

(** Beyond that the nearest double is as far from zero, at the least. *)
Lemma round_beyond z :
  2 ^ 53 ≤ Z.abs z →
  round z 0 = Infinity (z <? 0) ∨
  ∃ r, round z 0 = Num (Z.sgn z * r) ∧ 2 ^ 53 ≤ r.
Proof.
  intros Hz. set (n := Z.abs z) in *.
  assert (53 ≤ Z.log2 n) as Hlog by (apply Z.log2_le_pow2; lia).
  unfold round. cbv zeta. fold n.
  replace (Z.max 0 (Z.max (0 + Z.log2 n - 52) (-1074))) with (Z.log2 n - 52) by lia.
  rewrite Z.sub_0_r. set (shift := Z.log2 n - 52).
  set (q' := if _ || _ then _ else _).
  assert (2 ^ 52 ≤ n / 2 ^ shift) as Hq.
  { apply Z.div_le_lower_bound; [apply Z.pow_pos_nonneg; lia|].
    rewrite <- Z.pow_add_r by lia. replace (shift + 52) with (Z.log2 n) by lia.
    apply Z.log2_spec. lia. }
  assert (n / 2 ^ shift ≤ q') as Hq'.
  { unfold q'. destruct (_ || _); lia. }
  destruct (2 ^ 1024 <=? q' * 2 ^ shift); [by left|]. right.
  unfold of_dyadic. rewrite (proj2 (Z.leb_le 0 shift)) by lia.
  exists (q' * 2 ^ shift). split; [by rewrite Z.mul_assoc|].
  replace (2 ^ 53) with (2 ^ 52 * 2 ^ 1) by done.
  apply Z.mul_le_mono_nonneg; [done|lia|done|].
  apply Z.pow_le_mono_r; lia.
Qed.

(** In an array of at most [2 ^ 53] elements the double nearest to an
    integer is clamped to the index the integer is clamped to. *)
Lemma clamp_round len z :
  0 ≤ len ≤ 2 ^ 53 →
  clamp len (ToIntegerOrInfinity (round z 0)) = clamp len (Finite z).
Proof.
  intros Hlen. destruct (decide (Z.abs z ≤ 2 ^ 53)) as [Hsafe|Hbig].
  { by rewrite round_integer. }
  assert (z < 0 ∧ Z.sgn z = -1 ∨ 0 < z ∧ Z.sgn z = 1) as Hsign
    by (destruct (Z.sgn_spec z) as [[? ->]|[[? ->]|[? ->]]]; lia).
  destruct (round_beyond z) as [-> | (r & -> & Hr)]; [lia| |].
  - destruct Hsign as [[Hz _]|[Hz _]].
    + rewrite (proj2 (Z.ltb_lt z 0)) by done. cbn [clamp ToIntegerOrInfinity].
      rewrite (proj2 (Z.ltb_lt z 0)) by done. lia.
    + rewrite (proj2 (Z.ltb_ge z 0)) by lia. cbn [clamp ToIntegerOrInfinity].
      rewrite (proj2 (Z.ltb_ge z 0)) by lia. lia.
  - cbn [clamp ToIntegerOrInfinity].
    destruct Hsign as [[Hz ->]|[Hz ->]].
    + rewrite (proj2 (Z.ltb_lt (-1 * r) 0)), (proj2 (Z.ltb_lt z 0)) by lia. lia.
    + rewrite (proj2 (Z.ltb_ge (1 * r) 0)), (proj2 (Z.ltb_ge z 0)) by lia. lia.
Qed.

(** [n++]. *)
Lemma increment_below n : 0 ≤ n < 2 ^ 53 → DataStore.increment n = n + 1.
Proof.
  intros Hn. unfold DataStore.increment. rewrite round_integer; [done|lia].
Qed.

Lemma increment_stuck : DataStore.increment (2 ^ 53) = 2 ^ 53.
Proof. reflexivity. Qed.


(** ** [Map] *)

Lemma SameValueZero_true x y : SameValueZero x y = true ↔ x = y.
Proof. unfold SameValueZero. apply bool_decide_eq_true. Qed.

Lemma SameValueZero_refl x : SameValueZero x x = true.
Proof. by apply SameValueZero_true. Qed.

Lemma SameValueZero_ne x y : x ≠ y → SameValueZero x y = false.
Proof. unfold SameValueZero. apply bool_decide_eq_false_2. Qed.

Lemma JsMap_has_get key m : JsMap.has key m = true ↔ is_Some (JsMap.get key m).
Proof.
  unfold JsMap.has. destruct (JsMap.get key m); split; intros Hx; eauto; try done.
Qed.

Lemma JsMap_has_false key m : JsMap.has key m = false ↔ JsMap.get key m = None.
Proof. unfold JsMap.has. by destruct (JsMap.get key m). Qed.

Lemma JsMap_get_In key r m : JsMap.get key m = Some r → In (key, r) m.
Proof.
  induction m as [|[k v] m IH]; simpl; [done|].
  destruct (SameValueZero k key) eqn:E.
  - apply SameValueZero_true in E as ->. intros [= ->]. by left.
  - intros Hg. right. by apply IH.
Qed.

Lemma JsMap_get_None key m : JsMap.get key m = None ↔ ¬ In key (JsMap.keys m).
Proof.
  induction m as [|[k v] m IH]; simpl; [tauto|].
  destruct (SameValueZero k key) eqn:E.
  - apply SameValueZero_true in E. split; [done|]. intros Hn. destruct Hn. by left.
  - rewrite IH. split; [|tauto]. intros Hn [->|Hi]; [|done].
    by rewrite SameValueZero_refl in E.
Qed.

Lemma JsMap_In_get key r m :
  List.NoDup (JsMap.keys m) → In (key, r) m → JsMap.get key m = Some r.
Proof.
  induction m as [|[k v] m IH]; simpl; [done|].
  intros Hnd%List.NoDup_cons_iff [[= -> ->]|Hi].
  - by rewrite SameValueZero_refl.
  - destruct Hnd as [Hk Hnd]. rewrite SameValueZero_ne; [by apply IH|].
    intros ->. apply Hk. apply (in_map fst) in Hi. exact Hi.
Qed.

Lemma JsMap_get_set_eq key v m : JsMap.get key (JsMap.set key v m) = Some v.
Proof.
  induction m as [|[k v'] m IH]; simpl.
  - by rewrite SameValueZero_refl.
  - destruct (SameValueZero k key) eqn:E; simpl; by rewrite E.
Qed.

Lemma JsMap_get_set_ne key key' v m :
  key ≠ key' → JsMap.get key' (JsMap.set key v m) = JsMap.get key' m.
Proof.
  intros Hne. induction m as [|[k v'] m IH]; simpl.
  - by rewrite SameValueZero_ne.
  - destruct (SameValueZero k key) eqn:E; simpl.
    + apply SameValueZero_true in E as ->. by rewrite !SameValueZero_ne.
    + by rewrite IH.
Qed.

(** Setting a key that is there replaces its record in place. *)
Lemma JsMap_set_present key v m :
  JsMap.has key m = true →
  JsMap.keys (JsMap.set key v m) = JsMap.keys m ∧
  length (JsMap.set key v m) = length m.
Proof.
  unfold JsMap.has, JsMap.keys.
  induction m as [|[k v'] m IH]; simpl; [done|].
  destruct (SameValueZero k key) eqn:E; simpl; [done|].
  intros Hh. destruct (IH Hh) as [IH1 IH2]. by rewrite IH1, IH2.
Qed.

(** Setting a key that is not there appends the entry. *)
Lemma JsMap_set_absent key v m :
  JsMap.has key m = false → JsMap.set key v m = m ++ [(key, v)].
Proof.
  induction m as [|[k v'] m IH]; simpl; [done|].
  unfold JsMap.has. simpl. destruct (SameValueZero k key) eqn:E; simpl; [done|].
  intros Hh. by rewrite IH.
Qed.

Lemma JsMap_In_set key v m e :
  In e (JsMap.set key v m) → e = (key, v) ∨ In e m.
Proof.
  induction m as [|[k v'] m IH]; simpl.
  - intros [<-|[]]. by left.
  - destruct (SameValueZero k key) eqn:E; simpl.
    + apply SameValueZero_true in E as ->. intros [<-|Hi]; [by left|right; by right].
    + intros [<-|Hi]; [right; by left|]. destruct (IH Hi); [by left|right; by right].
Qed.

Lemma JsMap_keys_set key v m :
  JsMap.keys (JsMap.set key v m) =
  if JsMap.has key m then JsMap.keys m else JsMap.keys m ++ [key].
Proof.
  destruct (JsMap.has key m) eqn:E.
  - by apply JsMap_set_present.
  - rewrite JsMap_set_absent by done. unfold JsMap.keys. by rewrite map_app.
Qed.

Lemma JsMap_NoDup_set key v m :
  List.NoDup (JsMap.keys m) → List.NoDup (JsMap.keys (JsMap.set key v m)).
Proof.
  intros Hnd. rewrite JsMap_keys_set. destruct (JsMap.has key m) eqn:E; [done|].
  apply JsMap_has_false, JsMap_get_None in E.
  apply List.NoDup_app; [done| |].
  - constructor; [simpl; tauto|constructor].
  - intros x Hx [->|[]]. done.
Qed.

Lemma JsMap_keys_delete key m :
  JsMap.keys (snd (JsMap.delete key m)) =
  List.filter (λ k, negb (SameValueZero k key)) (JsMap.keys m).
Proof.
  unfold JsMap.delete, JsMap.keys. simpl.
  induction m as [|[k v] m IH]; simpl; [done|].
  destruct (SameValueZero k key); simpl; by rewrite IH.
Qed.

Lemma JsMap_NoDup_delete key m :
  List.NoDup (JsMap.keys m) → List.NoDup (JsMap.keys (snd (JsMap.delete key m))).
Proof. intros Hnd. rewrite JsMap_keys_delete. by apply List.NoDup_filter. Qed.

Lemma JsMap_In_delete key m e :
  In e (snd (JsMap.delete key m)) → In e m.
Proof. unfold JsMap.delete. simpl. rewrite filter_In. tauto. Qed.

Lemma JsMap_get_delete_eq key m : JsMap.get key (snd (JsMap.delete key m)) = None.
Proof.
  apply JsMap_get_None. rewrite JsMap_keys_delete, filter_In.
  rewrite SameValueZero_refl. simpl. intros [_ [=]].
Qed.

Lemma JsMap_get_delete_ne key key' m :
  key ≠ key' → JsMap.get key' (snd (JsMap.delete key m)) = JsMap.get key' m.
Proof.
  intros Hne. unfold JsMap.delete. simpl.
  induction m as [|[k v] m IH]; simpl; [done|].
  destruct (SameValueZero k key) eqn:E; simpl.
  - apply SameValueZero_true in E as ->. by rewrite SameValueZero_ne.
  - by rewrite IH.
Qed.

(** ** The methods, as plain functions of the store *)

Ltac unfold_store :=
  unfold DataStore.TransactionalProxy.invoke,
    DataStore.TransactionalProxy.create, DataStore.TransactionalProxy.get,
    DataStore.TransactionalProxy.update, DataStore.TransactionalProxy.delete,
    DataStore.TransactionalProxy.list, DataStore.TransactionalProxy.query,
    DataStore.create, DataStore.get, DataStore.update, DataStore.delete,
    DataStore.list, DataStore.query, DataStore.clear, DataStore.generateId,
    DataStore.set_map, DataStore.log, DataStore.throw, DataStore.lift,
    DataStore.this_, mbind, mret, DataStore.M_bind, DataStore.M_ret;
  cbn [fst snd DataStore.map DataStore.logger DataStore.autoIdSeed DataStore.keyName].

Lemma create_duplicate now item this :
  JsMap.has (resolvedKey now item this) (DataStore.map this) = true →
  fst (DataStore.create now item this)
    = Thrown (DuplicateKey (resolvedKey now item this)) ∧
  DataStore.map (snd (DataStore.create now item this)) = DataStore.map this ∧
  DataStore.keyName (snd (DataStore.create now item this)) = DataStore.keyName this.
Proof.
  unfold resolvedKey, generatedId. unfold_store.
  destruct (get_field item (DataStore.keyName this)); cbn; intros ->; done.
Qed.

Lemma create_fresh now item this :
  JsMap.has (resolvedKey now item this) (DataStore.map this) = false →
  let key := resolvedKey now item this in
  let r : record := <[DataStore.keyName this := key]> item in
  fst (DataStore.create now item this) = Returned r ∧
  DataStore.map (snd (DataStore.create now item this))
    = JsMap.set key r (DataStore.map this) ∧
  DataStore.keyName (snd (DataStore.create now item this)) = DataStore.keyName this.
Proof.
  unfold resolvedKey, generatedId. unfold_store.
  destruct (get_field item (DataStore.keyName this)); cbn; intros ->; done.
Qed.

Lemma get_eq key this :
  fst (DataStore.get key this) = Returned (JsMap.get key (DataStore.map this)) ∧
  DataStore.map (snd (DataStore.get key this)) = DataStore.map this ∧
  DataStore.keyName (snd (DataStore.get key this)) = DataStore.keyName this.
Proof. done. Qed.

Lemma update_missing key patch this :
  JsMap.get key (DataStore.map this) = None →
  DataStore.update key patch this = (Thrown NotFound, this).
Proof. unfold_store. by intros ->. Qed.

Lemma update_found key patch this existing :
  JsMap.get key (DataStore.map this) = Some existing →
  fst (DataStore.update key patch this) = Returned (patch ∪ existing) ∧
  DataStore.map (snd (DataStore.update key patch this))
    = JsMap.set key (patch ∪ existing) (DataStore.map this) ∧
  DataStore.keyName (snd (DataStore.update key patch this)) = DataStore.keyName this.
Proof. unfold_store. by intros ->. Qed.

Lemma delete_eq key this :
  fst (DataStore.delete key this) = Returned (JsMap.has key (DataStore.map this)) ∧
  DataStore.map (snd (DataStore.delete key this))
    = snd (JsMap.delete key (DataStore.map this)) ∧
  DataStore.keyName (snd (DataStore.delete key this)) = DataStore.keyName this.
Proof. done. Qed.

Lemma clear_eq this :
  fst (DataStore.clear this) = Returned () ∧
  DataStore.map (snd (DataStore.clear this)) = [] ∧
  DataStore.keyName (snd (DataStore.clear this)) = DataStore.keyName this.
Proof. done. Qed.

Section ReadOnly.
Context {engine : Engine}.

Lemma list_eq options this :
  DataStore.list options this =
  (DataStore.applySort options (JsMap.values (DataStore.map this))
     ≫= λ arr, Returned (DataStore.applySlice options arr), this).
Proof.
  unfold_store.
  by destruct (DataStore.applySort options (JsMap.values (DataStore.map this))).
Qed.

Lemma query_eq filter options this :
  DataStore.query filter options this =
  (matches ← Array_filter (λ item, DataStore.matchesFilter item filter)
                          (JsMap.values (DataStore.map this));
   result ← DataStore.applySort options matches;
   Returned (DataStore.applySlice options result), this).
Proof.
  unfold_store.
  destruct (Array_filter _ _) as [matches|]; [|done]. cbn.
  by destruct (DataStore.applySort options matches).
Qed.
End ReadOnly.

(** ** The invariant *)

Lemma key_fields_are_keys (m : JsMap.t) keyName :
  (∀ key r, In (key, r) m → get_field r keyName = key) →
  List.map (λ r, get_field r keyName) (JsMap.values m) = JsMap.keys m.
Proof.
  unfold JsMap.values, JsMap.keys.
  induction m as [|[k r] m IH]; simpl; intros Hm; [done|].
  rewrite (Hm k r) by by left. f_equal. apply IH. intros. apply Hm. by right.
Qed.

Lemma invariant_well_formed this : invariant this ↔ well_formed this.
Proof.
  unfold invariant, well_formed, no_shared_key.
  split; intros [Hown Hnd]; (split; [done|]).
  - by rewrite <- (key_fields_are_keys _ (DataStore.keyName this)).
  - by rewrite key_fields_are_keys.
Qed.

(** A store with the same key field whose map is well formed. *)
Lemma well_formed_intro this this' :
  DataStore.keyName this' = DataStore.keyName this →
  (∀ key r, In (key, r) (DataStore.map this') →
            get_field r (DataStore.keyName this) = key) →
  List.NoDup (JsMap.keys (DataStore.map this')) →
  well_formed this'.
Proof. intros Hk Hown Hnd. split; [|done]. intros key r. rewrite Hk. apply Hown. Qed.

Lemma well_formed_new keyName : well_formed (DataStore.new keyName).
Proof. split; [intros ? ? []|constructor]. Qed.

Lemma well_formed_create now item this :
  well_formed this → well_formed (snd (DataStore.create now item this)).
Proof.
  intros [Hown Hnd].
  destruct (JsMap.has (resolvedKey now item this) (DataStore.map this)) eqn:E.
  - destruct (create_duplicate now item this E) as (_ & Hm & Hk).
    apply (well_formed_intro this); rewrite ?Hm; done.
  - destruct (create_fresh now item this E) as (_ & Hm & Hk).
    apply (well_formed_intro this); rewrite ?Hm; [done| |by apply JsMap_NoDup_set].
    intros key r [[= -> ->]|Hi]%JsMap_In_set; [|by apply Hown].
    unfold get_field. by rewrite lookup_insert_eq.
Qed.

Lemma well_formed_update key patch this :
  patch !! DataStore.keyName this = None →
  well_formed this → well_formed (snd (DataStore.update key patch this)).
Proof.
  intros Hp [Hown Hnd].
  destruct (JsMap.get key (DataStore.map this)) as [existing|] eqn:E.
  - destruct (update_found key patch this existing E) as (_ & Hm & Hk).
    apply (well_formed_intro this); rewrite ?Hm; [done| |by apply JsMap_NoDup_set].
    intros key' r [[= -> ->]|Hi]%JsMap_In_set; [|by apply Hown].
    unfold get_field. rewrite lookup_union_r by done.
    apply (Hown key existing). by apply JsMap_get_In.
  - by rewrite update_missing.
Qed.

Lemma well_formed_delete key this :
  well_formed this → well_formed (snd (DataStore.delete key this)).
Proof.
  intros [Hown Hnd]. destruct (delete_eq key this) as (_ & Hm & Hk).
  apply (well_formed_intro this); rewrite ?Hm; [done| |by apply JsMap_NoDup_delete].
  intros key' r Hi%JsMap_In_delete. by apply Hown.
Qed.

Lemma well_formed_clear this : well_formed (snd (DataStore.clear this)).
Proof. split; [intros ? ? []|constructor]. Qed.

Lemma well_formed_get key this :
  well_formed this → well_formed (snd (DataStore.get key this)).
Proof. intros [Hown Hnd]. by apply (well_formed_intro this). Qed.

Section Preservation.
Context {engine : Engine}.

Lemma list_same_store options this : snd (DataStore.list options this) = this.
Proof. by rewrite list_eq. Qed.

Lemma query_same_store filter options this :
  snd (DataStore.query filter options this) = this.
Proof. by rewrite query_eq. Qed.

(** A call on the view keeps the key field's name, and keeps the store
    well formed when it respects the type of patches. *)
Lemma invoke_keyName {A} (c : call A) this :
  DataStore.keyName (snd (DataStore.TransactionalProxy.invoke c this))
  = DataStore.keyName this.
Proof.
  destruct c; cbn [DataStore.TransactionalProxy.invoke].
  - unfold DataStore.TransactionalProxy.create.
    destruct (JsMap.has (resolvedKey now item this) (DataStore.map this)) eqn:E.
    + by destruct (create_duplicate now item this E) as (_ & _ & Hk).
    + by destruct (create_fresh now item this E) as (_ & _ & Hk).
  - done.
  - unfold DataStore.TransactionalProxy.update.
    destruct (JsMap.get key (DataStore.map this)) as [existing|] eqn:E.
    + by destruct (update_found key patch this existing E) as (_ & _ & Hk).
    + by rewrite update_missing.
  - done.
  - unfold DataStore.TransactionalProxy.list. by rewrite list_same_store.
  - unfold DataStore.TransactionalProxy.query. by rewrite query_same_store.
Qed.

Lemma invoke_well_formed {A} (c : call A) this :
  typed_call (DataStore.keyName this) c → well_formed this →
  well_formed (snd (DataStore.TransactionalProxy.invoke c this)).
Proof.
  destruct c; cbn [DataStore.TransactionalProxy.invoke typed_call]; intros Ht Hwf.
  - by apply well_formed_create.
  - by apply well_formed_get.
  - by apply well_formed_update.
  - by apply well_formed_delete.
  - unfold DataStore.TransactionalProxy.list. by rewrite list_same_store.
  - unfold DataStore.TransactionalProxy.query. by rewrite query_same_store.
Qed.

Lemma run_well_formed {R} (fn : txn R) this :
  typed (DataStore.keyName this) fn → well_formed this →
  well_formed (snd (DataStore.run fn this)) ∧
  DataStore.keyName (snd (DataStore.run fn this)) = DataStore.keyName this.
Proof.
  revert this. induction fn as [res|err|A c k IH]; intros this Ht Hwf.
  - done.
  - done.
  - cbn [DataStore.run].
    destruct (DataStore.TransactionalProxy.invoke c this) as [completion this'] eqn:E.
    assert (this' = snd (DataStore.TransactionalProxy.invoke c this)) as Hs
      by by rewrite E.
    destruct Ht as [Hc Hk].
    destruct (IH completion this') as [IH1 IH2].
    + rewrite Hs, invoke_keyName. apply Hk.
    + rewrite Hs. by apply invoke_well_formed.
    + split; [done|]. by rewrite IH2, Hs, invoke_keyName.
Qed.
End Preservation.

(** ** Transactions *)

Section TransactionFacts.
Context {engine : Engine}.

(** A call on the view is the call of the method of the store, and the
    function run on the view is the function run on the store. *)
Lemma invoke_method {A} (c : call A) :
  DataStore.TransactionalProxy.invoke c = method c.
Proof. by destruct c. Qed.

Lemma run_on_store {R} (fn : txn R) this : DataStore.run fn this = on_store fn this.
Proof.
  revert this. induction fn as [res|err|A c k IH]; intros this; [done..|].
  cbn [DataStore.run on_store]. rewrite invoke_method.
  destruct (method c this) as [completion this']. apply IH.
Qed.

Lemma transaction_returned {R} (fn : txn R) this res :
  fst (DataStore.run fn this) = Returned res →
  fst (DataStore.transaction fn this) = Returned res ∧
  DataStore.map (snd (DataStore.transaction fn this))
    = DataStore.map (snd (DataStore.run fn this)) ∧
  DataStore.keyName (snd (DataStore.transaction fn this))
    = DataStore.keyName (snd (DataStore.run fn this)).
Proof.
  unfold DataStore.transaction.
  destruct (DataStore.run fn this) as [[res'|err] this']; cbn; [|done].
  by intros [= ->].
Qed.

Lemma transaction_thrown {R} (fn : txn R) this err :
  fst (DataStore.run fn this) = Thrown err →
  fst (DataStore.transaction fn this) = Thrown err ∧
  DataStore.map (snd (DataStore.transaction fn this)) = DataStore.map this ∧
  DataStore.keyName (snd (DataStore.transaction fn this))
    = DataStore.keyName (snd (DataStore.run fn this)).
Proof.
  unfold DataStore.transaction.
  destruct (DataStore.run fn this) as [[res'|err'] this']; cbn; [done|].
  by intros [= ->].
Qed.

Lemma well_formed_transaction {R} (fn : txn R) this :
  typed (DataStore.keyName this) fn → well_formed this →
  well_formed (snd (DataStore.transaction fn this)).
Proof.
  intros Ht Hwf. destruct (run_well_formed fn this Ht Hwf) as [[Hown Hnd] Hk].
  destruct (fst (DataStore.run fn this)) as [res|err] eqn:E.
  - destruct (transaction_returned fn this res E) as (_ & Hm & Hk').
    apply (well_formed_intro this); rewrite ?Hm, ?Hk'; [done| |done].
    intros key r. rewrite <- Hk. apply Hown.
  - destruct (transaction_thrown fn this err E) as (_ & Hm & Hk').
    destruct Hwf as [Hown' Hnd'].
    apply (well_formed_intro this); rewrite ?Hm, ?Hk'; done.
Qed.

Lemma step_well_formed this this' :
  step this this' → well_formed this → well_formed this'.
Proof.
  intros [now item|key|key patch Hp|key|options|filter options|R fn Ht|] Hwf.
  - by apply well_formed_create.
  - by apply well_formed_get.
  - by apply well_formed_update.
  - by apply well_formed_delete.
  - by rewrite list_same_store.
  - by rewrite query_same_store.
  - by apply well_formed_transaction.
  - apply well_formed_clear.
Qed.

Lemma reachable_well_formed this : reachable this → well_formed this.
Proof.
  induction 1 as [keyName|this this' _ IH Hstep].
  - apply well_formed_new.
  - by apply (step_well_formed this).
Qed.
End TransactionFacts.

(** ** Sorting *)

Section SortFacts.
Context {A : Type} (comparefn : A → A → outcome Z).

Lemma sort_insert_Permutation x sorted result :
  sort_insert comparefn x sorted = Returned result →
  Permutation (x :: sorted) result.
Proof.
  revert result. induction sorted as [|y rest IH]; simpl; intros result.
  - by intros [= <-].
  - destruct (comparefn x y) as [c|]; cbn; [|done].
    destruct (c <=? 0); [by intros [= <-]|].
    destruct (sort_insert comparefn x rest) as [rest'|]; cbn; [|done].
    intros [= <-]. rewrite Permutation_swap. by rewrite (IH rest').
Qed.

Lemma stable_sort_Permutation arr result :
  stable_sort comparefn arr = Returned result → Permutation arr result.
Proof.
  revert result. induction arr as [|x rest IH]; simpl; intros result.
  - by intros [= <-].
  - destruct (stable_sort comparefn rest) as [sorted|]; cbn; [|done].
    intros Hi%sort_insert_Permutation. by rewrite (IH sorted).
Qed.

Context {engine : Engine}.

Lemma Array_sort_Permutation arr result :
  Array_sort comparefn arr = Returned result → Permutation arr result.
Proof. apply Array_sort_permutes. Qed.

(** When the comparison function returns on the elements at hand, so does
    the sort. *)
Lemma Array_sort_returns (P : A → Prop) arr :
  (∀ a b, P a → P b → ∃ c, comparefn a b = Returned c) →
  Forall P arr →
  ∃ result, Array_sort comparefn arr = Returned result.
Proof.
  intros Hcmp HP. destruct (Array_sort comparefn arr) as [result|err] eqn:Hsort;
    [by eexists|].
  apply Array_sort_propagates in Hsort as (a & b & Ha & Hb & Hthrown).
  rewrite Forall_forall in HP.
  destruct (Hcmp a b) as [c Hc]; [by apply HP, list_elem_of_In..|]. congruence.
Qed.

(** The empty array needs no call of the comparison function. *)
Lemma Array_sort_nil : Array_sort comparefn [] = Returned [].
Proof.
  rewrite Array_sort_consistent; [done|]. exists (λ _ _, 0).
  repeat split; intros; done.
Qed.

(** What the sort throws, the comparison function has thrown. *)
Lemma Array_sort_throws (Q : error → Prop) arr err :
  (∀ a b err', comparefn a b = Thrown err' → Q err') →
  Array_sort comparefn arr = Thrown err → Q err.
Proof.
  intros Hcmp (a & b & _ & _ & Hthrown)%Array_sort_propagates.
  by apply (Hcmp a b).
Qed.
End SortFacts.

Section CompareFacts.
Context {engine : Engine}.

Lemma ToNumber_returns v : (∀ id, v ≠ VSymbol id) → ∃ n, ToNumber v = Returned n.
Proof.
  destruct v; intros Hv; try (exfalso; by apply (Hv id)); simpl; by eexists.
Qed.

Lemma js_gt_returns x y :
  (∀ id, x ≠ VSymbol id) → (∀ id, y ≠ VSymbol id) →
  ∃ b, js_gt x y = Returned b.
Proof.
  intros Hx Hy. unfold js_gt, js_lt.
  destruct x; try (exfalso; by apply (Hx id));
    destruct y; try (exfalso; by apply (Hy id)); cbn; by eexists.
Qed.

Lemma compareBy_returns field dir a b :
  (∀ id, get_field a field ≠ VSymbol id) →
  (∀ id, get_field b field ≠ VSymbol id) →
  ∃ c, DataStore.compareBy field dir a b = Returned c.
Proof.
  intros Ha Hb. unfold DataStore.compareBy.
  destruct (strict_eq _ _); [by eexists|].
  destruct (js_gt_returns _ _ Ha Hb) as [g ->]. cbn. by eexists.
Qed.

Lemma applySort_returns options arr :
  sortable options arr →
  ∃ result, DataStore.applySort options arr = Returned result.
Proof.
  intros Hs. unfold DataStore.applySort.
  destruct (options ≫= sortBy) as [field|] eqn:E; [|by eexists].
  case_bool_decide; [by eexists|].
  apply (Array_sort_returns _ (λ r, ∀ id, get_field r field ≠ VSymbol id)).
  - intros a b. apply compareBy_returns.
  - apply Forall_forall. intros r Hr%list_elem_of_In. by apply (Hs field).
Qed.

Lemma applySort_Permutation options arr result :
  DataStore.applySort options arr = Returned result → Permutation arr result.
Proof.
  unfold DataStore.applySort.
  destruct (options ≫= sortBy) as [field|]; [|by intros [= <-]].
  case_bool_decide; [by intros [= <-]|]. apply Array_sort_Permutation.
Qed.

Lemma applySort_unsorted options arr :
  options ≫= sortBy = None → DataStore.applySort options arr = Returned arr.
Proof. unfold DataStore.applySort. by intros ->. Qed.
End CompareFacts.

(** A comparison function that decides a total preorder on the elements at
    hand leaves them sorted by it. *)
Section SortOrder.
Context {A : Type} (comparefn : A → A → outcome Z).
Context (P : A → Prop) (le : A → A → Prop).
Hypothesis le_total : ∀ a b, le a b ∨ le b a.
Hypothesis le_trans : ∀ a b c, le a b → le b c → le a c.
Hypothesis compare_le :
  ∀ a b, P a → P b → ∃ c, comparefn a b = Returned c ∧ (c ≤ 0 ↔ le a b).

Lemma sort_insert_sorted x sorted result :
  P x → Forall P sorted → StronglySorted le sorted →
  sort_insert comparefn x sorted = Returned result →
  StronglySorted le result.
Proof.
  intros Hx HP Hsorted. revert result.
  induction Hsorted as [|y rest Hrest IH Hy]; simpl; intros result.
  - intros [= <-]. repeat constructor.
  - apply Forall_cons in HP as [HPy HPrest].
    destruct (compare_le x y Hx HPy) as (c & -> & Hc). cbn.
    destruct (Z.leb_spec c 0) as [Hle|Hgt].
    + intros [= <-]. apply Hc in Hle. constructor; [by constructor|].
      constructor; [done|]. eapply Forall_impl; [exact Hy|].
      intros z Hz. by apply (le_trans x y z).
    + destruct (sort_insert comparefn x rest) as [rest'|] eqn:Hins; cbn; [|done].
      intros [= <-]. constructor; [by apply IH|].
      apply sort_insert_Permutation in Hins. rewrite <- Hins.
      constructor; [|done].
      destruct (le_total y x) as [Hyx|Hxy]; [done|]. apply Hc in Hxy. lia.
Qed.

Lemma stable_sort_sorted arr result :
  Forall P arr → stable_sort comparefn arr = Returned result →
  StronglySorted le result.
Proof.
  intros HP. revert result.
  induction HP as [|x rest Hx Hrest IH]; simpl; intros result.
  - intros [= <-]. constructor.
  - destruct (stable_sort comparefn rest) as [sorted|] eqn:Hsort; cbn; [|done].
    apply (sort_insert_sorted x sorted); [done| |by apply IH].
    apply stable_sort_Permutation in Hsort. by rewrite <- Hsort.
Qed.
End SortOrder.

Section NumericSort.
Context {engine : Engine}.

Lemma compareBy_numbers field dir (a b : record) x y :
  get_field a field = VNumber (Num x) →
  get_field b field = VNumber (Num y) →
  DataStore.compareBy field dir a b
  = Returned (if x =? y then 0 else (if y <? x then 1 else -1) * dir).
Proof.
  intros Ha Hb. unfold DataStore.compareBy. rewrite Ha, Hb.
  unfold strict_eq. rewrite number_eqb_Num. destruct (x =? y); [done|].
  change (js_gt (VNumber (Num x)) (VNumber (Num y)))
    with (Returned (number_ltb (Num y) (Num x))).
  by rewrite number_ltb_Num.
Qed.

Lemma compareBy_numeric field dir (a b : record) :
  (dir = 1 ∨ dir = -1) →
  (∃ z, get_field a field = VNumber (Num z)) →
  (∃ z, get_field b field = VNumber (Num z)) →
  ∃ c, DataStore.compareBy field dir a b = Returned c ∧
       (c ≤ 0 ↔ if decide (dir = 1)
                then numeric_key field a ≤ numeric_key field b
                else numeric_key field b ≤ numeric_key field a).
Proof.
  intros Hdir [x Ha] [y Hb]. rewrite (compareBy_numbers field dir a b x y) by done.
  unfold numeric_key. rewrite Ha, Hb. eexists. split; [done|].
  destruct (Z.eqb_spec x y) as [->|Hne].
  - case_decide; lia.
  - destruct (Z.ltb_spec y x); destruct Hdir as [-> | ->]; case_decide; lia.
Qed.

(** On records whose sort field holds integers the comparison function of
    [list] and [query] is consistent. *)
Lemma compareBy_consistent field dir (arr : list record) :
  (dir = 1 ∨ dir = -1) →
  Forall (λ r, ∃ z, get_field r field = VNumber (Num z)) arr →
  consistent (DataStore.compareBy field dir) arr.
Proof.
  intros Hdir Hnum. rewrite Forall_forall in Hnum.
  exists (λ a b, if numeric_key field a =? numeric_key field b then 0
                 else (if numeric_key field b <? numeric_key field a
                       then 1 else -1) * dir).
  split.
  { intros a b [x Ha]%list_elem_of_In%Hnum [y Hb]%list_elem_of_In%Hnum.
    rewrite (compareBy_numbers field dir a b x y) by done.
    unfold numeric_key. by rewrite Ha, Hb. }
  repeat split; intros;
    repeat match goal with
           | H : context [?x =? ?y] |- _ => destruct (Z.eqb_spec x y)
           | |- context [?x =? ?y] => destruct (Z.eqb_spec x y)
           | H : context [?x <? ?y] |- _ => destruct (Z.ltb_spec x y)
           | |- context [?x <? ?y] => destruct (Z.ltb_spec x y)
           end; destruct Hdir as [-> | ->]; lia.
Qed.

Lemma applySort_numeric options field arr result :
  options ≫= sortBy = Some field → field ≠ "" →
  Forall (λ r, ∃ z, get_field r field = VNumber (Num z)) arr →
  DataStore.applySort options arr = Returned result →
  StronglySorted (in_order options field) result.
Proof.
  intros Hfield Hname Hnum. unfold DataStore.applySort. rewrite Hfield.
  rewrite bool_decide_eq_false_2 by done.
  rewrite Array_sort_consistent
    by (apply compareBy_consistent; [destruct (options ≫= sortDir) as [[]|]; auto|done]).
  apply stable_sort_sorted with (P := λ r, ∃ z, get_field r field = VNumber (Num z));
    [| |intros a b Ha Hb|done].
  - intros a b. unfold in_order. destruct (options ≫= sortDir) as [[]|]; lia.
  - intros a b c. unfold in_order. destruct (options ≫= sortDir) as [[]|]; lia.
  - unfold in_order.
    destruct (options ≫= sortDir) as [[]|].
    + destruct (compareBy_numeric field 1 a b) as (c & Hc & Hle); [auto|done..|].
      rewrite decide_True in Hle by done. eauto.
    + destruct (compareBy_numeric field (-1) a b) as (c & Hc & Hle); [auto|done..|].
      rewrite decide_False in Hle by done. eauto.
    + destruct (compareBy_numeric field 1 a b) as (c & Hc & Hle); [auto|done..|].
      rewrite decide_True in Hle by done. eauto.
Qed.
End NumericSort.

(** ** Slicing *)

Lemma slice_length_le {A} (arr : list A) o n :
  0 ≤ n →
  (length (slice arr (Num o) (number_add (Num o) (Num n))) ≤ Z.to_nat n)%nat.
Proof.
  intros Hn. unfold slice. rewrite length_take.
  cbn [number_add ToIntegerOrInfinity clamp].
  destruct (o <? 0) eqn:Eo, (o + n <? 0) eqn:Eon; lia.
Qed.

Lemma slice_take_drop {A} (arr : list A) o n :
  0 ≤ o → 0 ≤ n →
  slice arr (Num o) (number_add (Num o) (Num n))
  = take (Z.to_nat n) (drop (Z.to_nat o) arr).
Proof.
  intros Ho Hn. unfold slice. cbn [number_add ToIntegerOrInfinity clamp].
  destruct (o <? 0) eqn:Eo; [lia|]. destruct (o + n <? 0) eqn:Eon; [lia|].
  destruct (decide (Z.of_nat (length arr) ≤ o)) as [Hlen|Hlen].
  - rewrite !drop_ge by lia. by rewrite !take_nil.
  - replace (Z.to_nat (Z.min o (Z.of_nat (length arr)))) with (Z.to_nat o) by lia.
    destruct (decide (o + n ≤ Z.of_nat (length arr))) as [Hfit|Hfit].
    + f_equal. lia.
    + rewrite !take_ge; [done|rewrite length_drop; lia..].
Qed.

(** In an array of at most [2 ^ 53] elements, the slice up to the double
    nearest to a sum of integers is the slice up to the sum. *)
Lemma slice_rounded_sum {A} (arr : list A) start o n :
  Z.of_nat (length arr) ≤ 2 ^ 53 →
  slice arr start (round (o + n) 0) = slice arr start (number_add (Num o) (Num n)).
Proof.
  intros Hlen. unfold slice. cbn [number_add].
  rewrite clamp_round by lia. done.
Qed.

(** The digits after the point stand for a number between 0 and 1. *)
Lemma fraction_bounds digits :
  0 < (fraction digits).1 < 2 ^ (fraction digits).2 ∧ 0 < (fraction digits).2.
Proof.
  induction digits as [rest IH|rest IH|]; cbn [fraction].
  - destruct (fraction rest) as [n k]. cbn [fst snd] in *.
    rewrite Z.pow_add_r, Z.pow_1_r by lia. lia.
  - destruct (fraction rest) as [n k]. cbn [fst snd] in *.
    rewrite Z.pow_add_r, Z.pow_1_r by lia. lia.
  - done.
Qed.

(** A number that is at least an integer has at least that integer part. *)
Lemma ToIntegerOrInfinity_ge z x :
  number_leb (Num z) x = true →
  ToIntegerOrInfinity x = PlusInfinity ∨
  ∃ r, ToIntegerOrInfinity x = Finite r ∧ z ≤ r.
Proof.
  destruct x as [|[]|y|floor digits]; try done.
  - by left.
  - rewrite number_leb_Num. intros Hle%Z.leb_le. right. by exists y.
  - unfold number_leb, number_compare, dyadic.
    pose proof (fraction_bounds digits) as Hbounds.
    destruct (fraction digits) as [n k]. cbn [fst snd] in Hbounds.
    change (2 ^ 0) with 1. rewrite Z.mul_1_r. intros Hle. right.
    assert (z * 2 ^ k ≤ floor * 2 ^ k + n) as Hle'.
    { destruct (Z.compare_spec (z * 2 ^ k) (floor * 2 ^ k + n)); [lia..|done]. }
    assert (z ≤ floor) by nia.
    cbn [ToIntegerOrInfinity]. destruct (floor <? 0); eexists; (split; [done|lia]).
Qed.

Lemma slice_beyond {A} (arr : list A) start end_ :
  number_leb (Num (Z.of_nat (length arr))) start = true →
  slice arr start end_ = [].
Proof.
  intros Hstart. unfold slice.
  assert (clamp (Z.of_nat (length arr)) (ToIntegerOrInfinity start)
          = Z.of_nat (length arr)) as ->.
  { destruct (ToIntegerOrInfinity_ge _ _ Hstart) as [-> | (r & -> & Hr)]; [done|].
    cbn [clamp]. destruct (Z.ltb_spec r 0); lia. }
  rewrite drop_ge by lia. apply take_nil.
Qed.

(** ** Filters *)

(** Induction on a filter, with the hypothesis for every member of its
    groups. *)
Lemma Filter_nested_ind (P : Filter → Prop) :
  (∀ and_ or_ fields,
     (∀ fs, and_ = Some fs → Forall P fs) →
     (∀ fs, or_ = Some fs → Forall P fs) →
     P (mkFilter and_ or_ fields)) →
  ∀ filter, P filter.
Proof.
  intros Hstep. fix IH 1. intros [and_ or_ fields].
  apply Hstep.
  - destruct and_ as [group|]; [|intros ? [=]]. intros ? [= <-].
    revert group. fix IHgroup 1.
    intros [|f rest]; constructor; [apply IH|apply IHgroup].
  - destruct or_ as [group|]; [|intros ? [=]]. intros ? [= <-].
    revert group. fix IHgroup 1.
    intros [|f rest]; constructor; [apply IH|apply IHgroup].
Qed.

Section CallbackFacts.
Context {A : Type} (callback : A → outcome bool).

Lemma Array_every_returns arr :
  Forall (λ x, ∃ b, callback x = Returned b) arr →
  ∃ b, Array_every callback arr = Returned b.
Proof.
  induction 1 as [|x rest [b Hb] _ IH]; simpl; [by eexists|].
  rewrite Hb. cbn. destruct b; [done|by eexists].
Qed.

Lemma Array_some_returns arr :
  Forall (λ x, ∃ b, callback x = Returned b) arr →
  ∃ b, Array_some callback arr = Returned b.
Proof.
  induction 1 as [|x rest [b Hb] _ IH]; simpl; [by eexists|].
  rewrite Hb. cbn. destruct b; [by eexists|done].
Qed.

Lemma Array_filter_returns arr :
  Forall (λ x, ∃ b, callback x = Returned b) arr →
  ∃ kept, Array_filter callback arr = Returned kept.
Proof.
  induction 1 as [|x rest [b Hb] _ [kept IH]]; simpl; [by eexists|].
  rewrite Hb, IH. cbn. by eexists.
Qed.

(** What [filter] keeps are the elements that pass, in their order. *)
Lemma Array_filter_kept arr kept :
  Array_filter callback arr = Returned kept →
  kept = List.filter (λ x, match callback x with
                           | Returned b => b
                           | Thrown _ => false
                           end) arr.
Proof.
  revert kept. induction arr as [|x rest IH]; simpl; intros kept.
  - by intros [= <-].
  - destruct (callback x) as [b|]; cbn; [|done].
    destruct (Array_filter callback rest) as [kept'|]; cbn; [|done].
    intros [= <-]. rewrite <- (IH kept') by done. by destruct b.
Qed.

Lemma Array_filter_In arr kept x :
  Array_filter callback arr = Returned kept → In x kept → In x arr.
Proof. intros ->%Array_filter_kept. rewrite filter_In. tauto. Qed.
End CallbackFacts.

Section FilterFacts.
Context {engine : Engine}.

Lemma checkField_returns val ff :
  match val with VDate _ _ => date_ready ff = true | _ => True end →
  ∃ b, DataStore.checkField val ff = Returned b.
Proof.
  assert (∀ (c : bool) (x y : outcome bool),
            (∃ b, x = Returned b) → (∃ b, y = Returned b) →
            ∃ b, (if c then x else y) = Returned b) as Hif
    by (intros [] ? ? ? ?; done).
  unfold DataStore.checkField, date_ready.
  destruct val; intros Hff; repeat (apply Hif; [by eexists|]);
    try (by eexists).
  - destruct (FieldFilter.between ff) as [[]|]; by eexists.
  - unfold date_or_absent in Hff.
    apply andb_true_iff in Hff as [Hff Hbetween].
    apply andb_true_iff in Hff as [Hff Hafter].
    apply andb_true_iff in Hff as [Heq Hbefore].
    destruct (FieldFilter.eq ff); try done;
      destruct (FieldFilter.before ff); try done;
      destruct (FieldFilter.after ff); try done;
      destruct (FieldFilter.between ff) as [[]|]; try done; cbn;
      repeat match goal with
             | |- context [negb ?c] => destruct c; cbn
             end; by eexists.
Qed.

Lemma checkFields_returns item fields :
  forallb (entry_fits item) fields = true →
  ∃ b, DataStore.checkFields item fields = Returned b.
Proof.
  induction fields as [|[k [ff|]] rest IH]; simpl; [by eexists| |done].
  intros [Hk Hrest]%andb_true_iff.
  destruct (checkField_returns (get_field item k) ff) as [b ->].
  - by destruct (get_field item k).
  - cbn. destruct b; [by apply IH|by eexists].
Qed.

Lemma matchesObject_returns item filter :
  fits item filter = true → ∃ b, DataStore.matchesObject item filter = Returned b.
Proof.
  induction filter as [and_ or_ fields IHand IHor] using Filter_nested_ind.
  cbn [fits]. intros [[Hand Hor]%andb_true_iff Hfields]%andb_true_iff.
  assert (∀ fs, Forall (λ f, fits item f = true → ∃ b,
                  DataStore.matchesObject item f = Returned b) fs →
                forallb (fits item) fs = true →
                Forall (λ f, ∃ b, DataStore.matchesObject item f = Returned b) fs)
    as Hgroup.
  { induction 1 as [|f fs Hf _ IH]; simpl; [constructor|].
    intros [Hf' Hfs]%andb_true_iff. constructor; [by apply Hf|by apply IH]. }
  assert (∃ all, match and_ with
                 | Some fs => Array_every (DataStore.matchesObject item) fs
                 | None => Returned true
                 end = Returned all) as [all Hall].
  { destruct and_ as [fs|]; [|by eexists].
    apply Array_every_returns, Hgroup; [by apply IHand|done]. }
  assert (∃ any, match or_ with
                 | Some fs => Array_some (DataStore.matchesObject item) fs
                 | None => Returned true
                 end = Returned any) as [any Hany].
  { destruct or_ as [fs|]; [|by eexists].
    apply Array_some_returns, Hgroup; [by apply IHor|done]. }
  destruct (checkFields_returns item fields Hfields) as [b Hb].
  assert (∃ b', (match and_ with
                 | Some fs => Array_every (DataStore.matchesObject item) fs
                 | None => Returned true
                 end ≫= λ all : bool,
                 if negb all then Returned false
                 else match or_ with
                      | Some fs => Array_some (DataStore.matchesObject item) fs
                      | None => Returned true
                      end ≫= λ any : bool,
                      if negb any then Returned false
                      else DataStore.checkFields item fields) = Returned b')
    as [b' Hb'].
  { rewrite Hall. cbn. destruct all; cbn; [|by eexists].
    rewrite Hany. cbn. destruct any; cbn; by eexists. }
  cbn [DataStore.matchesObject].
  destruct and_, or_, fields; first [by eexists b'|by eexists].
Qed.

Lemma matchesFilter_returns item filter :
  (∀ f, filter = Some f → fits item f = true) →
  ∃ b, DataStore.matchesFilter item filter = Returned b.
Proof.
  destruct filter as [f|]; simpl; [|by eexists].
  intros Hf. by apply matchesObject_returns, Hf.
Qed.
End FilterFacts.

(** ** What [list] and [query] throw *)

Lemma bind_throws {A B} (c : outcome A) (f : A → outcome B) err :
  c ≫= f = Thrown err →
  c = Thrown err ∨ ∃ a, c = Returned a ∧ f a = Thrown err.
Proof. destruct c as [a|err']; cbn; [eauto|]. intros [= ->]. by left. Qed.

Section CallbackThrows.
Context {A : Type} (callback : A → outcome bool) (Q : error → Prop).

Lemma Array_every_throws arr err :
  Forall (λ x, ∀ err, callback x = Thrown err → Q err) arr →
  Array_every callback arr = Thrown err → Q err.
Proof.
  induction 1 as [|x rest Hx _ IH]; simpl; [done|].
  intros [Hthrown|([] & _ & Hthrown)]%bind_throws; [by apply Hx|by apply IH|done].
Qed.

Lemma Array_some_throws arr err :
  Forall (λ x, ∀ err, callback x = Thrown err → Q err) arr →
  Array_some callback arr = Thrown err → Q err.
Proof.
  induction 1 as [|x rest Hx _ IH]; simpl; [done|].
  intros [Hthrown|([] & _ & Hthrown)]%bind_throws; [by apply Hx|done|by apply IH].
Qed.

Lemma Array_filter_throws arr err :
  Forall (λ x, ∀ err, callback x = Thrown err → Q err) arr →
  Array_filter callback arr = Thrown err → Q err.
Proof.
  induction 1 as [|x rest Hx _ IH]; simpl; [done|].
  intros [Hthrown|(b & _ & Hthrown)]%bind_throws; [by apply Hx|].
  apply bind_throws in Hthrown as [Hthrown|(kept & _ & Hthrown)];
    [by apply IH|done].
Qed.
End CallbackThrows.

Section Throws.
Context {engine : Engine}.

Lemma checkField_throws val ff err :
  DataStore.checkField val ff = Thrown err → err = TypeError.
Proof.
  assert (∀ v err', getTime v = Thrown err' → err' = TypeError) as Htime
    by (intros [] err'; cbn; congruence).
  assert (∀ (operand : value) (test : number → bool) err',
            (if bool_decide (operand = VUndefined) then Returned false
             else t ← getTime operand; Returned (test t)) = Thrown err' →
            err' = TypeError) as Hoperand.
  { intros operand test err'. case_bool_decide; [done|].
    intros [Hthrown|(t & _ & Hthrown)]%bind_throws; [by apply (Htime operand)|done]. }
  unfold DataStore.checkField.
  destruct val; try (repeat case_match; done).
  intros [Hthrown|([] & _ & Hthrown)]%bind_throws;
    [by apply Hoperand in Hthrown|done|].
  apply bind_throws in Hthrown as [Hthrown|([] & _ & Hthrown)];
    [by apply Hoperand in Hthrown|done|].
  apply bind_throws in Hthrown as [Hthrown|([] & _ & Hthrown)];
    [by apply Hoperand in Hthrown|done|].
  repeat case_match; congruence.
Qed.

Lemma checkFields_throws item fields err :
  DataStore.checkFields item fields = Thrown err → err = TypeError.
Proof.
  induction fields as [|[k [ff|]] rest IH]; simpl; [done| |done].
  intros [Hthrown|([] & _ & Hthrown)]%bind_throws;
    [by apply checkField_throws in Hthrown|by apply IH|done].
Qed.

Lemma matchesObject_throws item filter err :
  DataStore.matchesObject item filter = Thrown err → err = TypeError.
Proof.
  revert err.
  induction filter as [and_ or_ fields IHand IHor] using Filter_nested_ind.
  intros err.
  assert ((match and_ with
           | Some fs => Array_every (DataStore.matchesObject item) fs
           | None => Returned true
           end ≫= λ all : bool,
           if negb all then Returned false
           else match or_ with
                | Some fs => Array_some (DataStore.matchesObject item) fs
                | None => Returned true
                end ≫= λ any : bool,
                if negb any then Returned false
                else DataStore.checkFields item fields) = Thrown err →
          err = TypeError) as Hbody.
  { intros [Hthrown|(all & _ & Hthrown)]%bind_throws.
    - destruct and_ as [fs|]; [|done].
      by apply (Array_every_throws _ (λ e, e = TypeError)) in Hthrown;
        [|apply IHand].
    - destruct (negb all); [done|].
      apply bind_throws in Hthrown as [Hthrown|(any & _ & Hthrown)].
      + destruct or_ as [fs|]; [|done].
        by apply (Array_some_throws _ (λ e, e = TypeError)) in Hthrown;
          [|apply IHor].
      + destruct (negb any); [done|]. by apply checkFields_throws in Hthrown. }
  cbn [DataStore.matchesObject]. destruct and_, or_, fields; done.
Qed.

Lemma matchesFilter_throws item filter err :
  DataStore.matchesFilter item filter = Thrown err → err = TypeError.
Proof. destruct filter as [f|]; [apply matchesObject_throws|done]. Qed.

Lemma compareBy_throws field dir a b err :
  DataStore.compareBy field dir a b = Thrown err → err = TypeError.
Proof.
  unfold DataStore.compareBy. destruct (strict_eq _ _); [done|].
  intros [Hthrown|(g & _ & Hthrown)]%bind_throws; [|done].
  unfold js_gt, js_lt, ToNumber in Hthrown.
  repeat case_match; cbn in Hthrown; congruence.
Qed.

Lemma applySort_throws options arr err :
  DataStore.applySort options arr = Thrown err → err = TypeError.
Proof.
  unfold DataStore.applySort. destruct (options ≫= sortBy) as [field|]; [|done].
  case_bool_decide; [done|].
  apply (Array_sort_throws _ (λ e, e = TypeError)).
  intros a b. apply compareBy_throws.
Qed.

Lemma list_throws options this err :
  fst (DataStore.list options this) = Thrown err → err = TypeError.
Proof.
  rewrite list_eq. cbn [fst].
  intros [Hthrown|(arr & _ & Hthrown)]%bind_throws; [|done].
  by apply applySort_throws in Hthrown.
Qed.

Lemma query_throws filter options this err :
  fst (DataStore.query filter options this) = Thrown err → err = TypeError.
Proof.
  rewrite query_eq. cbn [fst].
  intros [Hthrown|(matches & _ & Hthrown)]%bind_throws.
  - apply (Array_filter_throws _ (λ e, e = TypeError)) in Hthrown; [done|].
    apply Forall_forall. intros r _ err'. apply matchesFilter_throws.
  - apply bind_throws in Hthrown as [Hthrown|(arr & _ & Hthrown)]; [|done].
    by apply applySort_throws in Hthrown.
Qed.
End Throws.

(** ** Checking the side conditions by computation *)

Lemma sortable_check options arr : sortableb options arr = true → sortable options arr.
Proof.
  unfold sortableb, sortable. intros Hcheck field Hfield r Hr id Hsym.
  rewrite Hfield in Hcheck. rewrite forallb_forall in Hcheck.
  specialize (Hcheck r Hr). by rewrite Hsym in Hcheck.
Qed.

Lemma fits_all_check filter arr : fits_allb filter arr = true → fits_all filter arr.
Proof.
  unfold fits_allb, fits_all. intros Hcheck f -> r Hr.
  rewrite forallb_forall in Hcheck. by apply Hcheck.
Qed.

(** ** Round trip and deletion of an absent key *)

(** X1.  Round trip of [create] and [get]: what [create] returns is what
    [get] finds under the key of that record. *)
Lemma get_after_create now item this created :
  fst (DataStore.create now item this) = Returned created →
  fst (DataStore.get (get_field created (DataStore.keyName this))
                     (snd (DataStore.create now item this)))
  = Returned (Some created).
Proof.
  destruct (JsMap.has (resolvedKey now item this) (DataStore.map this)) eqn:Hhas.
  - destruct (create_duplicate now item this Hhas) as (-> & _). done.
  - destruct (create_fresh now item this Hhas) as (-> & Hmap & _).
    intros [= <-]. destruct (get_eq (get_field
      (<[DataStore.keyName this := resolvedKey now item this]> item)
      (DataStore.keyName this)) (snd (DataStore.create now item this)))
      as (-> & _).
    rewrite Hmap. unfold get_field at 1. rewrite lookup_insert_eq. cbn [default].
    by rewrite JsMap_get_set_eq.
Qed.

(** [delete] of a key that is not there returns [false] and leaves the map as
    it was. *)
Lemma delete_absent key this :
  JsMap.get key (DataStore.map this) = None →
  fst (DataStore.delete key this) = Returned false ∧
  DataStore.map (snd (DataStore.delete key this)) = DataStore.map this.
Proof.
  intros Hnone. destruct (delete_eq key this) as (-> & -> & _).
  split; [by rewrite (proj2 (JsMap_has_false _ _) Hnone)|].
  apply JsMap_get_None in Hnone. unfold JsMap.delete. cbn [snd].
  induction (DataStore.map this) as [|[k v] m IH]; [done|].
  simpl in *. rewrite SameValueZero_ne by (intros ->; tauto).
  cbn. f_equal. apply IH. tauto.
Qed.

(** * The repository's tests, run on the model *)

Example people_records :
  JsMap.values (DataStore.map people) = [stored_alice; stored_bob; stored_charlie].
Proof. reflexivity. Qed.

(** [tests/datastore.test.ts], "create/get/delete lifecycle". *)
Example test_lifecycle :
  fst (lifecycle (DataStore.new "id"))
  = Returned ([Some (<["id" := book_key]> book);
               Some (<["id" := book_key]> book);
               Some (<["price" := VNumber (Num 25)]> (<["id" := book_key]> book));
               None], true).
Proof. reflexivity. Qed.

(** [tests/datastore.test.ts], "query with number range". *)
Example test_number_range :
  fst (DataStore.query (engine := decimal_engine)
         (Some (between_filter "price" (Num 10) (Num 100))) None price_list)
  = Returned [<["id" := VString "id_loyw3v28_2"]> (priced "mid" 50)].
Proof. reflexivity. Qed.

(** [tests/datastore.test.ts], "transaction commits and rollbacks". *)
Example test_rollback :
  fst (DataStore.get (VString "t2")
         (snd (DataStore.transaction (engine := decimal_engine)
                 create_t2_then_throw products)))
  = Returned None.
Proof. reflexivity. Qed.

(** [tests/filtering.test.ts], "filter by string contains". *)
Example test_contains :
  fst (DataStore.query (engine := decimal_engine)
         (Some (on_field "name" (contains_only "li"))) None people)
  = Returned [stored_alice; stored_charlie].
Proof. reflexivity. Qed.

(** [tests/filtering.test.ts], "filter by AND/OR composition". *)
Example test_or :
  fst (DataStore.query (engine := decimal_engine)
         (Some london_or_over_40) None people)
  = Returned [stored_bob; stored_charlie].
Proof. reflexivity. Qed.

(** [tests/filtering.test.ts], "pagination + sorting". *)
Example test_sorted_page :
  fst (DataStore.list (engine := decimal_engine)
         (Some {| limit := Some (Num 2); offset := None;
                  sortBy := Some "age"; sortDir := Some asc |}) people)
  = Returned [stored_alice; stored_bob].
Proof. reflexivity. Qed.

(** Descending, the same page starts from the oldest. *)
Example test_sorted_page_desc :
  fst (DataStore.list (engine := decimal_engine)
         (Some {| limit := Some (Num 2); offset := None;
                  sortBy := Some "age"; sortDir := Some desc |}) people)
  = Returned [stored_charlie; stored_bob].
Proof. reflexivity. Qed.

(** * The claims *)

(** C1.  [create] resolves the key (the candidate's own, or a generated one
    when the candidate's key is absent or null).  When the resolved key is in
    the map already, [create] throws the duplicate-key error and leaves the
    map as it was; otherwise it adds the final record (the candidate with the
    resolved key under the key field) at the end of the map and returns that
    record. *)
Theorem create_checks_the_resolved_key (now : Z) (item : record) (this : DataStore.t) :
  let key := resolvedKey now item this in
  let final : record := <[DataStore.keyName this := key]> item in
  let after := snd (DataStore.create now item this) in
  (JsMap.has key (DataStore.map this) = true →
     fst (DataStore.create now item this) = Thrown (DuplicateKey key) ∧
     DataStore.map after = DataStore.map this) ∧
  (JsMap.has key (DataStore.map this) = false →
     fst (DataStore.create now item this) = Returned final ∧
     DataStore.map after = (DataStore.map this ++ [(key, final)])%list ∧
     JsMap.get key (DataStore.map after) = Some final).
Proof.
  cbv zeta. split; intros Hhas.
  - by destruct (create_duplicate now item this Hhas) as (Hres & Hmap & _).
  - destruct (create_fresh now item this Hhas) as (Hres & Hmap & _).
    rewrite Hmap. split; [done|]. split; [by apply JsMap_set_absent|].
    apply JsMap_get_set_eq.
Qed.

(** The two cases of C1 on the store of the tests: a second record with the
    key of Bob is refused, a record with a key of its own is added. *)
Lemma create_checks_the_resolved_key_witness :
  (fst (DataStore.create t0 (<["id" := VString "id_loyw3v28_2"]> alice) people)
     = Thrown (DuplicateKey (VString "id_loyw3v28_2")) ∧
   DataStore.map (snd (DataStore.create t0
                         (<["id" := VString "id_loyw3v28_2"]> alice) people))
     = DataStore.map people) ∧
  (fst (DataStore.create t0 alice people)
     = Returned (<["id" := VString "id_loyw3v28_4"]> alice) ∧
   JsMap.get (VString "id_loyw3v28_4")
             (DataStore.map (snd (DataStore.create t0 alice people)))
     = Some (<["id" := VString "id_loyw3v28_4"]> alice)).
Proof.
  split.
  - destruct (proj1 (create_checks_the_resolved_key
                    t0 (<["id" := VString "id_loyw3v28_2"]> alice) people))
      as (Hres & Hmap); [reflexivity|].
    split; [exact Hres|exact Hmap].
  - destruct (proj2 (create_checks_the_resolved_key t0 alice people))
      as (Hres & _ & Hget); [reflexivity|].
    split; [exact Hres|exact Hget].
Defined.

(** C2.  Every store a client can reach from a new one by [create], [get],
    [update] with a patch that has no key field, [delete], [list], [query],
    [transaction] and [clear] satisfies the invariant: each record is stored
    under its own key-field value, and no two records share a key-field
    value. *)
Theorem reachable_stores_keep_the_invariant {engine : Engine} (this : DataStore.t) :
  reachable this → invariant this.
Proof. intros Hreach. by apply invariant_well_formed, reachable_well_formed. Qed.

(** The store of the tests after its rolled-back transaction is reachable. *)
Lemma reachable_stores_keep_the_invariant_witness :
  invariant (snd (DataStore.transaction (engine := decimal_engine)
                    create_t2_then_throw products)).
Proof.
  apply (reachable_stores_keep_the_invariant (engine := decimal_engine)).
  apply (reachable_step products).
  - apply (reachable_step (DataStore.new "id")).
    + apply reachable_new.
    + apply step_create.
  - apply step_transaction. split; [exact I|]. intros completion. exact I.
Defined.

(** C3.  When the function given to [transaction] throws, [transaction]
    throws that same error, and the map of the store is the map it had when
    the transaction started. *)
Theorem transaction_rolls_back {engine : Engine} {R : Type}
    (fn : txn R) (this : DataStore.t) (err : error) :
  fst (DataStore.run fn this) = Thrown err →
  fst (DataStore.transaction fn this) = Thrown err ∧
  DataStore.map (snd (DataStore.transaction fn this)) = DataStore.map this.
Proof.
  intros Hthrown.
  by destruct (transaction_thrown fn this err Hthrown) as (Hres & Hmap & _).
Qed.

(** The rollback test: [t2] is created inside the transaction, which then
    throws; afterwards the store holds [t1] only. *)
Lemma transaction_rolls_back_witness :
  JsMap.keys (DataStore.map
     (snd (DataStore.run (engine := decimal_engine) create_t2_then_throw products)))
    = [VString "id_loyw3v28_1"; VString "t2"] ∧
  fst (DataStore.transaction (engine := decimal_engine) create_t2_then_throw products)
    = Thrown boom ∧
  DataStore.map (snd (DataStore.transaction (engine := decimal_engine)
                        create_t2_then_throw products))
    = DataStore.map products.
Proof.
  split; [reflexivity|].
  apply (transaction_rolls_back (engine := decimal_engine)).
  reflexivity.
Defined.

(** C4.  When the function given to [transaction] returns, [transaction]
    returns its value, and the store is the one the calls of the function
    produced one after the other, with nothing undone and nothing changed but
    the commit event sent to the logger.  What a call on the view produces
    is what the method of the store produces: the function run on the view
    leaves the store, and returns the value, that the same calls made on the
    store itself leave and return; so a transaction of one call leaves the
    map that the method of the store leaves. *)
Theorem transaction_commits {engine : Engine} {R : Type}
    (fn : txn R) (this : DataStore.t) (res : R) :
  fst (DataStore.run fn this) = Returned res →
  fst (DataStore.transaction fn this) = Returned res ∧
  DataStore.map (snd (DataStore.transaction fn this))
    = DataStore.map (snd (DataStore.run fn this)) ∧
  snd (DataStore.transaction fn this)
    = snd (DataStore.log Info "transaction.commit" (snd (DataStore.run fn this))) ∧
  fst (on_store fn this) = Returned res ∧
  DataStore.map (snd (DataStore.transaction fn this))
    = DataStore.map (snd (on_store fn this)) ∧
  (∀ (A : Type) (c : call A) (r : A),
     fst (method c this) = Returned r →
     fst (DataStore.transaction (once c) this) = Returned r ∧
     DataStore.map (snd (DataStore.transaction (once c) this))
     = DataStore.map (snd (method c this))).
Proof.
  intros Hreturned.
  assert (fst (DataStore.transaction fn this) = Returned res ∧
          snd (DataStore.transaction fn this)
          = snd (DataStore.log Info "transaction.commit"
                   (snd (DataStore.run fn this)))) as [Hres Hstore].
  { unfold DataStore.transaction.
    destruct (DataStore.run fn this) as [[res'|err] this']; [|done].
    cbn in *. by injection Hreturned as ->. }
  split; [done|]. split; [by rewrite Hstore|]. split; [done|].
  split; [by rewrite <- run_on_store|].
  split; [by rewrite Hstore, run_on_store|].
  intros A c r Hr. unfold DataStore.transaction.
  rewrite (run_on_store (once c) this). cbn [once on_store].
  destruct (method c this) as [completion this']. cbn [fst snd] in *.
  subst completion. done.
Qed.

(** A transaction that creates [t2] and a record without a key, raises the
    price of [t1] and deletes [t2] again: afterwards the store holds [t1] at
    its new price and the new record, and the function's value is returned. *)
Lemma transaction_commits_witness :
  fst (DataStore.transaction (engine := decimal_engine) restock products)
    = Returned true ∧
  DataStore.map (snd (DataStore.transaction (engine := decimal_engine)
                        restock products))
    = [(book_key,
        <["price" := VNumber (Num 25)]> (<["id" := book_key]> (product "t1" 10)));
       (VString "id_loyw3v28_2",
        <["id" := VString "id_loyw3v28_2"]> (product "t3" 30))] ∧
  DataStore.map (snd (DataStore.transaction (engine := decimal_engine)
                        (once (Update book_key {[ "price" := VNumber (Num 25) ]}))
                        products))
    = DataStore.map (snd (DataStore.update book_key
                            {[ "price" := VNumber (Num 25) ]} products)).
Proof.
  destruct (transaction_commits (engine := decimal_engine) restock products true)
    as (Hres & _ & _ & _ & Hmap & Honce); [reflexivity|].
  split; [exact Hres|]. split; [rewrite Hmap; reflexivity|].
  apply (Honce _ (Update book_key {[ "price" := VNumber (Num 25) ]})
               (<["price" := VNumber (Num 25)]>
                  (<["id" := book_key]> (product "t1" 10)))).
  reflexivity.
Defined.

(** C5.  [update] of a key that is there, with a patch that has no key
    field, returns a record that has the patch's value for every property of
    the patch and the previous record's value for every other property, the
    key field among them; in a store that satisfies the invariant that
    key-field value is the key.  The returned record replaces the previous
    one under the key, in its place, and no other entry changes. *)
Theorem update_merges_the_patch (key : value) (patch existing : record)
    (this : DataStore.t) :
  JsMap.get key (DataStore.map this) = Some existing →
  patch !! DataStore.keyName this = None →
  ∃ updated : record,
    fst (DataStore.update key patch this) = Returned updated ∧
    (invariant this → get_field updated (DataStore.keyName this) = key) ∧
    (∀ name v, patch !! name = Some v → updated !! name = Some v) ∧
    (∀ name, patch !! name = None → updated !! name = existing !! name) ∧
    DataStore.map (snd (DataStore.update key patch this))
      = JsMap.set key updated (DataStore.map this) ∧
    JsMap.get key (DataStore.map (snd (DataStore.update key patch this)))
      = Some updated ∧
    (∀ key', key' ≠ key →
       JsMap.get key' (DataStore.map (snd (DataStore.update key patch this)))
       = JsMap.get key' (DataStore.map this)) ∧
    JsMap.keys (DataStore.map (snd (DataStore.update key patch this)))
      = JsMap.keys (DataStore.map this).
Proof.
  intros Hget Hpatch.
  destruct (update_found key patch this existing Hget) as (Hres & Hmap & _).
  exists (patch ∪ existing). rewrite Hmap. repeat split.
  - done.
  - intros [Hown _]. unfold get_field. rewrite lookup_union_r by done.
    apply (Hown key existing). by apply JsMap_get_In.
  - intros name v Hv. by apply lookup_union_Some_l.
  - intros name Hnone. by apply lookup_union_r.
  - apply JsMap_get_set_eq.
  - intros key' Hne. by apply JsMap_get_set_ne.
  - apply JsMap_set_present. apply JsMap_has_get. by eexists.
Qed.

(** The update of the lifecycle test: the price of [t1] becomes 25. *)
Lemma update_merges_the_patch_witness :
  ∃ updated : record,
    fst (DataStore.update (VString "id_loyw3v28_1")
           {[ "price" := VNumber (Num 25) ]} products) = Returned updated ∧
    get_field updated "id" = VString "id_loyw3v28_1" ∧
    updated !! "price" = Some (VNumber (Num 25)) ∧
    updated !! "name" = Some (VString "t1").
Proof.
  destruct (update_merges_the_patch (VString "id_loyw3v28_1")
              {[ "price" := VNumber (Num 25) ]}
              (<["id" := VString "id_loyw3v28_1"]> (product "t1" 10)) products)
    as (updated & Hres & Hkey & Hpatched & Hkept & _).
  - reflexivity.
  - reflexivity.
  - exists updated. split; [exact Hres|]. split.
    + apply Hkey, invariant_well_formed, well_formed_create, well_formed_new.
    + split.
      * apply Hpatched. reflexivity.
      * rewrite Hkept by reflexivity. reflexivity.
Defined.

(** C6.  [update] throws the not-found error exactly when no record is
    stored under the key; it throws nothing else, and when it throws the map
    of the store is unchanged. *)
Theorem update_not_found_iff_absent (key : value) (patch : record)
    (this : DataStore.t) :
  (fst (DataStore.update key patch this) = Thrown NotFound
   ↔ JsMap.get key (DataStore.map this) = None) ∧
  (∀ err, fst (DataStore.update key patch this) = Thrown err →
          err = NotFound ∧
          DataStore.map (snd (DataStore.update key patch this))
          = DataStore.map this).
Proof.
  destruct (JsMap.get key (DataStore.map this)) as [existing|] eqn:Hget.
  - destruct (update_found key patch this existing Hget) as (Hres & _).
    rewrite Hres. split; [split; done|done].
  - rewrite update_missing by done. cbn. split; [done|]. by intros err [= <-].
Qed.

(** On the store of the tests: a key that is not there, and one that is. *)
Lemma update_not_found_iff_absent_witness :
  (fst (DataStore.update (VString "missing") ∅ products) = Thrown NotFound ∧
   DataStore.map (snd (DataStore.update (VString "missing") ∅ products))
   = DataStore.map products) ∧
  fst (DataStore.update (VString "id_loyw3v28_1") ∅ products) ≠ Thrown NotFound.
Proof.
  split.
  - destruct (update_not_found_iff_absent (VString "missing") ∅ products)
      as [Hiff Honly].
    assert (fst (DataStore.update (VString "missing") ∅ products)
            = Thrown NotFound) as Hthrown
      by (apply Hiff; reflexivity).
    split; [exact Hthrown|]. exact (proj2 (Honly NotFound Hthrown)).
  - intros Hthrown.
    apply (proj1 (update_not_found_iff_absent
                    (VString "id_loyw3v28_1") ∅ products)) in Hthrown.
    assert (JsMap.get (VString "id_loyw3v28_1") (DataStore.map products)
            = Some (<["id" := VString "id_loyw3v28_1"]> (product "t1" 10)))
      as Hget by reflexivity.
    rewrite Hget in Hthrown. discriminate Hthrown.
Defined.

Section ListFacts.
Context {engine : Engine}.

Lemma applySort_page options start size arr :
  DataStore.applySort (page options start size) arr
  = DataStore.applySort options arr.
Proof. done. Qed.

Lemma list_returns options this ordered :
  DataStore.applySort options (JsMap.values (DataStore.map this))
    = Returned ordered →
  fst (DataStore.list options this)
  = Returned (DataStore.applySlice options ordered).
Proof. intros Hsort. rewrite list_eq. cbn. by rewrite Hsort. Qed.

Lemma list_page options this ordered start size :
  DataStore.applySort options (JsMap.values (DataStore.map this))
    = Returned ordered →
  fst (DataStore.list (page options start size) this)
  = Returned (slice ordered (Num start) (Num (start + size))).
Proof.
  intros Hsort.
  rewrite (list_returns (page options start size) this ordered); [done|].
  by rewrite applySort_page.
Qed.
End ListFacts.

(** C7 (amended).  [get], [delete] and [clear] return for every store and
    every input: [get] the record or the absent result, [delete] whether the
    key was there.  [list] returns a sequence whenever the values of the sort
    field, if one is given, are no symbols; [query] returns a sequence
    whenever, besides, the filter meets the date fields of the records with
    date operands only, for [eq], [before], [after] and [between] alike.
    Whatever [list] or [query] throws is the [TypeError] of the run time. *)
Theorem gets_deletes_clears_return_and_lists_queries_when_comparable
    {engine : Engine} (this : DataStore.t) :
  (∀ key, fst (DataStore.get key this)
          = Returned (JsMap.get key (DataStore.map this))) ∧
  (∀ key, fst (DataStore.delete key this)
          = Returned (JsMap.has key (DataStore.map this))) ∧
  fst (DataStore.clear this) = Returned () ∧
  (∀ options,
     sortable options (JsMap.values (DataStore.map this)) →
     ∃ records, fst (DataStore.list options this) = Returned records) ∧
  (∀ filter options,
     fits_all filter (JsMap.values (DataStore.map this)) →
     sortable options (JsMap.values (DataStore.map this)) →
     ∃ records, fst (DataStore.query filter options this) = Returned records) ∧
  (∀ options err,
     fst (DataStore.list options this) = Thrown err → err = TypeError) ∧
  (∀ filter options err,
     fst (DataStore.query filter options this) = Thrown err → err = TypeError).
Proof.
  split; [done|]. split; [done|]. split; [done|].
  split; [|split; [|split; [intros ? ?; apply list_throws
                           |intros ? ? ?; apply query_throws]]].
  - intros options Hsortable.
    destruct (applySort_returns options _ Hsortable) as [ordered Hsort].
    eexists. by apply list_returns.
  - intros filter options Hfits Hsortable. rewrite query_eq. cbn.
    destruct (Array_filter_returns (λ item, DataStore.matchesFilter item filter)
                (JsMap.values (DataStore.map this))) as [matches Hmatches].
    { apply Forall_forall. intros r Hr%list_elem_of_In.
      apply matchesFilter_returns. intros f Hf. by apply (Hfits f). }
    rewrite Hmatches. cbn.
    destruct (applySort_returns options matches) as [ordered ->].
    { intros field Hfield r Hr. apply (Hsortable field Hfield).
      by apply (Array_filter_In _ _ matches r Hmatches). }
    cbn. by eexists.
Qed.

(** On the store of the filtering tests, sorted by name and filtered by a
    date range, both return. *)
Lemma gets_deletes_clears_return_and_lists_queries_when_comparable_witness :
  (∃ records, fst (DataStore.list (engine := decimal_engine)
                     (options_sortBy "name") people) = Returned records) ∧
  (∃ records, fst (DataStore.query (engine := decimal_engine)
                     (Some (eq_filter "createdAt" now_date))
                     (options_sortBy "age") people) = Returned records).
Proof.
  destruct (gets_deletes_clears_return_and_lists_queries_when_comparable
              (engine := decimal_engine) people)
    as (_ & _ & _ & Hlist & Hquery & _).
  split.
  - apply Hlist, sortable_check. reflexivity.
  - apply Hquery; [apply fits_all_check|apply sortable_check]; reflexivity.
Defined.

(** C7 as stated fails: [list] throws when it has to sort symbols, and
    [query] throws when a date field meets an [eq] or a [before] operand
    that is no date. *)
Lemma list_and_query_can_throw :
  fst (DataStore.list (engine := decimal_engine) (options_sortBy "id") symbols)
    = Thrown TypeError ∧
  fst (DataStore.query (engine := decimal_engine)
         (Some (eq_filter "createdAt" (VString "2023-11-14"))) None people)
    = Thrown TypeError ∧
  fst (DataStore.query (engine := decimal_engine)
         (Some (on_field "createdAt" (before_only (VString "2023-11-14"))))
         None people)
    = Thrown TypeError.
Proof. repeat split; reflexivity. Qed.

(** C8 (amended).  When the values of the sort field, if one is given, are no
    symbols, [list] returns the records in map order, or sorted when a sort
    field is given (in the order asked for, when the field holds integers),
    sliced by [slice(offset, offset + limit)] where the offset defaults to 0
    and the limit to the number of records, and where [slice] drops the
    digits after the point of its two indices.  With an offset that is an
    integer (or absent) and a limit that is an integer and not negative it
    returns at most that many records; with an offset and a limit that are
    integers and not negative it returns the [limit] records that follow the
    first [offset]; without a limit, all that follow; the page after the
    first [size] records continues that page; and an offset, integer or not,
    at or beyond the number of records gives the empty sequence. *)
Theorem list_pages_the_ordered_records {engine : Engine}
    (options : option QueryOptions) (this : DataStore.t) :
  sortable options (JsMap.values (DataStore.map this)) →
  ∃ ordered : list record,
    DataStore.applySort options (JsMap.values (DataStore.map this))
      = Returned ordered ∧
    Permutation (JsMap.values (DataStore.map this)) ordered ∧
    (options ≫= sortBy = None → ordered = JsMap.values (DataStore.map this)) ∧
    (∀ field, options ≫= sortBy = Some field → field ≠ "" →
       (∀ r, In r (JsMap.values (DataStore.map this)) →
             ∃ z, get_field r field = VNumber (Num z)) →
       StronglySorted (in_order options field) ordered) ∧
    fst (DataStore.list options this)
      = Returned
          (slice ordered
             (default (Num 0) (options ≫= offset))
             (number_add
                (default (Num 0) (options ≫= offset))
                (default (Num (Z.of_nat (length ordered))) (options ≫= limit)))) ∧
    (∀ o n, default (Num 0) (options ≫= offset) = Num o →
       options ≫= limit = Some (Num n) → 0 ≤ n →
       ∃ records, fst (DataStore.list options this) = Returned records ∧
                  (length records ≤ Z.to_nat n)%nat) ∧
    (∀ start size, 0 ≤ start → 0 ≤ size →
       fst (DataStore.list (page options start size) this)
       = Returned (take (Z.to_nat size) (drop (Z.to_nat start) ordered))) ∧
    (∀ start, 0 ≤ start →
       default (Num 0) (options ≫= offset) = Num start →
       options ≫= limit = None →
       fst (DataStore.list options this)
       = Returned (drop (Z.to_nat start) ordered)) ∧
    (∀ size size', 0 ≤ size → 0 ≤ size' →
       ∃ first next,
         fst (DataStore.list (page options 0 size) this) = Returned first ∧
         fst (DataStore.list (page options size size') this) = Returned next ∧
         fst (DataStore.list (page options 0 (size + size')) this)
         = Returned (first ++ next)%list) ∧
    (∀ start, options ≫= offset = Some start →
       number_leb (Num (Z.of_nat (length (JsMap.values (DataStore.map this)))))
                  start = true →
       fst (DataStore.list options this) = Returned []).
Proof.
  intros Hsortable.
  destruct (applySort_returns options _ Hsortable) as [ordered Hsort].
  pose proof (applySort_Permutation _ _ _ Hsort) as Hperm.
  exists ordered. split; [done|]. split; [done|]. split.
  { intros Hnone. rewrite applySort_unsorted in Hsort by done. congruence. }
  split.
  { intros field Hfield Hname Hnum.
    apply (applySort_numeric options field
             (JsMap.values (DataStore.map this)) ordered Hfield Hname); [|done].
    apply Forall_forall. intros r Hr%list_elem_of_In. by apply Hnum. }
  rewrite (list_returns options this ordered Hsort). unfold DataStore.applySlice.
  split; [done|]. split.
  { intros o n -> -> Hn. eexists. split; [done|]. cbn [default].
    by apply slice_length_le. }
  assert (∀ start size, 0 ≤ start → 0 ≤ size →
            fst (DataStore.list (page options start size) this)
            = Returned (take (Z.to_nat size) (drop (Z.to_nat start) ordered)))
    as Hpage.
  { intros start size Hstart Hsize. rewrite (list_page options this ordered) by done.
    f_equal. by apply (slice_take_drop ordered start size). }
  split; [done|]. split.
  { intros start Hstart -> ->. cbn [default]. f_equal.
    rewrite (slice_take_drop ordered start (Z.of_nat (length ordered))) by lia.
    apply take_ge. rewrite length_drop. lia. }
  split.
  { intros size size' Hsize Hsize'. eexists _, _.
    rewrite !Hpage by lia. split; [done|]. split; [done|]. f_equal.
    rewrite !drop_0. replace (Z.to_nat (size + size'))
      with (Z.to_nat size + Z.to_nat size')%nat by lia.
    by rewrite take_take_drop. }
  intros start -> Hbeyond. cbn [default]. f_equal. apply slice_beyond.
  by rewrite <- (Permutation_length Hperm).
Qed.

(** The pagination test: sorted by age, the first page of two holds Alice
    and Bob. *)
Lemma list_pages_the_ordered_records_witness :
  fst (DataStore.list (engine := decimal_engine)
         (page (options_sortBy "age") 0 2) people)
    = Returned [stored_alice; stored_bob] ∧
  fst (DataStore.list (engine := decimal_engine)
         (page (options_sortBy "age") 2 2) people)
    = Returned [stored_charlie] ∧
  fst (DataStore.list (engine := decimal_engine)
         (page (options_sortBy "age") 3 2) people)
    = Returned [].
Proof.
  destruct (list_pages_the_ordered_records (engine := decimal_engine)
              (options_sortBy "age") people)
    as (ordered & Hsort & _ & _ & _ & _ & _ & Hpage & _).
  - apply sortable_check. reflexivity.
  - assert (DataStore.applySort (engine := decimal_engine) (options_sortBy "age")
              (JsMap.values (DataStore.map people))
            = Returned [stored_alice; stored_bob; stored_charlie]) as Hcalc
      by reflexivity.
    rewrite Hcalc in Hsort. injection Hsort as <-.
    rewrite !Hpage by lia. repeat split.
Defined.

(** C8 as stated fails: a negative limit gives more records than the limit,
    and so does a limit of 1.5 after an offset of 0.5 (the slice from 0.5
    to 2 holds two records); an offset and a limit whose sum is beyond the
    number of records still give the records from the offset on; and sorting
    symbols throws whatever the offset. *)
Lemma list_limit_and_offset_counterexample :
  fst (DataStore.list (engine := decimal_engine) (options_limit (-1)) people)
    = Returned [stored_alice; stored_bob] ∧
  fst (DataStore.list (engine := decimal_engine)
         (Some {| limit := Some (Frac 1 1); offset := Some (Frac 0 1);
                  sortBy := None; sortDir := None |}) people)
    = Returned [stored_alice; stored_bob] ∧
  fst (DataStore.list (engine := decimal_engine) (page None 2 5) people)
    = Returned [stored_charlie] ∧
  fst (DataStore.list (engine := decimal_engine)
         (page (options_sortBy "id") 5 1) symbols)
    = Thrown TypeError.
Proof. repeat split; reflexivity. Qed.

Lemma filter_Permutation_list {A} (p : A → bool) (l l' : list A) :
  Permutation l l' → Permutation (List.filter p l) (List.filter p l').
Proof.
  induction 1 as [|x l l' _ IH|x y l|l l' l'' _ IH1 _ IH2]; simpl.
  - done.
  - destruct (p x); [by constructor|done].
  - destruct (p x), (p y); try done. apply perm_swap.
  - by rewrite IH1.
Qed.

Section BetweenFacts.
Context {engine : Engine}.

Lemma between_matches item field low high v :
  get_field item field = VNumber v →
  DataStore.matchesFilter item (Some (between_filter field low high))
  = Returned (number_leb low v && number_leb v high).
Proof.
  intros Hv. cbn. rewrite Hv. cbn.
  by destruct (number_leb low v && number_leb v high).
Qed.

Lemma query_unsorted_all (filter : option Filter) (this : DataStore.t)
    (keep : record → bool) :
  (∀ r, In r (JsMap.values (DataStore.map this)) →
        DataStore.matchesFilter r filter = Returned (keep r)) →
  fst (DataStore.query filter None this)
  = Returned (List.filter keep (JsMap.values (DataStore.map this))).
Proof.
  intros Hkeep. rewrite query_eq. cbn [fst].
  assert (Array_filter (λ item, DataStore.matchesFilter item filter)
            (JsMap.values (DataStore.map this))
          = Returned (List.filter keep (JsMap.values (DataStore.map this))))
    as ->.
  { induction (JsMap.values (DataStore.map this)) as [|r rest IH]; [done|].
    simpl. rewrite (Hkeep r) by by left. cbn.
    rewrite IH by (intros r' Hr'; apply Hkeep; by right). cbn.
    by destruct (keep r). }
  cbn [mbind outcome_bind]. rewrite applySort_unsorted by done.
  cbn [mbind outcome_bind]. unfold DataStore.applySlice.
  change (None ≫= offset) with (@None number).
  change (None ≫= limit) with (@None number). cbn [default]. f_equal.
  rewrite (slice_take_drop _ 0 _) by lia.
  rewrite drop_0. apply take_ge. lia.
Qed.
End BetweenFacts.

(** C9.  On a numeric field, [between: [low, high]] matches exactly when
    [low <= value] and [value <= high]; and in a store holding exactly Alice
    (25), Bob (35) and Charlie (45), in any order, the query for an age
    between 30 and 40 returns exactly the record of Bob. *)
Theorem between_is_inclusive {engine : Engine} :
  (∀ (item : record) field low high v,
     get_field item field = VNumber v →
     DataStore.matchesFilter item (Some (between_filter field low high))
     = Returned (number_leb low v && number_leb v high)) ∧
  (∀ (item : record) field (low high v : Z),
     get_field item field = VNumber (Num v) →
     DataStore.matchesFilter item
       (Some (between_filter field (Num low) (Num high)))
     = Returned (bool_decide (low ≤ v ∧ v ≤ high))) ∧
  (∀ (this : DataStore.t) (a b c : record),
     Permutation (JsMap.values (DataStore.map this)) [a; b; c] →
     get_field a "age" = VNumber (Num 25) →
     get_field b "age" = VNumber (Num 35) →
     get_field c "age" = VNumber (Num 45) →
     fst (DataStore.query (Some (between_filter "age" (Num 30) (Num 40)))
                          None this) = Returned [b]).
Proof.
  split; [apply between_matches|]. split.
  - intros item field low high v Hv. rewrite (between_matches _ _ _ _ _ Hv).
    f_equal. rewrite !number_leb_Num. apply eq_true_iff_eq.
    rewrite andb_true_iff, bool_decide_eq_true, !Z.leb_le. done.
  - intros this a b c Hvalues Ha Hb Hc.
    set (keep := λ r : record, bool_decide (get_field r "age" = VNumber (Num 35))).
    rewrite (query_unsorted_all _ this keep).
    + f_equal. apply Permutation_length_1_inv. symmetry.
      rewrite (filter_Permutation_list keep _ _ Hvalues). unfold keep. simpl.
      rewrite Ha, Hb, Hc. reflexivity.
    + intros r Hr. apply (Permutation_in _ Hvalues) in Hr.
      unfold keep.
      destruct Hr as [<-|[<-|[<-|[]]]];
        [rewrite (between_matches _ _ _ _ _ Ha), Ha
        |rewrite (between_matches _ _ _ _ _ Hb), Hb
        |rewrite (between_matches _ _ _ _ _ Hc), Hc]; reflexivity.
Qed.

(** The numeric-range test of [tests/filtering.test.ts]. *)
Lemma between_is_inclusive_witness :
  fst (DataStore.query (engine := decimal_engine)
         (Some (between_filter "age" (Num 30) (Num 40))) None people)
  = Returned [stored_bob].
Proof.
  destruct (between_is_inclusive (engine := decimal_engine)) as (_ & _ & Hquery).
  apply (Hquery people stored_alice stored_bob stored_charlie);
    reflexivity.
Defined.

(** C10.  There is a store, a key in it and a patch that carries the key
    field with another value such that [update] returns, and afterwards the
    record stored under the key has the other value as its key-field value,
    [get] of that other value finds nothing, and the invariant is broken. *)
Theorem update_with_a_key_in_the_patch_breaks_the_invariant :
  ∃ (this : DataStore.t) (key key' : value) (patch updated : record),
    invariant this ∧
    is_Some (JsMap.get key (DataStore.map this)) ∧
    patch !! DataStore.keyName this = Some key' ∧
    key' ≠ key ∧
    fst (DataStore.update key patch this) = Returned updated ∧
    JsMap.get key (DataStore.map (snd (DataStore.update key patch this)))
      = Some updated ∧
    get_field updated (DataStore.keyName this) = key' ∧
    fst (DataStore.get key' (snd (DataStore.update key patch this)))
      = Returned None ∧
    ¬ invariant (snd (DataStore.update key patch this)).
Proof.
  exists products, (VString "id_loyw3v28_1"), (VString "other"),
         {[ "id" := VString "other" ]},
         ({[ "id" := VString "other" ]} ∪
          <["id" := VString "id_loyw3v28_1"]> (product "t1" 10)).
  split; [apply invariant_well_formed, well_formed_create, well_formed_new|].
  split; [by eexists|].
  split; [reflexivity|].
  split; [discriminate|].
  split; [reflexivity|].
  split; [reflexivity|].
  split; [reflexivity|].
  split; [reflexivity|].
  intros [Hown _].
  specialize (Hown (VString "id_loyw3v28_1")
                ({[ "id" := VString "other" ]} ∪
                 <["id" := VString "id_loyw3v28_1"]> (product "t1" 10))).
  assert (VString "other" = VString "id_loyw3v28_1") as Heq; [|discriminate].
  rewrite <- Hown; [reflexivity|]. by apply JsMap_get_In.
Qed.

(** * Further properties of the code *)

Lemma get_after_create_witness :
  fst (DataStore.create t0 book (DataStore.new "id"))
    = Returned (<["id" := book_key]> book) ∧
  fst (DataStore.get (get_field (<["id" := book_key]> book) "id")
         (snd (DataStore.create t0 book (DataStore.new "id"))))
    = Returned (Some (<["id" := book_key]> book)).
Proof.
  split; [reflexivity|].
  apply (get_after_create t0 book (DataStore.new "id")). reflexivity.
Defined.

(** ** [Map] once more *)

Lemma JsMap_set_same key v m : JsMap.get key m = Some v → JsMap.set key v m = m.
Proof.
  induction m as [|[k v'] m IH]; simpl; [done|].
  destruct (SameValueZero k key) eqn:E; [by intros [= ->]|].
  intros Hget. by rewrite IH.
Qed.

Lemma JsMap_set_set key v v' m :
  JsMap.set key v' (JsMap.set key v m) = JsMap.set key v' m.
Proof.
  induction m as [|[k w] m IH]; simpl.
  - by rewrite SameValueZero_refl.
  - destruct (SameValueZero k key) eqn:E; simpl; rewrite E; [done|by rewrite IH].
Qed.

Lemma JsMap_delete_absent key m :
  JsMap.get key m = None → snd (JsMap.delete key m) = m.
Proof.
  intros Hnone%JsMap_get_None. unfold JsMap.delete. cbn [snd].
  induction m as [|[k v] m IH]; [done|].
  simpl in *. rewrite SameValueZero_ne by (intros ->; tauto).
  cbn. f_equal. apply IH. tauto.
Qed.

Lemma JsMap_delete_app key m m' :
  snd (JsMap.delete key (m ++ m')) = snd (JsMap.delete key m) ++ snd (JsMap.delete key m').
Proof. unfold JsMap.delete. cbn [snd]. apply List.filter_app. Qed.

(** X2.  Round trip of [create] and [delete].  When [create] returns a
    record, deleting the key of that record reports that the key was there
    and leaves the map exactly as it was before the [create]: the same
    entries in the same order. *)
Theorem delete_undoes_create (now : Z) (item created : record) (this : DataStore.t) :
  fst (DataStore.create now item this) = Returned created →
  let key := get_field created (DataStore.keyName this) in
  fst (DataStore.delete key (snd (DataStore.create now item this))) = Returned true ∧
  DataStore.map (snd (DataStore.delete key (snd (DataStore.create now item this))))
  = DataStore.map this.
Proof.
  intros Hcreated key.
  destruct (JsMap.has (resolvedKey now item this) (DataStore.map this)) eqn:Hhas.
  { destruct (create_duplicate now item this Hhas) as (Hthrown & _). congruence. }
  destruct (create_fresh now item this Hhas) as (Hres & Hmap & Hname).
  rewrite Hres in Hcreated. injection Hcreated as <-.
  assert (key = resolvedKey now item this) as ->.
  { unfold key, get_field. by rewrite lookup_insert_eq. }
  destruct (delete_eq (resolvedKey now item this)
              (snd (DataStore.create now item this))) as (-> & -> & _).
  rewrite Hmap. split.
  - f_equal. apply JsMap_has_get. rewrite JsMap_get_set_eq. by eexists.
  - rewrite JsMap_set_absent by done. rewrite JsMap_delete_app.
    rewrite JsMap_delete_absent by by apply JsMap_has_false.
    unfold JsMap.delete. cbn. rewrite SameValueZero_refl. cbn. apply app_nil_r.
Qed.

Lemma delete_undoes_create_witness :
  fst (DataStore.create t0 t2 products) = Returned t2 ∧
  fst (DataStore.delete (get_field t2 "id") (snd (DataStore.create t0 t2 products)))
    = Returned true ∧
  DataStore.map
    (snd (DataStore.delete (get_field t2 "id") (snd (DataStore.create t0 t2 products))))
    = DataStore.map products.
Proof.
  split; [reflexivity|].
  apply (delete_undoes_create t0 t2 t2 products). reflexivity.
Defined.

(** ** [delete], [clear] and [update] *)

(** X3.  [delete] returns whether the key was there, removes that key and
    no other: every other key keeps its record and its place.  Deleting a
    key that is not there leaves the map as it was, and a second [delete] of
    the same key returns [false]. *)
Theorem delete_removes_only_the_key (key : value) (this : DataStore.t) :
  let after := snd (DataStore.delete key this) in
  fst (DataStore.delete key this)
    = Returned (bool_decide (is_Some (JsMap.get key (DataStore.map this)))) ∧
  JsMap.get key (DataStore.map after) = None ∧
  (∀ key', key' ≠ key →
     JsMap.get key' (DataStore.map after) = JsMap.get key' (DataStore.map this)) ∧
  JsMap.keys (DataStore.map after)
    = List.filter (λ k, bool_decide (k ≠ key)) (JsMap.keys (DataStore.map this)) ∧
  (JsMap.get key (DataStore.map this) = None →
     DataStore.map after = DataStore.map this) ∧
  fst (DataStore.delete key after) = Returned false.
Proof.
  cbv zeta. destruct (delete_eq key this) as (Hres & Hmap & _).
  rewrite Hres, Hmap. repeat split.
  - f_equal. unfold JsMap.has.
    destruct (JsMap.get key (DataStore.map this));
      [by rewrite bool_decide_eq_true_2|by rewrite bool_decide_eq_false_2; [|intros []]].
  - apply JsMap_get_delete_eq.
  - intros key' Hne. by apply JsMap_get_delete_ne.
  - rewrite JsMap_keys_delete. apply List.filter_ext. intros k.
    unfold SameValueZero. by rewrite bool_decide_not.
  - apply JsMap_delete_absent.
  - destruct (delete_eq key (snd (DataStore.delete key this))) as (-> & _).
    f_equal. apply JsMap_has_false. rewrite Hmap. apply JsMap_get_delete_eq.
Qed.

Section EmptyStore.
Context {engine : Engine}.

Lemma list_empty options this :
  DataStore.map this = [] → fst (DataStore.list options this) = Returned [].
Proof.
  intros Hempty. rewrite list_eq, Hempty. cbn [fst JsMap.values List.map].
  assert (DataStore.applySort options [] = Returned []) as ->.
  { unfold DataStore.applySort. destruct (options ≫= sortBy); [|done].
    case_bool_decide; [done|]. apply Array_sort_nil. }
  cbn. unfold DataStore.applySlice, slice. by rewrite drop_nil, take_nil.
Qed.

Lemma query_empty filter options this :
  DataStore.map this = [] → fst (DataStore.query filter options this) = Returned [].
Proof.
  intros Hempty. rewrite query_eq, Hempty.
  cbn [fst JsMap.values List.map Array_filter mbind outcome_bind].
  assert (DataStore.applySort options [] = Returned []) as ->.
  { unfold DataStore.applySort. destruct (options ≫= sortBy); [|done].
    case_bool_decide; [done|]. apply Array_sort_nil. }
  cbn. unfold DataStore.applySlice, slice. by rewrite drop_nil, take_nil.
Qed.
End EmptyStore.

(** X4.  After [clear] the map is empty while [autoIdSeed] is not reset:
    [get] finds nothing, [delete] returns [false], [update] throws
    [NotFound], [list] and [query] return the empty array with any options
    and any filter, and every [create] returns, also one of a key that was
    there before. *)
Theorem clear_empties_the_store {engine : Engine} (this : DataStore.t) :
  let after := snd (DataStore.clear this) in
  DataStore.map after = [] ∧
  DataStore.autoIdSeed after = DataStore.autoIdSeed this ∧
  (∀ key, fst (DataStore.get key after) = Returned None) ∧
  (∀ key, fst (DataStore.delete key after) = Returned false) ∧
  (∀ key patch, fst (DataStore.update key patch after) = Thrown NotFound) ∧
  (∀ options, fst (DataStore.list options after) = Returned []) ∧
  (∀ filter options, fst (DataStore.query filter options after) = Returned []) ∧
  (∀ now item,
     fst (DataStore.create now item after)
     = Returned (<[DataStore.keyName this := resolvedKey now item after]> item)).
Proof.
  cbv zeta. split; [done|]. split; [done|]. split; [done|]. split; [done|].
  split; [done|]. split; [intros; by apply list_empty|].
  split; [intros; by apply query_empty|].
  intros now item.
  by destruct (create_fresh now item (snd (DataStore.clear this))) as (-> & _).
Qed.

(** X5.  Two updates of a key that is there amount to one update with the
    two patches merged, the later patch winning: the same record is returned
    and the same map is left.  Updating twice with the same patch is the
    same as once, and the empty patch returns the record as it is and leaves
    the map as it was. *)
Theorem update_patches_compose (key : value) (patch patch' existing : record)
    (this : DataStore.t) :
  JsMap.get key (DataStore.map this) = Some existing →
  let once := snd (DataStore.update key patch this) in
  let twice := snd (DataStore.update key patch' once) in
  let merged := snd (DataStore.update key (patch' ∪ patch) this) in
  fst (DataStore.update key patch' once)
    = fst (DataStore.update key (patch' ∪ patch) this) ∧
  DataStore.map twice = DataStore.map merged ∧
  DataStore.map (snd (DataStore.update key patch once)) = DataStore.map once ∧
  fst (DataStore.update key ∅ this) = Returned existing ∧
  DataStore.map (snd (DataStore.update key ∅ this)) = DataStore.map this.
Proof.
  intros Hget. cbv zeta.
  destruct (update_found key patch this existing Hget) as (_ & Hmap1 & _).
  assert (JsMap.get key (DataStore.map (snd (DataStore.update key patch this)))
          = Some (patch ∪ existing)) as Hget1
    by (rewrite Hmap1; apply JsMap_get_set_eq).
  destruct (update_found key patch' _ _ Hget1) as (-> & -> & _).
  destruct (update_found key (patch' ∪ patch) this existing Hget) as (-> & -> & _).
  destruct (update_found key patch _ _ Hget1) as (_ & -> & _).
  destruct (update_found key ∅ this existing Hget) as (-> & -> & _).
  rewrite Hmap1, !JsMap_set_set, (assoc_L (∪)), (left_id_L ∅ (∪)).
  repeat split; try done.
  - by rewrite (assoc_L (∪)), (idemp_L (∪)).
  - by apply JsMap_set_same.
Qed.

Lemma update_patches_compose_witness :
  JsMap.get book_key (DataStore.map products)
    = Some (<["id" := book_key]> (product "t1" 10)) ∧
  fst (DataStore.update book_key {[ "name" := VString "t1b" ]}
         (snd (DataStore.update book_key {[ "price" := VNumber (Num 25) ]} products)))
  = fst (DataStore.update book_key
           ({[ "name" := VString "t1b" ]} ∪ {[ "price" := VNumber (Num 25) ]})
           products).
Proof.
  split; [reflexivity|].
  destruct (update_patches_compose book_key {[ "price" := VNumber (Num 25) ]}
              {[ "name" := VString "t1b" ]}
              (<["id" := book_key]> (product "t1" 10)) products) as [Htwice _];
    [reflexivity|exact Htwice].
Defined.

(** ** What no operation does *)

Lemma increment_range n : 0 < n ≤ 2 ^ 53 → n ≤ DataStore.increment n ≤ 2 ^ 53.
Proof.
  intros Hn. destruct (decide (n = 2 ^ 53)) as [->|Hless].
  - by rewrite increment_stuck.
  - rewrite increment_below; lia.
Qed.

Lemma grows_refl this : seed_in_range this → grows this this.
Proof.
  intros Hseed. split; [done|]. split; [unfold seed_in_range in Hseed; lia|].
  exists []. by rewrite app_nil_r.
Qed.

Lemma grows_trans this this' this'' :
  grows this this' → grows this' this'' → grows this this''.
Proof.
  intros (Hk & Hs & events & Hl) (Hk' & Hs' & events' & Hl').
  split; [congruence|]. split; [lia|].
  exists (events ++ events')%list. by rewrite Hl', Hl, app_assoc.
Qed.

Lemma grows_seed_in_range this this' :
  seed_in_range this → grows this this' → seed_in_range this'.
Proof. unfold seed_in_range. intros Hseed (_ & Hs & _). lia. Qed.

(** The store that [create] leaves behind. *)
Lemma create_state now item this :
  let key := resolvedKey now item this in
  let added := negb (JsMap.has key (DataStore.map this)) in
  snd (DataStore.create now item this)
  = {| DataStore.map :=
         if added
         then JsMap.set key (<[DataStore.keyName this := key]> item)
                        (DataStore.map this)
         else DataStore.map this;
       DataStore.logger :=
         if added then (DataStore.logger this ++ [(Info, "create")])%list
         else DataStore.logger this;
       DataStore.autoIdSeed :=
         if keyless (DataStore.keyName this) item
         then DataStore.increment (DataStore.autoIdSeed this)
         else DataStore.autoIdSeed this;
       DataStore.keyName := DataStore.keyName this |}.
Proof.
  unfold resolvedKey, generatedId, keyless. unfold_store. destruct this as [m l s k].
  cbn [DataStore.map DataStore.logger DataStore.autoIdSeed DataStore.keyName].
  destruct (get_field item k); cbn;
    match goal with
    | |- context [JsMap.has ?key m] => destruct (JsMap.has key m)
    end; reflexivity.
Qed.

Lemma grows_create now item this :
  seed_in_range this → grows this (snd (DataStore.create now item this)).
Proof.
  intros Hseed. rewrite create_state. cbv zeta. split; [done|]. split.
  - cbn. pose proof (increment_range _ Hseed).
    unfold seed_in_range in Hseed. destruct (keyless _ _); lia.
  - cbn. destruct (negb _); [by eexists|]. exists []. by rewrite app_nil_r.
Qed.

Lemma grows_get key this :
  seed_in_range this → grows this (snd (DataStore.get key this)).
Proof.
  unfold grows, seed_in_range. unfold_store. cbn. intros Hseed.
  split; [done|]. split; [lia|]. by eexists.
Qed.

Lemma grows_update key patch this :
  seed_in_range this → grows this (snd (DataStore.update key patch this)).
Proof.
  intros Hseed. unfold grows. unfold_store.
  destruct (JsMap.get key (DataStore.map this)); cbn.
  - split; [done|]. split; [unfold seed_in_range in Hseed; lia|]. by eexists.
  - by apply grows_refl.
Qed.

Lemma grows_delete key this :
  seed_in_range this → grows this (snd (DataStore.delete key this)).
Proof.
  unfold grows, seed_in_range. unfold_store. cbn. intros Hseed.
  split; [done|]. split; [lia|]. by eexists.
Qed.

Lemma grows_clear this :
  seed_in_range this → grows this (snd (DataStore.clear this)).
Proof.
  unfold grows, seed_in_range. unfold_store. cbn. intros Hseed.
  split; [done|]. split; [lia|]. by eexists.
Qed.

Section Grows.
Context {engine : Engine}.

Lemma grows_method {A} (c : call A) this :
  seed_in_range this → grows this (snd (method c this)).
Proof.
  intros Hseed. destruct c; cbn [method].
  - by apply grows_create.
  - by apply grows_get.
  - by apply grows_update.
  - by apply grows_delete.
  - rewrite list_same_store. by apply grows_refl.
  - rewrite query_same_store. by apply grows_refl.
Qed.

Lemma grows_on_store {R} (fn : txn R) this :
  seed_in_range this → grows this (snd (on_store fn this)).
Proof.
  revert this. induction fn as [res|err|A c k IH]; intros this Hseed;
    [by apply grows_refl..|].
  cbn [on_store].
  pose proof (grows_method c this Hseed) as Hcall.
  destruct (method c this) as [completion this']. cbn [snd] in Hcall.
  apply (grows_trans _ this'); [done|].
  apply IH. by apply (grows_seed_in_range this).
Qed.

(** What [transaction] leaves when the function has thrown: the map it
    started with, and otherwise the store as the function left it, with
    the event of the rollback added. *)
Lemma rollback_state {R} (fn : txn R) this err :
  fst (on_store fn this) = Thrown err →
  snd (DataStore.transaction fn this)
  = {| DataStore.map := DataStore.map this;
       DataStore.logger :=
         (DataStore.logger (snd (on_store fn this))
          ++ [(Warn, "transaction.rollback")])%list;
       DataStore.autoIdSeed := DataStore.autoIdSeed (snd (on_store fn this));
       DataStore.keyName := DataStore.keyName (snd (on_store fn this)) |}.
Proof.
  intros Hthrown. unfold DataStore.transaction.
  rewrite (run_on_store fn this).
  destruct (on_store fn this) as [[res|err'] this']; [done|]. reflexivity.
Qed.

(** And when it has returned: the store as the function left it, with the
    event of the commit added. *)
Lemma commit_state {R} (fn : txn R) this res :
  fst (on_store fn this) = Returned res →
  snd (DataStore.transaction fn this)
  = {| DataStore.map := DataStore.map (snd (on_store fn this));
       DataStore.logger :=
         (DataStore.logger (snd (on_store fn this))
          ++ [(Info, "transaction.commit")])%list;
       DataStore.autoIdSeed := DataStore.autoIdSeed (snd (on_store fn this));
       DataStore.keyName := DataStore.keyName (snd (on_store fn this)) |}.
Proof.
  intros Hreturned. unfold DataStore.transaction.
  rewrite (run_on_store fn this).
  destruct (on_store fn this) as [[res'|err] this']; [|done]. reflexivity.
Qed.

Lemma grows_transaction {R} (fn : txn R) this :
  seed_in_range this → grows this (snd (DataStore.transaction fn this)).
Proof.
  intros Hseed. pose proof (grows_on_store fn this Hseed) as (Hk & Hs & events & Hl).
  destruct (fst (on_store fn this)) as [res|err] eqn:E.
  - rewrite (commit_state fn this res E). split; [done|]. split; [done|].
    exists (events ++ [(Info, "transaction.commit")])%list.
    cbn. by rewrite Hl, app_assoc.
  - rewrite (rollback_state fn this err E). split; [done|]. split; [done|].
    exists (events ++ [(Warn, "transaction.rollback")])%list.
    cbn. by rewrite Hl, app_assoc.
Qed.
End Grows.

(** X6.  In a store whose seed is one a store gets to (from 1 up to
    [2 ^ 53]), no operation changes the name of the key field, lowers
    [autoIdSeed] or takes back an event the logger has received; [list] and
    [query] change nothing at all, and [get] does not touch the map.
    A [create] that has to generate the key sets the seed to its increment,
    whether it then returns or throws.  When the function given to
    [transaction] throws, the rollback puts back the map and nothing else:
    the seed is the one the calls of the function left, and the log is the
    one they left with the event of the rollback added.  So after the
    rollback of a transaction that created a record without a key, the map
    is the one before and the seed is one higher. *)
Theorem operations_only_add_to_the_record_of_the_store {engine : Engine}
    (this : DataStore.t) :
  seed_in_range this →
  (∀ now item, grows this (snd (DataStore.create now item this))) ∧
  (∀ key, grows this (snd (DataStore.get key this))) ∧
  (∀ key patch, grows this (snd (DataStore.update key patch this))) ∧
  (∀ key, grows this (snd (DataStore.delete key this))) ∧
  (∀ options, snd (DataStore.list options this) = this) ∧
  (∀ filter options, snd (DataStore.query filter options this) = this) ∧
  (∀ key, DataStore.map (snd (DataStore.get key this)) = DataStore.map this) ∧
  (∀ R (fn : txn R), grows this (snd (DataStore.transaction fn this))) ∧
  grows this (snd (DataStore.clear this)) ∧
  (∀ now item,
     DataStore.autoIdSeed (snd (DataStore.create now item this))
     = if keyless (DataStore.keyName this) item
       then DataStore.increment (DataStore.autoIdSeed this)
       else DataStore.autoIdSeed this) ∧
  (∀ R (fn : txn R) err,
     fst (on_store fn this) = Thrown err →
     DataStore.map (snd (DataStore.transaction fn this)) = DataStore.map this ∧
     DataStore.autoIdSeed (snd (DataStore.transaction fn this))
       = DataStore.autoIdSeed (snd (on_store fn this)) ∧
     DataStore.logger (snd (DataStore.transaction fn this))
       = (DataStore.logger (snd (on_store fn this))
          ++ [(Warn, "transaction.rollback")])%list) ∧
  (∀ now item err,
     keyless (DataStore.keyName this) item = true →
     DataStore.autoIdSeed this < 2 ^ 53 →
     let rolled_back :=
       snd (DataStore.transaction
              (Call (Create now item) (λ _, Throw (R := unit) err)) this) in
     DataStore.map rolled_back = DataStore.map this ∧
     DataStore.autoIdSeed rolled_back = DataStore.autoIdSeed this + 1).
Proof.
  intros Hseed.
  split; [intros; by apply grows_create|]. split; [intros; by apply grows_get|].
  split; [intros; by apply grows_update|].
  split; [intros; by apply grows_delete|].
  split; [intros; apply list_same_store|].
  split; [intros; apply query_same_store|].
  split; [done|]. split; [intros; by apply grows_transaction|].
  split; [by apply grows_clear|].
  split; [intros; by rewrite create_state|].
  split; [intros R fn err Hthrown; by rewrite (rollback_state fn this err)|].
  intros now item err Hkeyless Hbelow. cbv zeta.
  rewrite (rollback_state _ this err).
  - cbn [DataStore.map DataStore.autoIdSeed on_store method]. split; [done|].
    destruct (DataStore.create now item this) as [completion this'] eqn:E.
    cbn [snd on_store DataStore.throw].
    replace this' with (snd (DataStore.create now item this)) by by rewrite E.
    rewrite create_state. cbn [DataStore.autoIdSeed]. rewrite Hkeyless.
    apply increment_below. unfold seed_in_range in Hseed. lia.
  - cbn [on_store method].
    by destruct (DataStore.create now item this) as [completion this'].
Qed.

(** The rollback test with a record that has no key: [t3] is gone after the
    rollback, and the seed it used up is not given back. *)
Lemma operations_only_add_to_the_record_of_the_store_witness :
  seed_in_range products ∧
  DataStore.map (snd (DataStore.transaction (engine := decimal_engine)
                        create_t3_then_throw products))
    = DataStore.map products ∧
  DataStore.autoIdSeed products = 2 ∧
  DataStore.autoIdSeed (snd (DataStore.transaction (engine := decimal_engine)
                               create_t3_then_throw products)) = 2 + 1.
Proof.
  assert (seed_in_range products) as Hseed by (split; [reflexivity|discriminate]).
  split; [exact Hseed|].
  destruct (operations_only_add_to_the_record_of_the_store
              (engine := decimal_engine) products Hseed)
    as (_ & _ & _ & _ & _ & _ & _ & _ & _ & _ & _ & Hrollback).
  destruct (Hrollback t0 (product "t3" 30) boom) as [Hmap Hnext];
    [reflexivity|reflexivity|].
  split; [exact Hmap|]. split; [reflexivity|exact Hnext].
Defined.

(** ** Generated identifiers *)

Lemma digit_value_digit d : (d < 36)%N → digit_value (digit d) = d.
Proof.
  intros Hd. unfold digit_value, digit.
  destruct (N.ltb_spec d 10); rewrite N_ascii_embedding by lia;
    match goal with
    | |- context [(?x <? 58)%N] => destruct (N.ltb_spec x 58)
    end; lia.
Qed.

Lemma digit_no_underscore d : (d < 36)%N → digit d ≠ "_"%char.
Proof.
  intros Hd Heq. apply (f_equal N_of_ascii) in Heq. unfold digit in Heq.
  destruct (N.ltb_spec d 10); rewrite N_ascii_embedding in Heq by lia;
    cbn in Heq; lia.
Qed.

Section Digits.
Context (radix : N) (Hradix : (2 ≤ radix ≤ 36)%N).

Lemma read_digits_digits fuel n acc :
  Z.of_N n < 2 ^ Z.of_nat fuel →
  ∃ k, ∀ a, read_digits radix (digits fuel radix n acc) a
            = read_digits radix acc (a * radix ^ k + n)%N.
Proof.
  revert n acc. induction fuel as [|fuel IH]; intros n acc Hn.
  - exists 0%N. intros a. cbn in *. f_equal. lia.
  - cbn [digits]. assert (n mod radix < radix)%N by (apply N.mod_lt; lia).
    destruct (N.eqb_spec (n / radix) 0) as [Hlast|Hmore].
    + exists 1%N. intros a. cbn [read_digits].
      rewrite digit_value_digit by lia. f_equal.
      assert (n = n mod radix)%N
        by (rewrite (N.div_mod n radix) at 1 by lia; rewrite Hlast; lia).
      lia.
    + destruct (IH (n / radix)%N (String (digit (n mod radix)) acc)) as [k Hk].
      { rewrite N2Z.inj_div. rewrite Nat2Z.inj_succ, Z.pow_succ_r in Hn by lia.
        apply Z.div_lt_upper_bound; nia. }
      exists (k + 1)%N. intros a. rewrite Hk. cbn [read_digits].
      rewrite digit_value_digit by lia. f_equal.
      rewrite N.pow_add_r, N.pow_1_r.
      rewrite (N.div_mod n radix) at 3 by lia. lia.
Qed.

Lemma digits_no_underscore fuel n acc :
  no_underscore acc → no_underscore (digits fuel radix n acc).
Proof.
  revert n acc. induction fuel as [|fuel IH]; intros n acc Hacc; [done|].
  cbn [digits]. assert (n mod radix < radix)%N by (apply N.mod_lt; lia).
  assert (no_underscore (String (digit (n mod radix)) acc))
    by (split; [apply digit_no_underscore; lia|done]).
  destruct (n / radix =? 0)%N; [done|by apply IH].
Qed.

Lemma size_nat_bound n : Z.of_N n < 2 ^ Z.of_nat (S (N.size_nat n)).
Proof.
  destruct n as [|p]; [by cbn|].
  rewrite Nat2Z.inj_succ, Z.pow_succ_r by lia.
  assert (Z.pos p < 2 ^ Z.of_nat (Pos.size_nat p)) by by apply Zpower2_Psize.
  cbn [N.size_nat Z.of_N]. lia.
Qed.

(** Reading the digits of a number that is not negative gives the number. *)
Lemma read_Number_toString z :
  0 ≤ z → read_digits radix (Number_toString radix z) 0 = Z.to_N z.
Proof.
  intros Hz. unfold Number_toString. destruct (Z.ltb_spec z 0); [lia|].
  destruct (read_digits_digits (S (N.size_nat (Z.abs_N z))) (Z.abs_N z) "")
    as [k Hk]; [apply size_nat_bound|].
  rewrite Hk. cbn [read_digits]. lia.
Qed.

Lemma Number_toString_no_underscore z : no_underscore (Number_toString radix z).
Proof.
  unfold Number_toString.
  assert (no_underscore (digits (S (N.size_nat (Z.abs_N z))) radix (Z.abs_N z) ""))
    by by apply digits_no_underscore.
  destruct (z <? 0); [split; [discriminate|done]|done].
Qed.
End Digits.

Lemma underscore_inside a d : ¬ no_underscore (a +:+ String "_" d).
Proof.
  induction a as [|c a IH]; cbn; [by intros [? _]|]. intros [_ Hrest]. by apply IH.
Qed.

(** What follows the last underscore of a string. *)
Lemma after_last_underscore a a' d d' :
  no_underscore d → no_underscore d' →
  a +:+ String "_" d = a' +:+ String "_" d' → d = d'.
Proof.
  intros Hd Hd'. revert a'. induction a as [|c a IH]; intros [|c' a']; cbn.
  - by intros [= ->].
  - intros [= <- ->]. by apply underscore_inside in Hd.
  - intros [= -> <-]. by apply underscore_inside in Hd'.
  - intros [= -> Heq]. by apply (IH a').
Qed.

Lemma formatId_parts now seed :
  formatId now seed
  = ("id_" +:+ Number_toString 36 now) +:+ String "_" (Number_toString 10 seed).
Proof. reflexivity. Qed.

(** An identifier tells the seed it was made of. *)
Lemma formatId_seed now now' seed seed' :
  0 ≤ seed → 0 ≤ seed' → formatId now seed = formatId now' seed' → seed = seed'.
Proof.
  intros Hs Hs'. rewrite !formatId_parts.
  intros Heq%after_last_underscore;
    [|apply (Number_toString_no_underscore 10); lia..].
  apply (f_equal (λ s, read_digits 10 s 0)) in Heq.
  rewrite !(read_Number_toString 10) in Heq by lia. lia.
Qed.

Lemma resolvedKey_keyless now item this :
  keyless (DataStore.keyName this) item = true →
  resolvedKey now item this = VString (formatId now (DataStore.autoIdSeed this)).
Proof.
  unfold keyless, resolvedKey.
  by destruct (get_field item (DataStore.keyName this)).
Qed.

Lemma generated_keys_fresh now item this :
  generated_keys this → DataStore.autoIdSeed this < 2 ^ 53 →
  keyless (DataStore.keyName this) item = true →
  JsMap.has (resolvedKey now item this) (DataStore.map this) = false.
Proof.
  intros [Hseed Hkeys] Hbelow Hkeyless. rewrite resolvedKey_keyless by done.
  apply JsMap_has_false, JsMap_get_None. intros Hin.
  destruct (Hkeys _ Hin) as (now' & seed & Hpos & Hbound & Heq).
  assert (formatId now (DataStore.autoIdSeed this) = formatId now' seed) as Hid
    by congruence.
  unfold seed_in_range in Hseed. apply formatId_seed in Hid; lia.
Qed.

(** A store with keys of [this] only, and a seed that is not lower. *)
Lemma generated_keys_weaken this this' :
  generated_keys this →
  (∀ key, In key (JsMap.keys (DataStore.map this')) →
          In key (JsMap.keys (DataStore.map this))) →
  DataStore.autoIdSeed this ≤ DataStore.autoIdSeed this' ≤ 2 ^ 53 →
  generated_keys this'.
Proof.
  unfold generated_keys, seed_in_range. intros [Hseed Hkeys] Hsub Hle.
  split; [lia|]. intros key Hin.
  destruct (Hkeys key (Hsub key Hin)) as (now & seed & Hpos & Hbound & ->).
  exists now, seed. split; [done|]. split; [lia|done].
Qed.

Lemma generated_keys_create now item this :
  generated_keys this → keyless (DataStore.keyName this) item = true →
  generated_keys (snd (DataStore.create now item this)).
Proof.
  intros Hgen Hkeyless. pose proof Hgen as [Hseed Hkeys].
  pose proof (increment_range _ Hseed) as Hnext.
  rewrite create_state. cbv zeta. rewrite Hkeyless.
  unfold generated_keys, seed_in_range in *.
  cbn [DataStore.map DataStore.autoIdSeed]. split; [lia|].
  assert (∀ key, In key (JsMap.keys (DataStore.map this)) →
            ∃ now' seed, 0 < seed ∧
              (seed < DataStore.increment (DataStore.autoIdSeed this) ∨
               DataStore.increment (DataStore.autoIdSeed this) = 2 ^ 53) ∧
              key = VString (formatId now' seed)) as Hold.
  { intros key Hin. destruct (Hkeys key Hin) as (now' & seed & Hpos & Hbound & ->).
    exists now', seed. split; [done|]. split; [|done].
    destruct Hbound as [Hlt|Htop]; [left; lia|right].
    rewrite Htop. apply increment_stuck. }
  destruct (negb _); [|done]. rewrite JsMap_keys_set.
  intros key Hin. assert (In key (JsMap.keys (DataStore.map this))
                          ∨ key = resolvedKey now item this) as [Hkey | ->].
  { destruct (JsMap.has _ _); [by left|].
    apply in_app_or in Hin as [?|[<-|[]]]; auto. }
  - by apply Hold.
  - exists now, (DataStore.autoIdSeed this). split; [lia|].
    split; [|by apply resolvedKey_keyless].
    destruct (decide (DataStore.autoIdSeed this = 2 ^ 53)) as [Htop|Hless].
    + right. rewrite Htop. apply increment_stuck.
    + left. rewrite increment_below; lia.
Qed.

Lemma generated_keys_update key patch this :
  generated_keys this → generated_keys (snd (DataStore.update key patch this)).
Proof.
  intros Hgen. destruct (JsMap.get key (DataStore.map this)) as [existing|] eqn:E.
  - destruct (update_found key patch this existing E) as (_ & Hmap & _).
    apply (generated_keys_weaken this);
      [done| |apply grows_update, Hgen].
    rewrite Hmap, JsMap_keys_set.
    by rewrite (proj2 (JsMap_has_get _ _) (ex_intro _ existing E)).
  - by rewrite update_missing.
Qed.

Lemma generated_keys_delete key this :
  generated_keys this → generated_keys (snd (DataStore.delete key this)).
Proof.
  intros Hgen. destruct (delete_eq key this) as (_ & Hmap & _).
  apply (generated_keys_weaken this); [done| |apply grows_delete, Hgen].
  rewrite Hmap, JsMap_keys_delete. intros k Hin. by apply filter_In in Hin as [? _].
Qed.

Section Keyless.
Context {engine : Engine}.

Lemma method_keyName {A} (c : call A) this :
  DataStore.keyName (snd (method c this)) = DataStore.keyName this.
Proof. rewrite <- invoke_method. apply invoke_keyName. Qed.

Lemma generated_keys_method {A} (c : call A) this :
  keyless_call (DataStore.keyName this) c → generated_keys this →
  generated_keys (snd (method c this)).
Proof.
  destruct c; cbn [method keyless_call]; intros Hc Hgen.
  - by apply generated_keys_create.
  - by apply (generated_keys_weaken this); [| |apply grows_get, Hgen].
  - by apply generated_keys_update.
  - by apply generated_keys_delete.
  - by rewrite list_same_store.
  - by rewrite query_same_store.
Qed.

Lemma generated_keys_on_store {R} (fn : txn R) this :
  keyless_txn (DataStore.keyName this) fn → generated_keys this →
  generated_keys (snd (on_store fn this)).
Proof.
  revert this. induction fn as [res|err|A c k IH]; intros this Hfn Hgen; [done..|].
  cbn [on_store]. destruct Hfn as [Hc Hk].
  pose proof (generated_keys_method c this Hc Hgen) as Hcall.
  pose proof (method_keyName c this) as Hname.
  destruct (method c this) as [completion this']. cbn [snd] in *.
  apply IH; [rewrite Hname; apply Hk|done].
Qed.

Lemma generated_keys_transaction {R} (fn : txn R) this :
  keyless_txn (DataStore.keyName this) fn → generated_keys this →
  generated_keys (snd (DataStore.transaction fn this)).
Proof.
  intros Hfn Hgen. pose proof (generated_keys_on_store fn this Hfn Hgen) as Hrun.
  pose proof (grows_on_store fn this (proj1 Hgen)) as (_ & Hseed & _).
  destruct (fst (on_store fn this)) as [res|err] eqn:E.
  - rewrite (commit_state fn this res E).
    apply (generated_keys_weaken (snd (on_store fn this))); [done..|].
    cbn. destruct Hrun as [Hrange _]. unfold seed_in_range in Hrange. lia.
  - rewrite (rollback_state fn this err E).
    by apply (generated_keys_weaken this).
Qed.

Lemma keyless_reachable_generated_keys this :
  keyless_reachable this → generated_keys this.
Proof.
  induction 1 as [keyName|this this' _ IH Hstep].
  - split; [split; [reflexivity|discriminate]|intros key []].
  - destruct Hstep as [now item Hitem|key|key patch|key|options|filter options
                      |R fn Hfn|].
    + by apply generated_keys_create.
    + by apply (generated_keys_weaken this); [| |apply grows_get, IH].
    + by apply generated_keys_update.
    + by apply generated_keys_delete.
    + by rewrite list_same_store.
    + by rewrite query_same_store.
    + by apply generated_keys_transaction.
    + apply (generated_keys_weaken this);
        [done|intros key []|apply grows_clear, IH].
Qed.
End Keyless.

(** X8.  In a store that has been used through its public operations only,
    and in which every [create] left the key to the store, a further
    [create] without key does not throw the duplicate-key error while the
    seed is below [2 ^ 53]: it returns the item under the identifier made of
    the clock and the current seed, whatever the clock reads, also when it
    reads the same twice.  At [2 ^ 53] the seed moves no more, and a second
    [create] without key at the same reading of the clock throws the
    duplicate-key error. *)
Theorem generated_keys_never_collide {engine : Engine}
    (this : DataStore.t) (now : Z) (item : record) :
  keyless_reachable this →
  keyless (DataStore.keyName this) item = true →
  (DataStore.autoIdSeed this < 2 ^ 53 →
   fst (DataStore.create now item this)
   = Returned (<[DataStore.keyName this
                 := VString (formatId now (DataStore.autoIdSeed this))]> item)) ∧
  (DataStore.autoIdSeed this = 2 ^ 53 →
   ∀ item', keyless (DataStore.keyName this) item' = true →
            fst (DataStore.create now item' (snd (DataStore.create now item this)))
            = Thrown (DuplicateKey (VString (formatId now (2 ^ 53))))).
Proof.
  intros Hreach%keyless_reachable_generated_keys Hkeyless. split.
  - intros Hbelow. destruct (create_fresh now item this) as (-> & _);
      [by apply generated_keys_fresh|].
    by rewrite resolvedKey_keyless.
  - intros Htop item' Hkeyless'.
    set (after := snd (DataStore.create now item this)).
    assert (DataStore.keyName after = DataStore.keyName this) as Hname
      by (unfold after; by rewrite create_state).
    assert (DataStore.autoIdSeed after = 2 ^ 53) as Hseed.
    { unfold after. rewrite create_state. cbn [DataStore.autoIdSeed].
      rewrite Hkeyless, Htop. apply increment_stuck. }
    assert (resolvedKey now item' after = VString (formatId now (2 ^ 53))) as Hkey.
    { rewrite resolvedKey_keyless by by rewrite Hname. by rewrite Hseed. }
    destruct (create_duplicate now item' after) as (Hthrown & _);
      [|by rewrite Hthrown, Hkey].
    rewrite Hkey. unfold after. rewrite create_state. cbn [DataStore.map].
    rewrite resolvedKey_keyless, Htop by done.
    destruct (JsMap.has _ (DataStore.map this)) eqn:Hhas; cbn [negb]; [done|].
    apply JsMap_has_get. rewrite JsMap_get_set_eq. by eexists.
Qed.

Lemma generated_keys_never_collide_witness :
  keyless "id" dora = true ∧
  fst (DataStore.create t0 dora people)
  = Returned (<["id" := VString (formatId t0 4)]> dora).
Proof.
  split; [reflexivity|].
  destruct (generated_keys_never_collide (engine := decimal_engine) people t0 dora)
    as [Hbelow _]; [|reflexivity|apply Hbelow; reflexivity].
  unfold people.
  eapply keyless_next;
    [eapply keyless_next; [eapply keyless_next; [apply keyless_new|]|]|];
    apply keyless_create; reflexivity.
Defined.

(** ** Filters, read plainly *)

Section Holds.
Context {engine : Engine}.

Lemma checkFields_holds item fields :
  forallb (entry_fits item) fields = true →
  DataStore.checkFields item fields = Returned (forallb (entry_holds item) fields).
Proof.
  induction fields as [|[k [ff|]] rest IH]; simpl; [done| |done].
  intros [Hk Hrest]%andb_true_iff.
  destruct (checkField_returns (get_field item k) ff) as [b ->].
  - by destruct (get_field item k).
  - cbn. destruct b; [by apply IH|done].
Qed.

Lemma Array_every_forallb {A} (callback : A → outcome bool) (v : A → bool) arr :
  Forall (λ x, callback x = Returned (v x)) arr →
  Array_every callback arr = Returned (forallb v arr).
Proof.
  induction 1 as [|x rest Hx _ IH]; simpl; [done|].
  rewrite Hx. cbn. by destruct (v x).
Qed.

Lemma Array_some_existsb {A} (callback : A → outcome bool) (v : A → bool) arr :
  Forall (λ x, callback x = Returned (v x)) arr →
  Array_some callback arr = Returned (existsb v arr).
Proof.
  induction 1 as [|x rest Hx _ IH]; simpl; [done|].
  rewrite Hx. cbn. by destruct (v x).
Qed.

Lemma Array_filter_filter {A} (callback : A → outcome bool) (v : A → bool) arr :
  Forall (λ x, callback x = Returned (v x)) arr →
  Array_filter callback arr = Returned (List.filter v arr).
Proof.
  induction 1 as [|x rest Hx _ IH]; simpl; [done|].
  rewrite Hx, IH. cbn. by destruct (v x).
Qed.

Lemma matchesObject_holds item filter :
  fits item filter = true →
  DataStore.matchesObject item filter = Returned (holds item filter).
Proof.
  induction filter as [and_ or_ fields IHand IHor] using Filter_nested_ind.
  cbn [fits]. intros [[Hand Hor]%andb_true_iff Hfields]%andb_true_iff.
  assert (∀ fs, Forall (λ f, fits item f = true →
                    DataStore.matchesObject item f = Returned (holds item f)) fs →
                forallb (fits item) fs = true →
                Forall (λ f, DataStore.matchesObject item f
                             = Returned (holds item f)) fs) as Hgroup.
  { induction 1 as [|f fs Hf _ IH]; simpl; [constructor|].
    intros [Hf' Hfs]%andb_true_iff. constructor; [by apply Hf|by apply IH]. }
  assert (match and_ with
          | Some fs => Array_every (DataStore.matchesObject item) fs
          | None => Returned true
          end = Returned (match and_ with
                          | Some fs => forallb (holds item) fs
                          | None => true
                          end)) as Hall.
  { destruct and_ as [fs|]; [|done].
    apply Array_every_forallb, Hgroup; [by apply IHand|done]. }
  assert (match or_ with
          | Some fs => Array_some (DataStore.matchesObject item) fs
          | None => Returned true
          end = Returned (match or_ with
                          | Some fs => existsb (holds item) fs
                          | None => true
                          end)) as Hany.
  { destruct or_ as [fs|]; [|done].
    apply Array_some_existsb, Hgroup; [by apply IHor|done]. }
  pose proof (checkFields_holds item fields Hfields) as Hentries.
  cbn [holds].
  assert (DataStore.matchesObject item (mkFilter and_ or_ fields)
          = (match and_ with
             | Some fs => Array_every (DataStore.matchesObject item) fs
             | None => Returned true
             end ≫= λ all : bool,
             if negb all then Returned false
             else match or_ with
                  | Some fs => Array_some (DataStore.matchesObject item) fs
                  | None => Returned true
                  end ≫= λ any : bool,
                  if negb any then Returned false
                  else DataStore.checkFields item fields)) as ->.
  { destruct and_, or_, fields; reflexivity. }
  rewrite Hall. cbn [mbind outcome_bind].
  destruct (match and_ with Some fs => forallb (holds item) fs | None => true end);
    [|done].
  cbn [negb]. rewrite Hany. cbn [mbind outcome_bind].
  destruct (match or_ with Some fs => existsb (holds item) fs | None => true end);
    [|done].
  cbn [negb andb]. exact Hentries.
Qed.

Lemma matchesFilter_holds item filter :
  (∀ f, filter = Some f → fits item f = true) →
  DataStore.matchesFilter item filter = Returned (holds_for filter item).
Proof.
  destruct filter as [f|]; [|done]. intros Hf. cbn.
  by apply matchesObject_holds, Hf.
Qed.

Lemma In_slice {A} (arr : list A) start end_ x : In x (slice arr start end_) → In x arr.
Proof.
  unfold slice. intros Hin%list_elem_of_In.
  apply list_elem_of_In. by eapply subseteq_drop, subseteq_take.
Qed.

Lemma values_restrict keep this :
  JsMap.values (DataStore.map (restrict keep this))
  = List.filter keep (JsMap.values (DataStore.map this)).
Proof.
  unfold restrict, JsMap.values. cbn.
  induction (DataStore.map this) as [|[k r] m IH]; [done|].
  cbn. destruct (keep r); cbn; by rewrite IH.
Qed.
End Holds.

(** X10.  On a filter whose entries fit the item (an [eq] of a date field is
    a date, and likewise for [between]), [matchesFilter] returns, and what it
    returns is the plain reading of the filter: every member of [$and]
    holds, some member of [$or] holds, and every field entry holds. *)
Theorem matchesFilter_reads_plainly (item : record) (filter : Filter) :
  fits item filter = true →
  DataStore.matchesFilter item (Some filter) = Returned (holds item filter).
Proof.
  intros Hfits. by apply matchesObject_holds.
Qed.

Lemma matchesFilter_reads_plainly_witness :
  fits stored_bob london_or_over_40 = true ∧
  DataStore.matchesFilter stored_bob (Some london_or_over_40)
  = Returned (holds stored_bob london_or_over_40).
Proof.
  split; [reflexivity|].
  apply matchesFilter_reads_plainly. reflexivity.
Defined.

(** X13.  When the filter fits the stored records, [query] with a filter
    and options is [list] with the same options on the store restricted to
    the records that match: filtering comes before sorting and paging.
    Without options [query] returns the matching records in the order of the
    map, and every record [query] returns is stored and matches the
    filter. *)
Theorem query_is_list_of_the_matching_records {engine : Engine}
    (filter : option Filter) (options : option QueryOptions) (this : DataStore.t) :
  fits_all filter (JsMap.values (DataStore.map this)) →
  fst (DataStore.query filter options this)
    = fst (DataStore.list options (restrict (holds_for filter) this)) ∧
  fst (DataStore.query filter None this)
    = Returned (List.filter (holds_for filter) (JsMap.values (DataStore.map this))) ∧
  (∀ records r,
     fst (DataStore.query filter options this) = Returned records →
     In r records →
     In r (JsMap.values (DataStore.map this)) ∧
     DataStore.matchesFilter r filter = Returned true).
Proof.
  intros Hfits.
  assert (Array_filter (λ item, DataStore.matchesFilter item filter)
            (JsMap.values (DataStore.map this))
          = Returned (List.filter (holds_for filter)
                        (JsMap.values (DataStore.map this)))) as Hkept.
  { apply Array_filter_filter, Forall_forall. intros r Hr%list_elem_of_In.
    apply matchesFilter_holds. intros f Hf. by apply (Hfits f). }
  assert (∀ options',
            fst (DataStore.query filter options' this)
            = fst (DataStore.list options' (restrict (holds_for filter) this)))
    as Hlist.
  { intros options'. rewrite query_eq, list_eq, values_restrict, Hkept.
    cbn [fst mbind outcome_bind].
    by destruct (DataStore.applySort options' _). }
  split; [apply Hlist|]. split.
  - apply query_unsorted_all. intros r Hr.
    apply matchesFilter_holds. intros f Hf. by apply (Hfits f).
  - intros records r Hquery Hr. rewrite query_eq, Hkept in Hquery.
    cbn [fst mbind outcome_bind] in Hquery.
    destruct (DataStore.applySort options _) as [sorted|] eqn:Hsort; [|done].
    cbn in Hquery. injection Hquery as <-.
    apply In_slice in Hr. apply applySort_Permutation in Hsort.
    apply (Permutation_in _ (Permutation_sym Hsort)), filter_In in Hr
      as [Hin Hholds].
    split; [done|]. rewrite matchesFilter_holds, Hholds; [done|].
    intros f Hf. by apply (Hfits f).
Qed.

Lemma query_is_list_of_the_matching_records_witness :
  fst (DataStore.query (engine := decimal_engine) (Some london_or_over_40)
         (options_sortBy "age") people)
  = fst (DataStore.list (engine := decimal_engine) (options_sortBy "age")
           (restrict (holds_for (Some london_or_over_40))
                     people)).
Proof.
  destruct (query_is_list_of_the_matching_records (engine := decimal_engine)
              (Some london_or_over_40) (options_sortBy "age") people)
    as [Hlist _]; [|exact Hlist].
  apply fits_all_check. reflexivity.
Defined.

(** X14.  [query] with no filter, with the empty filter [{}] or with
    [{ $and: [] }] is [list] with the same options, while [{ $or: [] }]
    matches no record: [query] returns the empty array. *)
Theorem query_without_a_filter_is_list {engine : Engine}
    (options : option QueryOptions) (this : DataStore.t) :
  DataStore.query None options this = DataStore.list options this ∧
  DataStore.query (Some (mkFilter None None [])) options this
    = DataStore.list options this ∧
  DataStore.query (Some (mkFilter (Some []) None [])) options this
    = DataStore.list options this ∧
  fst (DataStore.query (Some (mkFilter None (Some []) [])) options this)
    = Returned [].
Proof.
  assert (∀ (callback : record → outcome bool) b arr,
            (∀ r, callback r = Returned b) →
            Array_filter callback arr = Returned (if b then arr else [])) as Hconst.
  { intros callback b arr Hb. induction arr as [|r arr IH]; cbn; [by destruct b|].
    rewrite Hb, IH. cbn. by destruct b. }
  rewrite !query_eq, !list_eq.
  rewrite (Hconst (λ item, DataStore.matchesFilter item None) true) by done.
  rewrite (Hconst (λ item, DataStore.matchesFilter item
                             (Some (mkFilter None None []))) true) by done.
  rewrite (Hconst (λ item, DataStore.matchesFilter item
                             (Some (mkFilter (Some []) None []))) true) by done.
  rewrite (Hconst (λ item, DataStore.matchesFilter item
                             (Some (mkFilter None (Some []) []))) false) by done.
  cbn [mbind outcome_bind fst]. repeat split.
  assert (DataStore.applySort options [] = Returned []) as ->.
  { unfold DataStore.applySort. destruct (options ≫= sortBy); [|done].
    case_bool_decide; [done|]. apply Array_sort_nil. }
  cbn. unfold DataStore.applySlice, slice. by rewrite drop_nil, take_nil.
Qed.

Lemma generateId_eq now this :
  DataStore.generateId now this
  = (Returned (formatId now (DataStore.autoIdSeed this)),
     snd (DataStore.generateId now this)).
Proof. reflexivity. Qed.

(** X7.  While the seed is below [2 ^ 53], [generateId] uses up one seed,
    and the identifier it returns is not returned again by the store at any
    later seed, whatever the clock reads then: the decimal seed after the
    last underscore tells the two apart.  At [2 ^ 53] the increment is lost
    in rounding: the seed stays, and at the same reading of the clock the
    same identifier is returned again. *)
Theorem generateId_never_repeats (now now' : Z) (this later : DataStore.t) :
  (0 < DataStore.autoIdSeed this < 2 ^ 53 →
   DataStore.autoIdSeed (snd (DataStore.generateId now this))
     ≤ DataStore.autoIdSeed later →
   DataStore.autoIdSeed (snd (DataStore.generateId now this))
     = DataStore.autoIdSeed this + 1 ∧
   fst (DataStore.generateId now' later) ≠ fst (DataStore.generateId now this)) ∧
  (DataStore.autoIdSeed this = 2 ^ 53 →
   DataStore.autoIdSeed (snd (DataStore.generateId now this)) = 2 ^ 53 ∧
   fst (DataStore.generateId now (snd (DataStore.generateId now this)))
   = fst (DataStore.generateId now this)).
Proof.
  split.
  - intros Hseed Hlater.
    assert (DataStore.autoIdSeed (snd (DataStore.generateId now this))
            = DataStore.autoIdSeed this + 1) as Hnext
      by (cbn; apply increment_below; lia).
    split; [done|].
    rewrite (generateId_eq now this), (generateId_eq now' later). cbn [fst].
    intros Heq.
    assert (formatId now' (DataStore.autoIdSeed later)
            = formatId now (DataStore.autoIdSeed this)) as Hid by congruence.
    apply formatId_seed in Hid; lia.
  - intros Htop.
    assert (DataStore.autoIdSeed (snd (DataStore.generateId now this)) = 2 ^ 53)
      as Hnext by (cbn; rewrite Htop; apply increment_stuck).
    split; [done|].
    change (Returned (formatId now (DataStore.autoIdSeed
                                      (snd (DataStore.generateId now this))))
            = Returned (formatId now (DataStore.autoIdSeed this))).
    by rewrite Hnext, Htop.
Qed.

Lemma generateId_never_repeats_witness :
  (DataStore.autoIdSeed (snd (DataStore.generateId t0 (DataStore.new "id"))) = 1 + 1 ∧
   fst (DataStore.generateId t0 people)
     ≠ fst (DataStore.generateId t0 (DataStore.new "id"))) ∧
  fst (DataStore.generateId t0 (snd (DataStore.generateId t0 worn)))
    = fst (DataStore.generateId t0 worn).
Proof.
  split.
  - apply (generateId_never_repeats t0 t0 (DataStore.new "id") people).
    + split; reflexivity.
    + apply Z.leb_le. reflexivity.
  - apply (generateId_never_repeats t0 t0 worn worn). reflexivity.
Defined.

(** ** Groups stop at the member that decides *)

Section ShortCircuit.
Context {engine : Engine}.

Lemma Array_every_stops {A} (callback : A → outcome bool) pre x post :
  Forall (λ y, callback y = Returned true) pre →
  Array_every callback (pre ++ x :: post)
  = callback x ≫= λ b : bool,
      if b then Array_every callback post else Returned false.
Proof.
  induction 1 as [|y pre Hy _ IH]; [done|]. cbn. rewrite Hy. cbn. exact IH.
Qed.

Lemma Array_some_stops {A} (callback : A → outcome bool) pre x post :
  Forall (λ y, callback y = Returned false) pre →
  Array_some callback (pre ++ x :: post)
  = callback x ≫= λ b : bool,
      if b then Returned true else Array_some callback post.
Proof.
  induction 1 as [|y pre Hy _ IH]; [done|]. cbn. rewrite Hy. cbn. exact IH.
Qed.
End ShortCircuit.

(** X11.  [$and] and [$or] stop at the member that decides.  After members
    that match, a member of [$and] that does not match makes the filter not
    match, and one that throws makes it throw, whatever the members after it
    would do; after members that do not match, a member of [$or] that
    matches leaves the result to the field entries. *)
Theorem groups_stop_at_the_deciding_member
    (item : record) (pre post : list Filter) (f : Filter) :
  (Forall (λ g, DataStore.matchesObject item g = Returned true) pre →
   DataStore.matchesObject item f = Returned false →
   ∀ or_ fields,
     DataStore.matchesObject item (mkFilter (Some (pre ++ f :: post)) or_ fields)
     = Returned false) ∧
  (Forall (λ g, DataStore.matchesObject item g = Returned false) pre →
   DataStore.matchesObject item f = Returned true →
   ∀ fields,
     DataStore.matchesObject item (mkFilter None (Some (pre ++ f :: post)) fields)
     = DataStore.checkFields item fields) ∧
  (Forall (λ g, DataStore.matchesObject item g = Returned true) pre →
   ∀ err, DataStore.matchesObject item f = Thrown err →
   ∀ or_ fields,
     DataStore.matchesObject item (mkFilter (Some (pre ++ f :: post)) or_ fields)
     = Thrown err).
Proof.
  split; [|split].
  - intros Hpre Hf or_ fields. cbn [DataStore.matchesObject].
    rewrite (Array_every_stops _ pre f post Hpre), Hf. done.
  - intros Hpre Hf fields. cbn [DataStore.matchesObject].
    rewrite (Array_some_stops _ pre f post Hpre), Hf. done.
  - intros Hpre err Hf or_ fields. cbn [DataStore.matchesObject].
    rewrite (Array_every_stops _ pre f post Hpre), Hf. done.
Qed.

Lemma groups_stop_at_the_deciding_member_witness :
  DataStore.matchesObject stored_charlie
    (mkFilter None
       (Some ([on_field "city" (eq_only (VString "London"))]
              ++ on_field "age" (gt_only (Num 40))
              :: [on_field "id" (eq_only (VSymbol 1))]))
       [])
  = DataStore.checkFields stored_charlie [].
Proof.
  destruct (groups_stop_at_the_deciding_member
              stored_charlie [on_field "city" (eq_only (VString "London"))]
              [on_field "id" (eq_only (VSymbol 1))]
              (on_field "age" (gt_only (Num 40)))) as (_ & Hor & _).
  apply Hor.
  - apply List.Forall_cons; [reflexivity|apply List.Forall_nil].
  - reflexivity.
Defined.

(** ** Field entries *)

Section FieldEntries.
Context {engine : Engine}.

Lemma on_field_matches item field ff :
  DataStore.matchesFilter item (Some (on_field field ff))
  = DataStore.checkField (get_field item field) ff.
Proof.
  cbn. destruct (DataStore.checkField (get_field item field) ff) as [[]|]; done.
Qed.

Lemma checkField_only_eq val ff :
  only_eq_applies val = true →
  DataStore.checkField val ff
  = Returned (bool_decide (FieldFilter.eq ff = VUndefined)
              || strict_eq val (FieldFilter.eq ff)).
Proof.
  destruct val; try done; intros _; cbn [DataStore.checkField];
    match goal with
    | |- context [strict_eq ?x ?y] => destruct (strict_eq x y)
    end; by case_bool_decide.
Qed.

Lemma checkField_same_instant v v' ff :
  same_instant v v' → DataStore.checkField v ff = DataStore.checkField v' ff.
Proof.
  destruct v, v'; cbn; try done; intros Heq;
    first [by injection Heq as -> | by subst].
Qed.

Lemma checkFields_same_instants a b fields :
  same_instants a b → DataStore.checkFields a fields = DataStore.checkFields b fields.
Proof.
  intros Hab. induction fields as [|[k [ff|]] rest IH]; cbn; [done| |done].
  by rewrite (checkField_same_instant _ _ ff (Hab k)), IH.
Qed.

Lemma Array_every_ext {A} (f g : A → outcome bool) arr :
  Forall (λ x, f x = g x) arr → Array_every f arr = Array_every g arr.
Proof. induction 1 as [|x rest Hx _ IH]; cbn; [done|]. by rewrite Hx, IH. Qed.

Lemma Array_some_ext {A} (f g : A → outcome bool) arr :
  Forall (λ x, f x = g x) arr → Array_some f arr = Array_some g arr.
Proof. induction 1 as [|x rest Hx _ IH]; cbn; [done|]. by rewrite Hx, IH. Qed.

Lemma matchesObject_same_instants a b filter :
  same_instants a b →
  DataStore.matchesObject a filter = DataStore.matchesObject b filter.
Proof.
  intros Hab.
  induction filter as [and_ or_ fields IHand IHor] using Filter_nested_ind.
  assert (match and_ with
          | Some fs => Array_every (DataStore.matchesObject a) fs
          | None => Returned true
          end = match and_ with
                | Some fs => Array_every (DataStore.matchesObject b) fs
                | None => Returned true
                end) as Hall.
  { destruct and_ as [fs|]; [|done]. by apply Array_every_ext, IHand. }
  assert (match or_ with
          | Some fs => Array_some (DataStore.matchesObject a) fs
          | None => Returned true
          end = match or_ with
                | Some fs => Array_some (DataStore.matchesObject b) fs
                | None => Returned true
                end) as Hany.
  { destruct or_ as [fs|]; [|done]. by apply Array_some_ext, IHor. }
  pose proof (checkFields_same_instants a b fields Hab) as Hentries.
  destruct and_ as [fs|], or_ as [gs|], fields as [|entry rest];
    cbn [DataStore.matchesObject]; rewrite ?Hall, ?Hany, ?Hentries; reflexivity.
Qed.
End FieldEntries.

(** X15.  On a field whose value is not a string, a number or a date
    (absent, [null], a boolean, a symbol) every operator but [eq] is
    ignored.  So a filter without [eq] on a field that no record has, such
    as [{ age: { gte: 18 } }] in [examples/demo.ts], returns every
    record. *)
Theorem filters_on_a_field_of_another_kind {engine : Engine}
    (field : string) (ff : FieldFilter.t) :
  (∀ item : record,
     only_eq_applies (get_field item field) = true →
     DataStore.matchesFilter item (Some (on_field field ff))
     = Returned (bool_decide (FieldFilter.eq ff = VUndefined)
                 || strict_eq (get_field item field) (FieldFilter.eq ff))) ∧
  (∀ this : DataStore.t,
     FieldFilter.eq ff = VUndefined →
     (∀ r, In r (JsMap.values (DataStore.map this)) → r !! field = None) →
     fst (DataStore.query (Some (on_field field ff)) None this)
     = Returned (JsMap.values (DataStore.map this))).
Proof.
  split.
  - intros item Hkind. rewrite on_field_matches. by apply checkField_only_eq.
  - intros this Heq Hmissing.
    rewrite (query_unsorted_all _ this (λ _, true)).
    + f_equal. clear. induction (JsMap.values (DataStore.map this)) as [|r rest IH];
        cbn; [done|]. by rewrite IH.
    + intros r Hr. rewrite on_field_matches.
      unfold get_field. rewrite (Hmissing r Hr). cbn [default].
      rewrite checkField_only_eq by done. rewrite Heq. done.
Qed.

Lemma filters_on_a_field_of_another_kind_witness :
  fst (DataStore.query (engine := decimal_engine)
         (Some (on_field "age" (gte_only (Num 18)))) None users)
  = Returned (JsMap.values (DataStore.map users)).
Proof.
  destruct (filters_on_a_field_of_another_kind (engine := decimal_engine)
              "age" (gte_only (Num 18))) as [_ Hquery].
  apply Hquery; [reflexivity|].
  apply List.Forall_forall.
  repeat (apply List.Forall_cons; [reflexivity|]). apply List.Forall_nil.
Defined.

(** X16.  A filter sees of a [Date] its time only: two records that differ
    in which [Date] objects hold the same times get the same answer from
    [matchesFilter], for every filter, although [===] tells the two objects
    apart. *)
Theorem filters_see_the_time_of_a_date_only
    (a b : record) (filter : option Filter) :
  same_instants a b →
  DataStore.matchesFilter a filter = DataStore.matchesFilter b filter.
Proof.
  intros Hab. destruct filter as [f|]; [|done].
  by apply matchesObject_same_instants.
Qed.

Lemma filters_see_the_time_of_a_date_only_witness :
  get_field alice "createdAt" ≠ get_field alice_again "createdAt" ∧
  DataStore.matchesFilter alice
    (Some (eq_filter "createdAt" (VDate 3 (Num t0))))
  = DataStore.matchesFilter alice_again
      (Some (eq_filter "createdAt" (VDate 3 (Num t0)))).
Proof.
  split; [discriminate|].
  apply filters_see_the_time_of_a_date_only.
  intros name. unfold alice_again, get_field.
  destruct (decide (name = "createdAt")) as [->|Hne]; [reflexivity|].
  rewrite lookup_insert_ne by done. unfold same_instant.
  by destruct (default VUndefined (alice !! name)).
Defined.

(** X17.  On a numeric field, [{ gte: low, lte: high }] answers as
    [{ between: [low, high] }] does, and [eq] is strict: it matches the same
    number only, never a string that reads as that number, and an [eq] of
    [undefined] is no condition. *)
Theorem numeric_operators_compose
    (item : record) (field : string) (n : number) :
  get_field item field = VNumber n →
  (∀ low high,
     DataStore.matchesFilter item (Some (on_field field (range_only low high)))
     = DataStore.matchesFilter item (Some (between_filter field low high))) ∧
  (∀ v,
     DataStore.matchesFilter item (Some (eq_filter field v))
     = Returned (match v with
                 | VUndefined => true
                 | VNumber m => number_eqb n m
                 | _ => false
                 end)).
Proof.
  intros Hn. unfold between_filter, eq_filter. split.
  - intros low high. rewrite !on_field_matches, Hn. cbn.
    destruct (number_leb n high), (number_leb low n); reflexivity.
  - intros v. rewrite on_field_matches, Hn.
    destruct v; cbn; try reflexivity. by destruct (number_eqb n n0).
Qed.

Lemma numeric_operators_compose_witness :
  get_field stored_bob "age" = VNumber (Num 35) ∧
  DataStore.matchesFilter stored_bob
    (Some (on_field "age" (range_only (Num 30) (Num 40))))
  = DataStore.matchesFilter stored_bob
      (Some (between_filter "age" (Num 30) (Num 40))) ∧
  DataStore.matchesFilter stored_bob
    (Some (eq_filter "age" (VString "35")))
  = Returned false.
Proof.
  split; [reflexivity|].
  destruct (numeric_operators_compose
              stored_bob "age" (Num 35)) as [Hrange Heq]; [reflexivity|].
  split; [apply Hrange|apply (Heq (VString "35"))].
Defined.


(** ** The text operators *)

Lemma startsWith_spec s sub : startsWith s sub = true ↔ ∃ post, s = sub +:+ post.
Proof.
  unfold startsWith. revert s. induction sub as [|c sub IH]; intros s.
  - destruct s; cbn; (split; [by eexists|done]).
  - destruct s as [|c' s]; cbn; [split; [done|by intros [? [=]]]|].
    destruct (ascii_dec c c') as [->|Hne].
    + rewrite IH. split; [intros [post ->]; by exists post|].
      intros [post [= ->]]. by exists post.
    + split; [done|]. intros [post [= -> _]]. done.
Qed.

Lemma includes_spec s sub :
  includes s sub = true ↔ ∃ pre post, s = pre +:+ sub +:+ post.
Proof.
  induction s as [|c s IH]; cbn [includes].
  - rewrite orb_false_r. change (String.prefix sub "") with (startsWith "" sub).
    rewrite startsWith_spec. split.
    + intros [post ->]. by exists "", post.
    + intros ([|c pre] & post & Heq); [by exists post|done].
  - rewrite orb_true_iff, IH.
    change (String.prefix sub (String c s)) with (startsWith (String c s) sub).
    rewrite startsWith_spec. split.
    + intros [[post ->]|(pre & post & ->)]; [by exists "", post|].
      by exists (String c pre), post.
    + intros ([|c' pre] & post & Heq); [left; by exists post|].
      right. injection Heq as -> ->. by exists pre, post.
Qed.

Lemma substring_all s : String.substring 0 (String.length s) s = s.
Proof. induction s as [|c s IH]; cbn; [done|by rewrite IH]. Qed.

Lemma substring_skip pre s :
  String.substring (String.length pre) (String.length s) (pre +:+ s) = s.
Proof. induction pre as [|c pre IH]; cbn; [apply substring_all|done]. Qed.

Lemma substring_split s k :
  (k ≤ String.length s)%nat →
  s = String.substring 0 k s +:+ String.substring k (String.length s - k) s.
Proof.
  revert k. induction s as [|c s IH]; intros [|k] Hk; cbn in *; try lia; try done.
  - by rewrite substring_all.
  - change (String c s = String c (String.substring 0 k s +:+ String.substring k (String.length s - k) s)).
    f_equal. apply IH. lia.
Qed.

Lemma length_append s s' :
  String.length (s +:+ s') = (String.length s + String.length s')%nat.
Proof.
  induction s as [|c s IH]; [done|].
  change (S (String.length (s +:+ s')) = S (String.length s + String.length s')).
  by rewrite IH.
Qed.

Lemma endsWith_spec s sub : endsWith s sub = true ↔ ∃ pre, s = pre +:+ sub.
Proof.
  unfold endsWith. rewrite andb_true_iff, Nat.leb_le, bool_decide_eq_true. split.
  - intros [Hle Hsub]. exists (String.substring 0 (String.length s - String.length sub) s).
    pose proof (substring_split s (String.length s - String.length sub)) as Hsplit.
    replace (String.length s - (String.length s - String.length sub))%nat
      with (String.length sub) in Hsplit by lia.
    rewrite Hsub in Hsplit. apply Hsplit. lia.
  - intros [pre ->]. rewrite length_append. split; [lia|].
    replace (String.length pre + String.length sub - String.length sub)%nat
      with (String.length pre) by lia.
    apply substring_skip.
Qed.

(** X18.  On a text field, [contains] matches exactly when the operand
    occurs somewhere in the value, [startsWith] when the value begins with
    it and [endsWith] when the value ends with it; none of the three
    throws. *)
Theorem text_operators_look_for_the_operand
    (item : record) (field s sub : string) :
  get_field item field = VString s →
  (DataStore.matchesFilter item (Some (on_field field (contains_only sub)))
   = Returned true ↔ ∃ pre post, s = pre +:+ sub +:+ post) ∧
  (DataStore.matchesFilter item (Some (on_field field (startsWith_only sub)))
   = Returned true ↔ ∃ post, s = sub +:+ post) ∧
  (DataStore.matchesFilter item (Some (on_field field (endsWith_only sub)))
   = Returned true ↔ ∃ pre, s = pre +:+ sub) ∧
  (∃ b1 b2 b3,
     DataStore.matchesFilter item (Some (on_field field (contains_only sub)))
     = Returned b1 ∧
     DataStore.matchesFilter item (Some (on_field field (startsWith_only sub)))
     = Returned b2 ∧
     DataStore.matchesFilter item (Some (on_field field (endsWith_only sub)))
     = Returned b3).
Proof.
  intros Hs. rewrite !on_field_matches, Hs. cbn.
  rewrite <- includes_spec, <- startsWith_spec, <- endsWith_spec.
  destruct (includes s sub), (startsWith s sub), (endsWith s sub); cbn;
    (repeat split; try done; try congruence; by eexists _, _, _).
Qed.

Lemma text_operators_look_for_the_operand_witness :
  get_field stored_alice "name" = VString "Alice" ∧
  (DataStore.matchesFilter stored_alice
     (Some (on_field "name" (contains_only "lic")))
   = Returned true ↔ ∃ pre post, "Alice" = pre +:+ "lic" +:+ post).
Proof.
  split; [reflexivity|].
  destruct (text_operators_look_for_the_operand
              stored_alice "name" "Alice" "lic") as [Hcontains _];
    [reflexivity|exact Hcontains].
Defined.

(** ** The order of [list] *)

Lemma slice_all {A} (arr : list A) :
  slice arr (Num 0) (number_add (Num 0) (Num (Z.of_nat (length arr)))) = arr.
Proof.
  rewrite slice_take_drop by lia. rewrite Nat2Z.id. cbn. by rewrite take_ge.
Qed.

Lemma list_all {engine : Engine} this :
  fst (DataStore.list None this) = Returned (JsMap.values (DataStore.map this)).
Proof.
  rewrite (list_returns None this (JsMap.values (DataStore.map this))) by done.
  f_equal. apply slice_all.
Qed.

Lemma JsMap_set_in_place key v m existing :
  JsMap.get key m = Some existing →
  ∃ before after,
    m = before ++ (key, existing) :: after ∧
    JsMap.set key v m = before ++ (key, v) :: after.
Proof.
  induction m as [|[k v'] m IH]; simpl; [done|].
  destruct (SameValueZero k key) eqn:E.
  - apply SameValueZero_true in E as ->. intros [= ->]. by exists [], m.
  - intros Hget. destruct (IH Hget) as (before & after & -> & ->).
    by exists ((k, v') :: before), after.
Qed.

Lemma JsMap_values_delete key m :
  JsMap.values (snd (JsMap.delete key m)) `sublist_of` JsMap.values m.
Proof.
  unfold JsMap.delete, JsMap.values. cbn [snd].
  induction m as [|[k v] m IH]; simpl; [done|].
  destruct (SameValueZero k key); simpl; by constructor.
Qed.

(** X9.  [list] without options returns the records in the order of their
    insertion: a [create] that returns puts its record last, an [update]
    that returns replaces the record where it stands, and a [delete] keeps
    the order of the records that remain. *)
Theorem list_keeps_the_order_of_insertion {engine : Engine} (this : DataStore.t) :
  let listed := JsMap.values (DataStore.map this) in
  fst (DataStore.list None this) = Returned listed ∧
  (∀ now item created,
     fst (DataStore.create now item this) = Returned created →
     fst (DataStore.list None (snd (DataStore.create now item this)))
     = Returned (listed ++ [created])) ∧
  (∀ key patch updated,
     fst (DataStore.update key patch this) = Returned updated →
     ∃ before existing after,
       listed = before ++ existing :: after ∧
       JsMap.get key (DataStore.map this) = Some existing ∧
       fst (DataStore.list None (snd (DataStore.update key patch this)))
       = Returned (before ++ updated :: after)) ∧
  (∀ key,
     ∃ rest,
       fst (DataStore.list None (snd (DataStore.delete key this))) = Returned rest ∧
       rest `sublist_of` listed).
Proof.
  cbv zeta. split; [apply list_all|]. split; [|split].
  - intros now item created Hcreate. rewrite list_all.
    destruct (JsMap.has (resolvedKey now item this) (DataStore.map this)) eqn:Hhas.
    + destruct (create_duplicate now item this Hhas) as (Hthrown & _). congruence.
    + destruct (create_fresh now item this Hhas) as (Hret & -> & _).
      rewrite JsMap_set_absent by done. unfold JsMap.values.
      rewrite map_app. cbn. congruence.
  - intros key patch updated Hupdate.
    destruct (JsMap.get key (DataStore.map this)) as [existing|] eqn:Hget.
    + destruct (update_found key patch this existing Hget) as (Hret & Hmap & _).
      destruct (JsMap_set_in_place key (patch ∪ existing) _ _ Hget)
        as (before & after & Hm & Hset).
      exists (JsMap.values before), existing, (JsMap.values after).
      rewrite list_all, Hmap, Hset. rewrite Hm at 1. unfold JsMap.values.
      rewrite !map_app. cbn. repeat split; congruence.
    + rewrite (update_missing key patch this Hget) in Hupdate. done.
  - intros key. eexists. split; [apply list_all|].
    destruct (delete_eq key this) as (_ & -> & _). apply JsMap_values_delete.
Qed.
